(** * Strong orientation of a mixed road graph

    Shallow embedding of [tanjung-priok-strong-orientation.py]: the
    pipeline [create_custom_orientation] and its helpers
    [get_largest_scc], [detection_oneway_cut] and
    [_is_still_strongly_connected], over a model of the part of networkx
    the script calls.

    Nodes are hashable identifiers (OSM node ids when the script runs on
    an OSMnx download); they are named by integers here.  Node
    attributes (coordinates, labels) are carried by the script but never
    read by the pipeline and are left out. *)

From Stdlib Require Import ZArith List Bool Lia Permutation Relations.
Import ListNotations.
Open Scope Z_scope.

Abbreviation node := Z (only parsing).
Abbreviation pair := (Z * Z)%type (only parsing).

Definition memZ (x : node) (l : list node) : bool := existsb (Z.eqb x) l.

Definition pair_eqb (p q : pair) : bool :=
  (fst p =? fst q) && (snd p =? snd q).

Definition mem_pair (p : pair) (l : list pair) : bool := existsb (pair_eqb p) l.

Definition swap (p : pair) : pair := (snd p, fst p).

(** Exceptions the script can raise. *)
Inductive exn : Type :=
| KeyError
| IndexError
| ValueError
| NetworkXPointlessConcept.

Inductive result (A : Type) : Type :=
| Ok (a : A)
| Raise (e : exn).
Arguments Ok {A} a.
Arguments Raise {A} e.

Definition rbind {A B} (r : result A) (k : A -> result B) : result B :=
  match r with
  | Ok a => k a
  | Raise e => Raise e
  end.

(** ** Reachability over a list of arcs *)

Section Reachability.
Variable E : list pair.

Definition succs (u : node) : list node :=
  map snd (filter (fun e => fst e =? u) E).

Definition add_new (acc : list node) (x : node) : list node :=
  if memZ x acc then acc else acc ++ [x].

Definition expand (S : list node) : list node :=
  fold_left add_new (flat_map succs S) S.

Fixpoint iter (n : nat) (S : list node) : list node :=
  match n with
  | O => S
  | Datatypes.S n' => iter n' (expand S)
  end.

(** Nodes reachable from [u]; every round either adds a target of some
    arc or changes nothing, so [length E] rounds are enough. *)
Definition reach (u : node) : list node := iter (length E) [u].

Definition step (a b : node) : Prop := In (a, b) E.
Definition path : node -> node -> Prop := clos_refl_trans_1n node step.
(** A set is closed when no arc leaves it. *)
Definition closed (S : list node) : Prop :=
  forall x y, In x S -> In (x, y) E -> In y S.

(** Targets of arcs not yet in the set: the quantity that shrinks. *)
Definition missing (S : list node) : nat :=
  length (filter (fun y => negb (memZ y S)) (map snd E)).
End Reachability.

(** ** The graph value

    A [networkx.MultiDiGraph]: nodes in insertion order, and arcs, each
    with the key that tells parallel arcs apart and the two attributes the
    pipeline reads ([data.get("oneway")], [data.get("flexible", False)];
    an absent attribute reads as [false]).  Arcs between the same two
    nodes are listed in the order they were added. *)

Record arc : Type := Arc {
  src : node;
  dst : node;
  key : Z;
  oneway : bool;
  flexible : bool
}.

Record graph : Type := Graph {
  g_nodes : list node;
  g_arcs : list arc
}.

Definition ends (a : arc) : pair := (src a, dst a).

Definition empty_graph : graph := Graph [] [].

Definition is_null (G : graph) : bool :=
  match g_nodes G with [] => true | _ => false end.

Definition joins (u v : node) (a : arc) : bool := (src a =? u) && (dst a =? v).

Definition has_edge (G : graph) (u v : node) : bool := existsb (joins u v) (g_arcs G).

(** [G.remove_edge(u, v)] without a key removes one arc from [u] to [v]:
    the one added last. *)
Fixpoint remove_last (u v : node) (l : list arc) : list arc :=
  match l with
  | [] => []
  | a :: l' =>
      if joins u v a && negb (existsb (joins u v) l')
      then l'
      else a :: remove_last u v l'
  end.

Definition remove_edge (G : graph) (u v : node) : graph :=
  Graph (g_nodes G) (remove_last u v (g_arcs G)).

(** [G.remove_nodes_from(ns)]: the nodes go, with every arc touching them. *)
Definition remove_nodes_from (G : graph) (ns : list node) : graph :=
  Graph (filter (fun n => negb (memZ n ns)) (g_nodes G))
        (filter (fun a => negb (memZ (src a) ns) && negb (memZ (dst a) ns)) (g_arcs G)).

(** [G.subgraph(c).copy()]: the induced subgraph, attributes kept.  The
    copy is listed here in the order of [G]; networkx lists it in the
    order of the node set [c] when [c] holds less than half of the nodes
    of [G].  Which nodes and arcs the copy has does not depend on it. *)
Definition subgraph (G : graph) (c : list node) : graph :=
  Graph (filter (fun n => memZ n c) (g_nodes G))
        (filter (fun a => memZ (src a) c && memZ (dst a) c) (g_arcs G)).

Definition in_edges (G : graph) (n : node) : list arc :=
  filter (fun a => dst a =? n) (g_arcs G).

Definition out_edges (G : graph) (n : node) : list arc :=
  filter (fun a => src a =? n) (g_arcs G).

(** [G.neighbors(n)]: the successors of [n]. *)
Definition neighbors (G : graph) (n : node) : list node :=
  map dst (out_edges G n).

(** [add_node]: nothing happens when the node is there already. *)
Definition add_node (ns : list node) (n : node) : list node :=
  if memZ n ns then ns else ns ++ [n].

Definition add_nodes_from (ns new : list node) : list node := fold_left add_node new ns.

(** [add_edge(u, v)] on a MultiDiGraph: both ends become nodes, the new
    arc takes the first unused key (the number of arcs already between
    [u] and [v]) and carries no attribute. *)
Definition add_edge (G : graph) (p : pair) : graph :=
  Graph (add_node (add_node (g_nodes G) (fst p)) (snd p))
        (g_arcs G ++
         [Arc (fst p) (snd p)
              (Z.of_nat (length (filter (joins (fst p) (snd p)) (g_arcs G))))
              false false]).

Definition add_edges_from (G : graph) (ps : list pair) : graph := fold_left add_edge ps G.

(** ** The part of networkx the script relies on *)

Module nx.

(** The arcs of a graph as pairs, and the topology of [nx.Graph(G)],
    where every arc can be walked both ways. *)
Definition arcs_of (G : graph) : list pair := map ends (g_arcs G).

Definition sym (E : list pair) : list pair := E ++ map swap E.

Definition undirected (G : graph) : list pair := sym (arcs_of G).

(** [nx.is_strongly_connected] on node list [V] and arcs [E]; networkx
    refuses the null graph. *)
Definition all_reach (V : list node) (E : list pair) : bool :=
  forallb (fun u => forallb (fun v => memZ v (reach E u)) V) V.

Definition is_strongly_connected_on (V : list node) (E : list pair) : result bool :=
  match V with
  | [] => Raise NetworkXPointlessConcept
  | _ => Ok (all_reach V E)
  end.

Definition is_strongly_connected (G : graph) : result bool :=
  is_strongly_connected_on (g_nodes G) (arcs_of G).

(** Components: the nodes are scanned in graph order and every node not
    yet covered opens the component [comp_of] gives it. *)
Fixpoint components_from (comp_of : node -> list node) (vs seen : list node)
  : list (list node) :=
  match vs with
  | [] => []
  | v :: vs' =>
      if memZ v seen then components_from comp_of vs' seen
      else comp_of v :: components_from comp_of vs' (comp_of v ++ seen)
  end.

Definition connected_components (G : graph) : list (list node) :=
  components_from (reach (undirected G)) (g_nodes G) [].

Definition scc_of (E : list pair) (v : node) : list node :=
  filter (fun w => memZ v (reach E w)) (reach E v).

(** [nx.strongly_connected_components]; the order in which networkx
    yields the components is not modelled, they come by first node, so
    among components of the same size [max(..., key=len)] may keep
    another one than the first listed here. *)
Definition strongly_connected_components (G : graph) : list (list node) :=
  components_from (scc_of (arcs_of G)) (g_nodes G) [].

(** Edges of [nx.Graph(G)], one per unordered pair of nodes. *)
Definition add_undirected (acc : list pair) (p : pair) : list pair :=
  if mem_pair p acc || mem_pair (swap p) acc then acc else acc ++ [p].

Definition edges_undirected (G : graph) : list pair :=
  fold_left add_undirected (arcs_of G) [].

Definition without (p : pair) (E : list pair) : list pair :=
  filter (fun q => negb (pair_eqb q p) && negb (pair_eqb q (swap p))) E.

(** [nx.bridges]: the edges whose removal disconnects their ends. *)
Definition is_bridge (G : graph) (p : pair) : bool :=
  negb (memZ (snd p) (reach (without p (undirected G)) (fst p))).

Definition bridges (G : graph) : list pair :=
  filter (is_bridge G) (edges_undirected G).

End nx.

(** [max(cs, key=len)]: the first of the longest; [ValueError] on an
    empty sequence. *)
Fixpoint longest (best : list node) (cs : list (list node)) : list node :=
  match cs with
  | [] => best
  | c :: cs' => if (length best <? length c)%nat then longest c cs' else longest best cs'
  end.

Definition max_len (cs : list (list node)) : result (list node) :=
  match cs with
  | [] => Raise ValueError
  | c :: cs' => Ok (longest c cs')
  end.

(** ** Iteration order of Python sets

    [fixed_arcs] and [edges_to_decide_set] are Python sets, and every
    flexible connection is a [frozenset]; the script turns them into
    lists with [list(...)] and [tuple(...)].  The language leaves the
    order to the hash table (the hashes of the identifiers and the
    history of the table), so the order is a parameter here: any listing
    of the distinct members of the set that was filled with [l], and
    either order for the two ends of a frozenset.  The integers that
    name the nodes are names only: CPython places a string identifier by
    a hash that changes from one interpreter run to the next, and an
    interpreter that keeps its sets in insertion order lists them as
    they were filled.

    The node sets handed to [G.subgraph] on lines 11 and 62 are listed
    by the hash table as well.  That order is no parameter of
    [subgraph]; where two runs are compared, the graphs they work on are
    taken with the same nodes and arcs, each in an order of its own. *)

Definition pair_eq_dec (p q : pair) : {p = q} + {p <> q}.
Proof. decide equality; apply Z.eq_dec. Defined.

Record set_order : Type := SetOrder {
  set_iter : list pair -> list pair;
  set_iter_perm : forall l, Permutation (set_iter l) (nodup pair_eq_dec l);
  tuple_flip : pair -> bool
}.

(** [frozenset([u, v])], kept as its two members in increasing order;
    both slots hold the same node when [u = v]. *)
Definition frozenset2 (p : pair) : pair := (Z.min (fst p) (snd p), Z.max (fst p) (snd p)).

(** [tuple(edge)]: one element for a frozenset with one member. *)
Definition tuple_of (o : set_order) (fs : pair) : list node :=
  if fst fs =? snd fs then [fst fs]
  else if tuple_flip o fs then [snd fs; fst fs] else [fst fs; snd fs].

(** [t[i]] on a tuple. *)
Definition index (t : list node) (i : nat) : result node :=
  match nth_error t i with
  | Some x => Ok x
  | None => Raise IndexError
  end.

(** ** The helpers of the script *)

Definition get_largest_scc (G_input : graph) : graph :=
  if is_null G_input then empty_graph
  else match max_len (nx.strongly_connected_components G_input) with
       | Ok largest_scc_nodes => subgraph G_input largest_scc_nodes
       | Raise _ => empty_graph
       end.

Inductive direction : Type := all_in | all_out.

Definition two_way_neighbor (G : graph) (n : node) : bool :=
  existsb (fun neighbor => has_edge G n neighbor && has_edge G neighbor n) (neighbors G n).

Definition nonempty {A} (l : list A) : bool :=
  match l with [] => false | _ => true end.

Definition classify (G : graph) (n : node) : option direction :=
  let in_arcs := filter oneway (in_edges G n) in
  let out_arcs := filter oneway (out_edges G n) in
  if nonempty in_arcs && negb (nonempty out_arcs) && negb (two_way_neighbor G n)
  then Some all_in
  else if nonempty out_arcs && negb (nonempty in_arcs) && negb (two_way_neighbor G n)
  then Some all_out
  else None.

Definition detection_oneway_cut (G : graph) : list (node * direction) :=
  flat_map (fun n => match classify G n with
                     | Some d => [(n, d)]
                     | None => []
                     end) (g_nodes G).

(** The scratch [nx.DiGraph] of the feasibility test, as its nodes and
    its arcs.  A repeated arc is one arc in a DiGraph; listing it twice
    changes no path. *)
Definition digraph := (list node * list pair)%type.

Definition di_add_edge (T : digraph) (p : pair) : digraph :=
  (add_node (add_node (fst T) (fst p)) (snd p), snd T ++ [p]).

(** [for u, v in undecided_edges]: unpacking a tuple that has not two
    elements raises. *)
Fixpoint add_both_ways (T : digraph) (undecided_edges : list (list node)) : result digraph :=
  match undecided_edges with
  | [] => Ok T
  | [u; v] :: rest => add_both_ways (di_add_edge (di_add_edge T (u, v)) (v, u)) rest
  | _ :: _ => Raise ValueError
  end.

Definition _is_still_strongly_connected
  (nodes : list node) (oriented_arcs : list pair) (undecided_edges : list (list node))
  : result bool :=
  let temp_graph := fold_left di_add_edge oriented_arcs (add_nodes_from [] nodes, []) in
  rbind (add_both_ways temp_graph undecided_edges)
        (fun T => nx.is_strongly_connected_on (fst T) (snd T)).

(** ** The stages of [create_custom_orientation] *)

(** Lines 48-50: the flag goes on the arc with key 0 between the two
    nodes, whichever parallel arc the loop is looking at. *)
Definition is_key0 (u v : node) (a : arc) : bool := joins u v a && (key a =? 0).

Definition mark (a : arc) : arc := Arc (src a) (dst a) (key a) (oneway a) true.

Definition set_flexible (u v : node) (l : list arc) : result (list arc) :=
  if existsb (is_key0 u v) l
  then Ok (map (fun a => if is_key0 u v a then mark a else a) l)
  else Raise KeyError.

(** The loop over [G.edges(data=True)]; the arcs flagged before a
    [KeyError] stay flagged. *)
Fixpoint flag_loop (todo cur : list arc) : list arc * result unit :=
  match todo with
  | [] => (cur, Ok tt)
  | a :: todo' =>
      if oneway a then flag_loop todo' cur
      else match set_flexible (src a) (dst a) cur with
           | Ok cur' => flag_loop todo' cur'
           | Raise e => (cur, Raise e)
           end
  end.

Definition flag_flexible (G : graph) : graph * result unit :=
  let r := flag_loop (g_arcs G) (g_arcs G) in
  (Graph (g_nodes G) (fst r), snd r).

(** Lines 57-59. *)
Definition remove_bridge (G : graph) (p : pair) : graph :=
  let G1 := if has_edge G (fst p) (snd p) then remove_edge G (fst p) (snd p) else G in
  if has_edge G1 (snd p) (fst p) then remove_edge G1 (snd p) (fst p) else G1.

Definition remove_bridges (G : graph) (bridges : list pair) : graph :=
  fold_left remove_bridge bridges G.

(** STEP 1, lines 53-65. *)
Definition bridge_filter (G : graph) : result graph :=
  let bridges := nx.bridges G in
  if nonempty bridges then
    let G' := remove_bridges G bridges in
    rbind (max_len (nx.connected_components G'))
          (fun largest_component_nodes => Ok (subgraph G' largest_component_nodes))
  else Ok G.

(** STEP 2, lines 68-76. *)
Definition cut_node_filter (G : graph) : graph :=
  let one_way_cuts := detection_oneway_cut G in
  if nonempty one_way_cuts then
    get_largest_scc (remove_nodes_from G (map fst one_way_cuts))
  else G.

(** STEP 3, lines 79-89. *)
Definition fixed_arcs (o : set_order) (G : graph) : list pair :=
  set_iter o (map ends (filter (fun a => negb (flexible a)) (g_arcs G))).

Definition edges_to_decide (G : graph) : list pair :=
  map (fun a => frozenset2 (ends a)) (filter flexible (g_arcs G)).

Definition undecided_edges (o : set_order) (G : graph) : list (list node) :=
  map (tuple_of o) (set_iter o (edges_to_decide G)).

(** Lines 92-99. *)
Fixpoint orient (nodes : list node) (oriented_arcs : list pair)
  (undecided : list (list node)) : result (list pair) :=
  match undecided with
  | [] => Ok oriented_arcs
  | edge :: remaining_undecided =>
      rbind (index edge 0) (fun u =>
      rbind (index edge 1) (fun v =>
      rbind (_is_still_strongly_connected nodes (oriented_arcs ++ [(u, v)])
                                          remaining_undecided) (fun ok =>
      orient nodes (oriented_arcs ++ [if ok then (u, v) else (v, u)])
             remaining_undecided)))
  end.

Definition orientation_solver (o : set_order) (G : graph) : result (list pair) :=
  orient (g_nodes G) (fixed_arcs o G) (undecided_edges o G).

(** STEP 4, lines 102-111. *)
Definition build_final (G : graph) (oriented_arcs : list pair) : graph :=
  add_edges_from (Graph (add_nodes_from [] (g_nodes G)) []) oriented_arcs.

Definition final_verification (final_graph : graph) : result graph :=
  rbind (nx.is_strongly_connected final_graph) (fun ok =>
  if ok then Ok final_graph else Ok (get_largest_scc final_graph)).

(** ** Graph objects

    networkx graphs are mutable objects.  The store holds one graph per
    object; a variable of the script holds a reference.  Statements such
    as [G.remove_edge(...)] change the object in place, [G.copy()] and
    [nx.MultiDiGraph()] make a new one. *)

Definition ref := nat.
Definition store := list graph.

Definition M (A : Type) : Type := store -> store * result A.

Definition ret {A} (a : A) : M A := fun h => (h, Ok a).

Definition bind {A B} (c : M A) (k : A -> M B) : M B :=
  fun h => match c h with
           | (h', Ok a) => k a h'
           | (h', Raise e) => (h', Raise e)
           end.

Notation "x <- c ;; k" := (bind c (fun x => k))
  (at level 61, c at next level, right associativity).
Notation "c ;;; k" := (bind c (fun _ => k))
  (at level 61, right associativity).

Definition lift {A} (r : result A) : M A := fun h => (h, r).

Definition load (r : ref) : M graph := fun h => (h, Ok (nth r h empty_graph)).

Fixpoint upd (r : ref) (g : graph) (h : store) : store :=
  match h, r with
  | [], _ => []
  | _ :: h', O => g :: h'
  | x :: h', S r' => x :: upd r' g h'
  end.

Definition put (r : ref) (g : graph) : M unit := fun h => (upd r g h, Ok tt).

Definition alloc (g : graph) : M ref := fun h => (h ++ [g], Ok (length h)).

(** Lines 48-50 on the object [G]. *)
Definition flag_flexible_at (G : ref) : M unit :=
  g <- load G ;;
  put G (fst (flag_flexible g)) ;;;
  lift (snd (flag_flexible g)).

(** STEP 1 on the object [G]; the value is what [G] is bound to next. *)
Definition bridge_filter_at (G : ref) : M ref :=
  g <- load G ;;
  let bridges := nx.bridges g in
  if nonempty bridges then
    put G (remove_bridges g bridges) ;;;
    g' <- load G ;;
    largest_component_nodes <- lift (max_len (nx.connected_components g')) ;;
    alloc (subgraph g' largest_component_nodes)
  else ret G.

(** STEP 2 on the object [G]. *)
Definition cut_node_filter_at (G : ref) : M ref :=
  g <- load G ;;
  let one_way_cuts := detection_oneway_cut g in
  if nonempty one_way_cuts then
    put G (remove_nodes_from g (map fst one_way_cuts)) ;;;
    g' <- load G ;;
    alloc (get_largest_scc g')
  else ret G.

(** STEP 3 and STEP 4 on the object [G]. *)
Definition orient_and_verify_at (o : set_order) (G : ref) : M ref :=
  g <- load G ;;
  oriented_arcs <- lift (orientation_solver o g) ;;
  final_graph <- alloc (build_final g oriented_arcs) ;;
  f <- load final_graph ;;
  ok <- lift (nx.is_strongly_connected f) ;;
  if ok then ret final_graph else alloc (get_largest_scc f).

Definition create_custom_orientation (o : set_order) (G_raw : ref) : M ref :=
  g_raw <- load G_raw ;;
  G <- alloc g_raw ;;
  flag_flexible_at G ;;;
  G <- bridge_filter_at G ;;
  G <- cut_node_filter_at G ;;
  orient_and_verify_at o G.

(** The pipeline on a graph value: the store holds the caller's graph
    and nothing else, the outcome is the graph the returned reference
    points to. *)
Definition run (o : set_order) (g_raw : graph) : result graph :=
  match create_custom_orientation o 0%nat [g_raw] with
  | (h, Ok r) => Ok (nth r h empty_graph)
  | (_, Raise e) => Raise e
  end.

(** The graph handed to the solver: flagged, then through both filters. *)
Definition filtered (g_raw : graph) : result graph :=
  match flag_flexible g_raw with
  | (g, Ok _) => rbind (bridge_filter g) (fun g' => Ok (cut_node_filter g'))
  | (_, Raise e) => Raise e
  end.

(** The same pipeline as a function of graph values. *)
Definition pipeline (o : set_order) (g_raw : graph) : result graph :=
  rbind (filtered g_raw) (fun g =>
  rbind (orientation_solver o g) (fun oriented_arcs =>
  final_verification (build_final g oriented_arcs))).

(** ** Properties stated on graphs *)

Definition strongly_connected (G : graph) : Prop :=
  forall a b, In a (g_nodes G) -> In b (g_nodes G) -> path (nx.arcs_of G) a b.

(** Two orders that list every set as it was filled; they differ in the
    order they give the two members of a frozenset. *)
Definition insertion_order (flip : bool) : set_order :=
  SetOrder (nodup pair_eq_dec) (fun l => Permutation_refl _) (fun _ => flip).

(** ** Notions used in the statements *)

(** [frame G h h']: going from [h] to [h'] no object is lost and no
    object of [h] other than [G] has changed. *)
Definition frame (G : ref) (h h' : store) : Prop :=
  (length h <= length h')%nat /\
  forall k, (k < length h)%nat -> k <> G ->
            nth k h' empty_graph = nth k h empty_graph.

(** A stage on objects agrees with a function on graph values: it yields
    what the function yields, in the object it was given or in a new one. *)
Definition implements (f_at : ref -> M ref) (f : graph -> result graph) : Prop :=
  forall (h : store) (G : ref), (G < length h)%nat ->
    frame G h (fst (f_at G h)) /\
    match snd (f_at G h) with
    | Ok G' => (G' < length (fst (f_at G h)))%nat /\
               (G' = G \/ (length h <= G')%nat) /\
               f (nth G h empty_graph) = Ok (nth G' (fst (f_at G h)) empty_graph)
    | Raise e => f (nth G h empty_graph) = Raise e
    end.

(** [kept n h h']: the first [n] objects of [h] are the same in [h']. *)
Definition kept (n : nat) (h h' : store) : Prop :=
  (n <= length h')%nat /\
  forall k, (k < n)%nat -> nth k h' empty_graph = nth k h empty_graph.

(** Two scratch graphs with the same nodes and the same arcs. *)
Definition same_graph (T T' : digraph) : Prop :=
  (forall x, In x (fst T) <-> In x (fst T')) /\
  (forall p, In p (snd T) <-> In p (snd T')).

(** The arcs that stand for the undecided connections in the test. *)
Definition both_ways (undecided : list (list node)) : list pair :=
  flat_map (fun t => match t with
                     | [u; v] => [(u, v); (v, u)]
                     | _ => []
                     end) undecided.

(** A tuple with two elements. *)
Definition is_couple (t : list node) : Prop := exists u v, t = [u; v].

(** The nodes of the graph the test builds: the nodes it is given and
    the ends of its arcs. *)
Definition trial_node (nodes : list node) (E : list pair) (x : node) : Prop :=
  In x nodes \/ exists y, In (x, y) E \/ In (y, x) E.

(** Strong connectivity of the graph with arcs [E] on those nodes. *)
Definition feasible (nodes : list node) (E : list pair) : Prop :=
  forall a b, trial_node nodes E a -> trial_node nodes E b -> path E a b.

(** Exactly one direction of the connection under arc [a] is committed. *)
Definition one_direction (committed : list pair) (a : arc) : Prop :=
  (In (ends a) committed /\ ~ In (swap (ends a)) committed) \/
  (In (swap (ends a)) committed /\ ~ In (ends a) committed).

(** No arc without the [flexible] flag joins the two ends of [a]. *)
Definition no_fixed_between (G : graph) (a : arc) : Prop :=
  forall b, In b (g_arcs G) -> flexible b = false ->
            ends b <> ends a /\ ends b <> swap (ends a).

(** How many arcs lead from [u] to [v]. *)
Definition count_arcs (u v : node) (l : list arc) : nat := length (filter (joins u v) l).

(** A fixed arc into [n]; a fixed arc out of [n]. *)
Definition inbound_fixed (G : graph) (n : node) : Prop :=
  exists a, In a (g_arcs G) /\ dst a = n /\ oneway a = true.

Definition outbound_fixed (G : graph) (n : node) : Prop :=
  exists a, In a (g_arcs G) /\ src a = n /\ oneway a = true.

(** A neighbor [m] with both [n -> m] and [m -> n] present. *)
Definition two_way_escape (G : graph) (n : node) : Prop :=
  exists m, (exists a, In a (g_arcs G) /\ src a = n /\ dst a = m) /\
            (exists b, In b (g_arcs G) /\ src b = m /\ dst b = n).

(** The one-way cut nodes of the specification. *)
Definition one_way_cut_node (G : graph) (n : node) : Prop :=
  In n (g_nodes G) /\ ~ two_way_escape G n /\
  ((inbound_fixed G n /\ ~ outbound_fixed G n) \/
   (outbound_fixed G n /\ ~ inbound_fixed G n)).

(** Lines 45-65: copy, flag, bridge step. *)
Definition flag_and_bridge_at (G_raw : ref) : M ref :=
  g_raw <- load G_raw ;;
  G <- alloc g_raw ;;
  flag_flexible_at G ;;;
  bridge_filter_at G.

(** Every arc of a networkx graph joins two of its nodes. *)
Definition well_formed (G : graph) : Prop :=
  forall a, In a (g_arcs G) -> In (src a) (g_nodes G) /\ In (dst a) (g_nodes G).

(** One arc chosen for every undecided tuple, in either direction. *)
Definition resolves (undecided : list (list node)) (chosen : list (Z * Z)) : Prop :=
  Forall2 (fun t d => exists u v, t = [u; v] /\ (d = (u, v) \/ d = (v, u)))
          undecided chosen.

(** The arc with key 0 between two nodes that some arc not marked one-way
    joins in the same direction. *)
Definition hit (todo : list arc) (a : arc) : bool :=
  (key a =? 0) && existsb (fun b => negb (oneway b) && joins (src b) (dst b) a) todo.

Definition flag_if_hit (todo : list arc) (a : arc) : arc :=
  if hit todo a then mark a else a.

(** Every arc not marked one-way has an arc with key 0 beside it. *)
Definition key0_present (G : graph) : Prop :=
  forall b, In b (g_arcs G) -> oneway b = false ->
    exists a, In a (g_arcs G) /\ src a = src b /\ dst a = dst b /\ key a = 0.

(** A graph without parallel arcs, as networkx keys it: one arc at most
    from a node to another, with key 0. *)
Definition no_parallel_arcs (G : graph) : Prop :=
  (forall a, In a (g_arcs G) -> key a = 0) /\ NoDup (map ends (g_arcs G)).

(** Connected once directions are forgotten, as [nx.Graph(G)] is read. *)
Definition connected (G : graph) : Prop :=
  forall a b, In a (g_nodes G) -> In b (g_nodes G) -> path (nx.undirected G) a b.

(** What tells two arcs of a multigraph apart: the two ends and the key. *)
Definition arc_id (a : arc) : (Z * Z) * Z := (ends a, key a).

(** Keys as networkx hands them out: distinct, and below the number of
    arcs between the same two nodes. *)
Definition keys_in_order (l : list arc) : Prop :=
  NoDup (map arc_id l) /\
  forall a, In a l -> key a < Z.of_nat (count_arcs (src a) (dst a) l).

(** [p] is a connection of [G]: some arc of [G] joins its two ends, one
    way or the other. *)
Definition connection_of (G : graph) (p : Z * Z) : Prop :=
  exists a, In a (g_arcs G) /\ (ends a = p \/ ends a = swap p).

(** A list of pairs that holds every pair both ways round, as the arcs
    of an undirected graph do. *)
Definition symmetric (E : list (Z * Z)) : Prop := forall x y, In (x, y) E -> In (y, x) E.

(** Two graphs with the same nodes and the same arcs, keys and
    attributes included, whatever the order they are listed in. *)
Definition same_content (G G' : graph) : Prop :=
  (forall n, In n (g_nodes G) <-> In n (g_nodes G')) /\
  (forall a, In a (g_arcs G) <-> In a (g_arcs G')).

(** The first tuple of a processing sequence on the square 1-2-3-4 goes
    round it the way 1 -> 2 -> 3 -> 4 -> 1 does. *)
Definition clockwise_first (undecided : list (list node)) : bool :=
  match undecided with
  | [u; v] :: _ => v =? u mod 4 + 1
  | _ => false
  end.

(** ** Road networks used as examples *)

(** A two-way street is two opposing arcs, neither marked one-way. *)
Definition two_way (u v : node) : list arc :=
  [Arc u v 0 false false; Arc v u 0 false false].

Definition one_way (u v : node) : arc := Arc u v 0 true false.

(** Scenario A of the specification: the square A-B-C-D, its corners
    named 1, 2, 3, 4 here, every street two-way. *)
Definition square : graph :=
  Graph [1; 2; 3; 4] (two_way 1 2 ++ two_way 2 3 ++ two_way 3 4 ++ two_way 4 1).

(** An arc as [add_edges_from] makes it: no attribute. *)
Definition plain (u v : node) : arc := Arc u v 0 false false.

Definition square_clockwise : graph :=
  Graph [1; 2; 3; 4] [plain 1 2; plain 2 3; plain 3 4; plain 4 1].

Definition square_anticlockwise : graph :=
  Graph [1; 2; 3; 4] [plain 2 1; plain 3 2; plain 4 3; plain 1 4].

(** The square as it reaches the solver: every arc flagged flexible. *)
Definition square_flagged : graph := Graph [1; 2; 3; 4] (map mark (g_arcs square)).

(** A triangle of one-way streets 2 -> 1 -> 3 -> 2 with a two-way street
    registered from 1 to 2 beside the one-way street from 2 to 1. *)
Definition triangle_with_return : graph :=
  Graph [1; 2; 3] [one_way 2 1; one_way 1 3; one_way 3 2; plain 1 2].

Definition triangle_with_return_flagged : graph :=
  Graph [1; 2; 3] [one_way 2 1; one_way 1 3; one_way 3 2; mark (plain 1 2)].

(** Two one-way triangles 1 -> 3 -> 4 -> 1 and 2 -> 5 -> 6 -> 2, linked
    by two parallel arcs from 1 to 2: a one-way street (key 0) and a
    street not marked one-way (key 1). *)
Definition linked_triangles : graph :=
  Graph [1; 3; 4; 2; 5; 6]
        [one_way 1 3; one_way 3 4; one_way 4 1;
         one_way 2 5; one_way 5 6; one_way 6 2;
         one_way 1 2; Arc 1 2 1 false false].

Definition linked_triangles_filtered : graph :=
  Graph [1; 3; 4; 2; 5; 6]
        [one_way 1 3; one_way 3 4; one_way 4 1;
         one_way 2 5; one_way 5 6; one_way 6 2;
         mark (one_way 1 2)].

(** A triangle and a square of two-way streets that do not touch, and a
    triangle with a tail 3 - 4 - 5 of two-way streets. *)
Definition two_islands : graph :=
  Graph [1; 2; 3; 4; 5; 6; 7]
        (two_way 1 2 ++ two_way 2 3 ++ two_way 3 1 ++
         two_way 4 5 ++ two_way 5 6 ++ two_way 6 7 ++ two_way 7 4).

Definition triangle_with_tail : graph :=
  Graph [1; 2; 3; 4; 5]
        (two_way 1 2 ++ two_way 2 3 ++ two_way 3 1 ++ two_way 3 4 ++ two_way 4 5).

(** Node 4 feeds the triangle 1-2-3 through two one-way streets and
    nothing leads back to it. *)
Definition triangle_with_source : graph :=
  Graph [1; 2; 3; 4]
        (two_way 1 2 ++ two_way 2 3 ++ two_way 3 1 ++ [one_way 4 1; one_way 4 2]).

Definition triangle_with_source_flagged : graph :=
  Graph [1; 2; 3; 4]
        (map mark (two_way 1 2 ++ two_way 2 3 ++ two_way 3 1) ++ [one_way 4 1; one_way 4 2]).

(** Four crossings joined by one-way streets 1 -> 2, 3 -> 2, 3 -> 4 and
    1 -> 4: no bridge, every node a one-way cut node. *)
Definition facing_streets : graph :=
  Graph [1; 2; 3; 4] [one_way 1 2; one_way 3 2; one_way 3 4; one_way 1 4].

(** Two two-way streets 1 - 2 and a loop street at 3, first as the solver
    gets them when the loop is listed last. *)
Definition loop_after_street : graph :=
  Graph [1; 2; 3] [mark (plain 1 2); mark (plain 2 1); mark (plain 3 3)].

(** A triangle of two-way streets as the solver gets it, and an order
    that gives the frozenset of 1 and 3 as (3, 1). *)
Definition triangle_flagged : graph :=
  Graph [1; 2; 3] (map mark (two_way 1 2 ++ two_way 2 3 ++ two_way 3 1)).

Definition round_trip_order : set_order :=
  SetOrder (nodup pair_eq_dec) (fun l => Permutation_refl _)
           (fun fs => (fst fs =? 1) && (snd fs =? 3)).

(** [two_islands] as it reaches the solver: no bridge, no cut node, every
    arc flagged flexible. *)
Definition two_islands_flagged : graph :=
  Graph (g_nodes two_islands) (map mark (g_arcs two_islands)).

(** An order that lists every set from the member added last to the
    member added first. *)
Definition reverse_order : set_order :=
  SetOrder (fun l => rev (nodup pair_eq_dec l))
           (fun l => Permutation_sym (Permutation_rev (nodup pair_eq_dec l)))
           (fun _ => false).

(** A square with one-way streets 1 -> 2 -> 3 and two-way streets 3 - 4
    and 4 - 1, as it reaches the solver; and the same graph with its
    nodes and its arcs listed in another order. *)
Definition half_fixed_square : graph :=
  Graph [1; 2; 3; 4]
        ([one_way 1 2; one_way 2 3] ++ map mark (two_way 3 4 ++ two_way 4 1)).

Definition half_fixed_square_relisted : graph :=
  Graph [3; 1; 4; 2]
        ([one_way 1 2; one_way 2 3] ++ map mark (two_way 4 1 ++ two_way 3 4)).

(** * Proofs *)

(** ** Membership tests *)

Lemma memZ_In (x : node) (l : list node) : memZ x l = true <-> In x l.
Proof.
  unfold memZ. rewrite existsb_exists. split.
  - intros [y [Hy Heq]]. apply Z.eqb_eq in Heq. now subst.
  - intros H. exists x. split; [assumption | apply Z.eqb_refl].
Qed.

Lemma memZ_false (x : node) (l : list node) : memZ x l = false <-> ~ In x l.
Proof.
  rewrite <- memZ_In. destruct (memZ x l); split; congruence.
Qed.

Lemma pair_eqb_eq (p q : pair) : pair_eqb p q = true <-> p = q.
Proof.
  destruct p as [a b], q as [c d]. unfold pair_eqb. simpl.
  rewrite andb_true_iff, !Z.eqb_eq. split.
  - intros [-> ->]. reflexivity.
  - intros H. inversion H. auto.
Qed.

Lemma mem_pair_In (p : pair) (l : list pair) : mem_pair p l = true <-> In p l.
Proof.
  unfold mem_pair. rewrite existsb_exists. split.
  - intros [q [Hq Heq]]. apply pair_eqb_eq in Heq. now subst.
  - intros H. exists p. split; [assumption | now apply pair_eqb_eq].
Qed.

(** ** Reachability computes paths *)

Section ReachabilityFacts.
Variable E : list pair.

Lemma In_succs (x y : node) : In y (succs E x) <-> In (x, y) E.
Proof.
  unfold succs. rewrite in_map_iff. split.
  - intros [[a b] [Hb Hin]]. apply filter_In in Hin. destruct Hin as [Hin Ha].
    simpl in *. apply Z.eqb_eq in Ha. now subst.
  - intros H. exists (x, y). split; [reflexivity|].
    apply filter_In. split; [assumption | apply Z.eqb_refl].
Qed.

Lemma In_fold_add_new (l S : list node) (y : node) :
  In y (fold_left add_new l S) <-> In y S \/ In y l.
Proof.
  revert S. induction l as [|x l IH]; intros S; simpl.
  - tauto.
  - rewrite IH. unfold add_new. destruct (memZ x S) eqn:Hx.
    + apply memZ_In in Hx. split; [tauto|].
      intros [H|[H|H]]; subst; auto.
    + rewrite in_app_iff. simpl. tauto.
Qed.

Lemma In_expand (S : list node) (y : node) :
  In y (expand E S) <-> In y S \/ exists x, In x S /\ In (x, y) E.
Proof.
  unfold expand. rewrite In_fold_add_new, in_flat_map.
  split; (intros [H|[x [Hx Hxy]]]; [now left | right; exists x; split; [assumption|]]).
  - now apply In_succs.
  - now apply In_succs.
Qed.

Lemma path_refl (a : node) : path E a a.
Proof. constructor. Qed.

Lemma path_trans (a b c : node) : path E a b -> path E b c -> path E a c.
Proof.
  unfold path. intros H1 H2.
  apply clos_rt_rt1n. apply rt_trans with b; now apply clos_rt1n_rt.
Qed.

Lemma path_step (a b : node) : In (a, b) E -> path E a b.
Proof. intros H. unfold path. econstructor; [exact H | constructor]. Qed.

Lemma iter_sound (u : node) (n : nat) (S : list node) :
  (forall x, In x S -> path E u x) ->
  forall y, In y (iter E n S) -> path E u y.
Proof.
  revert S. induction n as [|n IH]; intros S HS y Hy; simpl in Hy.
  - now apply HS.
  - apply (IH (expand E S)); [|assumption].
    intros x Hx. apply In_expand in Hx. destruct Hx as [Hx|[w [Hw Hwx]]].
    + now apply HS.
    + apply path_trans with w; [now apply HS | now apply path_step].
Qed.

Lemma closed_path (S : list node) (a b : node) :
  closed E S -> In a S -> path E a b -> In b S.
Proof.
  intros Hc Ha Hp. induction Hp as [|a c b Hac _ IH]; [assumption|].
  apply IH. now apply (Hc a c).
Qed.

Lemma iter_mono (n : nat) (S : list node) (x : node) :
  In x S -> In x (iter E n S).
Proof.
  revert S. induction n as [|n IH]; intros S Hx; simpl; [assumption|].
  apply IH. apply In_expand. now left.
Qed.

Lemma closed_expand (S : list node) :
  closed E S -> forall y, In y (expand E S) <-> In y S.
Proof.
  intros Hc y. rewrite In_expand. split; [|tauto].
  intros [H|[x [Hx Hxy]]]; [assumption | now apply (Hc x y)].
Qed.

Lemma closed_iter (n : nat) (S : list node) : closed E S -> closed E (iter E n S).
Proof.
  revert S. induction n as [|n IH]; intros S Hc; simpl; [assumption|].
  apply IH. intros x y Hx Hxy.
  apply (proj2 (closed_expand S Hc y)).
  apply (proj1 (closed_expand S Hc x)) in Hx. now apply (Hc x y).
Qed.

Lemma filter_length_lt {A} (p q : A -> bool) (l : list A) (x : A) :
  (forall y, q y = true -> p y = true) ->
  In x l -> p x = true -> q x = false ->
  (length (filter q l) < length (filter p l))%nat.
Proof.
  intros Hqp. induction l as [|a l IH]; intros Hin Hp Hq; [contradiction|].
  assert (Hle : forall l', (length (filter q l') <= length (filter p l'))%nat).
  { induction l' as [|b l' IH']; simpl; [lia|].
    destruct (q b) eqn:Hqb.
    - rewrite (Hqp b Hqb). simpl. lia.
    - destruct (p b); simpl; lia. }
  simpl. destruct Hin as [->|Hin].
  - rewrite Hp, Hq. simpl. specialize (Hle l). lia.
  - specialize (IH Hin Hp Hq). destruct (q a) eqn:Hqa.
    + rewrite (Hqp a Hqa). simpl. lia.
    + destruct (p a); simpl; lia.
Qed.

Lemma closed_dec (S : list node) :
  closed E S \/ exists y, In y (map snd E) /\ In y (expand E S) /\ ~ In y S.
Proof.
  destruct (forallb (fun y => memZ y S) (flat_map (succs E) S)) eqn:Hall.
  - left. intros x y Hx Hxy. rewrite forallb_forall in Hall.
    apply memZ_In. apply Hall. apply in_flat_map. exists x.
    split; [assumption | now apply In_succs].
  - right.
    assert (Hex : existsb (fun y => negb (memZ y S)) (flat_map (succs E) S) = true).
    { clear -Hall. induction (flat_map (succs E) S) as [|a l IH]; simpl in *; [discriminate|].
      destruct (memZ a S); simpl in *; auto. }
    apply existsb_exists in Hex. destruct Hex as [y [Hy Hn]].
    apply in_flat_map in Hy. destruct Hy as [x [Hx Hxy]].
    apply In_succs in Hxy. exists y. repeat split.
    + apply in_map_iff. exists (x, y). auto.
    + apply In_expand. right. exists x. auto.
    + apply memZ_false. now destruct (memZ y S).
Qed.

Lemma missing_zero_closed (S : list node) : missing E S = O -> closed E S.
Proof.
  unfold missing. intros H x y Hx Hxy.
  destruct (memZ y S) eqn:Hy; [now apply memZ_In|].
  assert (Hin : In y (filter (fun y => negb (memZ y S)) (map snd E))).
  { apply filter_In. split; [|now rewrite Hy].
    apply in_map_iff. exists (x, y). auto. }
  destruct (filter (fun y => negb (memZ y S)) (map snd E)); [contradiction | discriminate].
Qed.

Lemma iter_closed (n : nat) (S : list node) :
  (missing E S <= n)%nat -> closed E (iter E n S).
Proof.
  revert S. induction n as [|n IH]; intros S Hm.
  - simpl. apply missing_zero_closed. lia.
  - destruct (closed_dec S) as [Hc|[y [Hy [Hye HyS]]]].
    + now apply closed_iter.
    + simpl. apply IH.
      assert (missing E (expand E S) < missing E S)%nat; [|lia].
      unfold missing. apply filter_length_lt with (x := y).
      * intros z Hz. apply negb_true_iff in Hz. apply negb_true_iff.
        apply memZ_false. apply memZ_false in Hz. intros Hin. apply Hz.
        apply In_expand. now left.
      * assumption.
      * apply negb_true_iff. now apply memZ_false.
      * apply negb_false_iff. now apply memZ_In.
Qed.

Lemma missing_le (S : list node) : (missing E S <= length E)%nat.
Proof.
  unfold missing.
  eapply Nat.le_trans; [apply filter_length_le|].
  rewrite length_map. apply Nat.le_refl.
Qed.

Theorem reach_path (u v : node) : In v (reach E u) <-> path E u v.
Proof.
  unfold reach. split.
  - apply iter_sound. intros x [<-|[]]. apply path_refl.
  - intros Hp. apply closed_path with (a := u).
    + apply iter_closed. apply missing_le.
    + apply iter_mono. now left.
    + assumption.
Qed.
End ReachabilityFacts.

(** ** Strong connectivity: the test and the components *)

Lemma all_reach_spec (V : list node) (E : list pair) :
  nx.all_reach V E = true <-> (forall a b, In a V -> In b V -> path E a b).
Proof.
  unfold nx.all_reach. rewrite forallb_forall. split.
  - intros H a b Ha Hb. specialize (H a Ha). rewrite forallb_forall in H.
    apply reach_path. apply memZ_In. now apply H.
  - intros H a Ha. apply forallb_forall. intros b Hb.
    apply memZ_In. apply reach_path. now apply H.
Qed.

Lemma is_strongly_connected_spec (G : graph) (ok : bool) :
  nx.is_strongly_connected G = Ok ok ->
  g_nodes G <> [] /\ (ok = true <-> strongly_connected G).
Proof.
  unfold nx.is_strongly_connected, nx.is_strongly_connected_on, strongly_connected.
  destruct (g_nodes G) as [|n ns] eqn:Hn; [discriminate|].
  intros H. injection H as <-. split; [discriminate|]. apply all_reach_spec.
Qed.

Lemma In_scc_of (E : list pair) (v w : node) :
  In w (nx.scc_of E v) <-> path E v w /\ path E w v.
Proof.
  unfold nx.scc_of. rewrite filter_In, memZ_In, !reach_path. tauto.
Qed.

Lemma components_from_In (f : node -> list node) (vs seen : list node) (c : list node) :
  In c (nx.components_from f vs seen) -> exists v, In v vs /\ c = f v.
Proof.
  revert seen. induction vs as [|v vs IH]; intros seen Hc; simpl in Hc; [contradiction|].
  destruct (memZ v seen).
  - destruct (IH _ Hc) as [w [Hw ->]]. exists w. split; [now right | reflexivity].
  - destruct Hc as [<-|Hc].
    + exists v. split; [now left | reflexivity].
    + destruct (IH _ Hc) as [w [Hw ->]]. exists w. split; [now right | reflexivity].
Qed.

Lemma longest_In (best : list node) (cs : list (list node)) :
  In (longest best cs) (best :: cs).
Proof.
  revert best. induction cs as [|c cs IH]; intros best; simpl; [now left|].
  destruct (length best <? length c)%nat.
  - destruct (IH c) as [H|H]; [right; left; exact H | right; right; exact H].
  - destruct (IH best) as [H|H]; [left; exact H | right; right; exact H].
Qed.

Lemma longest_max (best : list node) (cs : list (list node)) (c : list node) :
  In c (best :: cs) -> (length c <= length (longest best cs))%nat.
Proof.
  revert best c. induction cs as [|d cs IH]; intros best c Hc; simpl.
  - destruct Hc as [<-|[]]. apply Nat.le_refl.
  - destruct (length best <? length d)%nat eqn:Hlt.
    + apply Nat.ltb_lt in Hlt.
      destruct Hc as [<-|[<-|Hc]].
      * eapply Nat.le_trans; [apply Nat.lt_le_incl, Hlt | apply IH; now left].
      * apply IH. now left.
      * apply IH. now right.
    + apply Nat.ltb_ge in Hlt.
      destruct Hc as [<-|[<-|Hc]].
      * apply IH. now left.
      * eapply Nat.le_trans; [exact Hlt | apply IH; now left].
      * apply IH. now right.
Qed.

Lemma max_len_spec (cs : list (list node)) (c : list node) :
  max_len cs = Ok c ->
  In c cs /\ forall d, In d cs -> (length d <= length c)%nat.
Proof.
  destruct cs as [|c0 cs]; simpl; [discriminate|].
  intros H. injection H as <-. split.
  - apply longest_In.
  - intros d. apply longest_max.
Qed.

Lemma In_arcs_of (G : graph) (a b : node) :
  In (a, b) (nx.arcs_of G) <-> exists e, In e (g_arcs G) /\ src e = a /\ dst e = b.
Proof.
  unfold nx.arcs_of. rewrite in_map_iff. split.
  - intros [e [He Hin]]. exists e. unfold ends in He. inversion He. auto.
  - intros [e [Hin [<- <-]]]. exists e. auto.
Qed.

Lemma In_arcs_subgraph (G : graph) (c : list node) (a b : node) :
  In (a, b) (nx.arcs_of (subgraph G c)) <->
  In (a, b) (nx.arcs_of G) /\ In a c /\ In b c.
Proof.
  rewrite !In_arcs_of. unfold subgraph. simpl. split.
  - intros [e [He [<- <-]]]. apply filter_In in He. destruct He as [He Hc].
    apply andb_true_iff in Hc. rewrite !memZ_In in Hc.
    split; [exists e; auto | exact Hc].
  - intros [[e [He [<- <-]]] [Ha Hb]]. exists e. split; [|auto].
    apply filter_In. split; [assumption|].
    apply andb_true_iff. now rewrite !memZ_In.
Qed.

Lemma In_nodes_subgraph (G : graph) (c : list node) (a : node) :
  In a (g_nodes (subgraph G c)) <-> In a (g_nodes G) /\ In a c.
Proof. unfold subgraph. simpl. now rewrite filter_In, memZ_In. Qed.

(** A path between two nodes of a strongly connected component never
    leaves the component. *)
Lemma path_inside_scc (G : graph) (v a b : node) :
  path (nx.arcs_of G) a b ->
  In a (nx.scc_of (nx.arcs_of G) v) -> In b (nx.scc_of (nx.arcs_of G) v) ->
  path (nx.arcs_of (subgraph G (nx.scc_of (nx.arcs_of G) v))) a b.
Proof.
  intros Hp. induction Hp as [a|a x b Hax Hxb IH]; intros Ha Hb.
  - apply path_refl.
  - assert (Hx : In x (nx.scc_of (nx.arcs_of G) v)).
    { apply In_scc_of. apply In_scc_of in Ha. apply In_scc_of in Hb. split.
      - apply path_trans with a; [tauto | now apply path_step].
      - apply path_trans with b; [exact Hxb | tauto]. }
    apply path_trans with x; [|now apply IH].
    apply path_step. apply In_arcs_subgraph. auto.
Qed.

Lemma subgraph_scc_strongly_connected (G : graph) (v : node) :
  strongly_connected (subgraph G (nx.scc_of (nx.arcs_of G) v)).
Proof.
  intros a b Ha Hb. apply In_nodes_subgraph in Ha, Hb.
  destruct Ha as [_ Ha], Hb as [_ Hb].
  apply path_inside_scc; [|assumption|assumption].
  apply In_scc_of in Ha, Hb.
  apply path_trans with v; tauto.
Qed.

(** What [get_largest_scc] returns on a graph with a node: the induced
    subgraph on the component of one of its nodes, no shorter than any
    other component. *)
Lemma get_largest_scc_spec (G : graph) :
  g_nodes G <> [] ->
  exists v, In v (g_nodes G) /\
    get_largest_scc G = subgraph G (nx.scc_of (nx.arcs_of G) v) /\
    forall c, In c (nx.strongly_connected_components G) ->
              (length c <= length (nx.scc_of (nx.arcs_of G) v))%nat.
Proof.
  intros Hne. unfold get_largest_scc.
  assert (Hnull : is_null G = false).
  { unfold is_null. destruct (g_nodes G); congruence. }
  rewrite Hnull.
  destruct (max_len (nx.strongly_connected_components G)) as [c|e] eqn:Hmax.
  - apply max_len_spec in Hmax. destruct Hmax as [Hin Hmax].
    unfold nx.strongly_connected_components in Hin.
    apply components_from_In in Hin. destruct Hin as [v [Hv ->]].
    exists v. split; [exact Hv|]. split; [reflexivity | exact Hmax].
  - unfold nx.strongly_connected_components, max_len in Hmax.
    destruct (g_nodes G); [congruence|]. simpl in Hmax. discriminate.
Qed.

Lemma get_largest_scc_strongly_connected (G : graph) :
  strongly_connected (get_largest_scc G).
Proof.
  destruct (g_nodes G) as [|n ns] eqn:Hn.
  - unfold get_largest_scc, is_null. rewrite Hn. intros a b [].
  - destruct (get_largest_scc_spec G) as [v [_ [-> _]]]; [congruence|].
    apply subgraph_scc_strongly_connected.
Qed.

Lemma get_largest_scc_nonempty (G : graph) :
  g_nodes G <> [] -> g_nodes (get_largest_scc G) <> [].
Proof.
  intros Hne. destruct (get_largest_scc_spec G Hne) as [v [Hv [-> _]]].
  assert (H : In v (g_nodes (subgraph G (nx.scc_of (nx.arcs_of G) v)))).
  { apply In_nodes_subgraph. split; [assumption|].
    apply In_scc_of. split; apply path_refl. }
  intros Heq. rewrite Heq in H. contradiction.
Qed.

(** ** The store: what each stage touches *)

Lemma length_upd (r : ref) (g : graph) (h : store) : length (upd r g h) = length h.
Proof.
  revert r. induction h as [|x h IH]; intros [|r]; simpl; try reflexivity.
  now rewrite IH.
Qed.

Lemma nth_upd_same (r : ref) (g : graph) (h : store) :
  (r < length h)%nat -> nth r (upd r g h) empty_graph = g.
Proof.
  revert r. induction h as [|x h IH]; intros [|r] Hr; simpl in *; try lia.
  - reflexivity.
  - apply IH. lia.
Qed.

Lemma nth_upd_other (r k : ref) (g : graph) (h : store) :
  k <> r -> nth k (upd r g h) empty_graph = nth k h empty_graph.
Proof.
  revert r k. induction h as [|x h IH]; intros [|r] [|k] Hk; simpl;
    try reflexivity; try congruence.
  apply IH. congruence.
Qed.

Lemma nth_alloc_new (g : graph) (h : store) : nth (length h) (h ++ [g]) empty_graph = g.
Proof. rewrite app_nth2, Nat.sub_diag; [reflexivity | lia]. Qed.

Lemma nth_alloc_old (k : ref) (g : graph) (h : store) :
  (k < length h)%nat -> nth k (h ++ [g]) empty_graph = nth k h empty_graph.
Proof. intros H. now apply app_nth1. Qed.

Lemma frame_refl (G : ref) (h : store) : frame G h h.
Proof. split; [apply Nat.le_refl | reflexivity]. Qed.

Lemma frame_upd (G : ref) (g : graph) (h : store) : frame G h (upd G g h).
Proof.
  split; [rewrite length_upd; apply Nat.le_refl|].
  intros k _ Hk. now apply nth_upd_other.
Qed.

Lemma frame_alloc (G : ref) (g : graph) (h h' : store) :
  frame G h h' -> frame G h (h' ++ [g]).
Proof.
  intros [Hl Hf]. split; [rewrite length_app; simpl; lia|].
  intros k Hk HkG. rewrite nth_alloc_old; [now apply Hf | lia].
Qed.

Lemma bridge_filter_at_implements : implements bridge_filter_at bridge_filter.
Proof.
  intros h G HG. unfold bridge_filter_at, bridge_filter, bind, load, put, lift, alloc, ret.
  set (g := nth G h empty_graph).
  destruct (nonempty (nx.bridges g)); simpl.
  - rewrite nth_upd_same by assumption.
    destruct (max_len (nx.connected_components (remove_bridges g (nx.bridges g))))
      as [c|e]; simpl.
    + split; [apply frame_alloc, frame_upd|].
      rewrite length_app, length_upd. simpl. split; [lia|]. split; [right; lia|].
      rewrite <- (length_upd G (remove_bridges g (nx.bridges g)) h).
      now rewrite nth_alloc_new.
    + split; [apply frame_upd | reflexivity].
  - split; [apply frame_refl|]. split; [assumption|]. split; [now left | reflexivity].
Qed.

Lemma cut_node_filter_at_implements :
  implements cut_node_filter_at (fun g => Ok (cut_node_filter g)).
Proof.
  intros h G HG. unfold cut_node_filter_at, cut_node_filter, bind, load, put, alloc, ret.
  set (g := nth G h empty_graph).
  destruct (nonempty (detection_oneway_cut g)); simpl.
  - rewrite nth_upd_same by assumption.
    split; [apply frame_alloc, frame_upd|].
    rewrite length_app, length_upd. simpl. split; [lia|]. split; [right; lia|].
    rewrite <- (length_upd G (remove_nodes_from g (map fst (detection_oneway_cut g))) h).
    now rewrite nth_alloc_new.
  - split; [apply frame_refl|]. split; [assumption|]. split; [now left | reflexivity].
Qed.

Lemma orient_and_verify_at_implements (o : set_order) :
  implements (orient_and_verify_at o)
    (fun g => rbind (orientation_solver o g) (fun oriented_arcs =>
              final_verification (build_final g oriented_arcs))).
Proof.
  intros h G HG.
  unfold orient_and_verify_at, final_verification, bind, load, lift, alloc, ret.
  set (g := nth G h empty_graph).
  destruct (orientation_solver o g) as [arcs|e]; simpl.
  - rewrite nth_alloc_new.
    destruct (nx.is_strongly_connected (build_final g arcs)) as [[|]|e]; simpl.
    + split; [apply frame_alloc, frame_refl|].
      rewrite length_app. simpl. split; [lia|]. split; [right; lia|].
      now rewrite nth_alloc_new.
    + split; [apply frame_alloc, frame_alloc, frame_refl|].
      split; [rewrite !length_app; simpl; lia|].
      split; [right; rewrite length_app; simpl; lia|].
      now rewrite nth_alloc_new.
    + split; [apply frame_alloc, frame_refl | reflexivity].
  - split; [apply frame_refl | reflexivity].
Qed.

Lemma kept_trans (n : nat) (h1 h2 h3 : store) :
  kept n h1 h2 -> kept n h2 h3 -> kept n h1 h3.
Proof.
  intros [L1 K1] [L2 K2]. split; [assumption|].
  intros k Hk. rewrite K2, K1; auto.
Qed.

Lemma frame_kept (n : nat) (G : ref) (h h' : store) :
  (n <= G)%nat -> (n <= length h)%nat -> frame G h h' -> kept n h h'.
Proof.
  intros HnG Hn [Hl Hf]. split; [lia|].
  intros k Hk. apply Hf; lia.
Qed.

Lemma implements_step (f_at : ref -> M ref) (f : graph -> result graph)
  (n : nat) (h : store) (G : ref) :
  implements f_at f -> (n <= G)%nat -> (G < length h)%nat ->
  kept n h (fst (f_at G h)) /\
  match snd (f_at G h) with
  | Ok G' => (n <= G')%nat /\ (G' < length (fst (f_at G h)))%nat /\
             f (nth G h empty_graph) = Ok (nth G' (fst (f_at G h)) empty_graph)
  | Raise e => f (nth G h empty_graph) = Raise e
  end.
Proof.
  intros Himp HnG HG. destruct (Himp h G HG) as [Hfr Hres].
  split; [apply frame_kept with G; [assumption | lia | assumption]|].
  destruct (snd (f_at G h)) as [G'|e]; [|assumption].
  destruct Hres as [Hlt [Hor Heq]]. repeat split; try assumption.
  destruct Hor; lia.
Qed.

Lemma flag_flexible_at_eq (G : ref) (h : store) :
  flag_flexible_at G h =
  (upd G (fst (flag_flexible (nth G h empty_graph))) h,
   snd (flag_flexible (nth G h empty_graph))).
Proof. reflexivity. Qed.

Lemma create_custom_orientation_eq (o : set_order) (G_raw : ref) (h : store) :
  create_custom_orientation o G_raw h =
  match snd (flag_flexible (nth G_raw h empty_graph)) with
  | Ok _ =>
      (G <- bridge_filter_at (length h) ;;
       G <- cut_node_filter_at G ;;
       orient_and_verify_at o G)
        (upd (length h) (fst (flag_flexible (nth G_raw h empty_graph)))
             (h ++ [nth G_raw h empty_graph]))
  | Raise e =>
      (upd (length h) (fst (flag_flexible (nth G_raw h empty_graph)))
           (h ++ [nth G_raw h empty_graph]), Raise e)
  end.
Proof.
  unfold create_custom_orientation.
  unfold bind at 1. unfold load at 1. unfold bind at 1. unfold alloc at 1.
  unfold bind at 1. rewrite flag_flexible_at_eq, nth_alloc_new.
  destruct (snd (flag_flexible (nth G_raw h empty_graph))); reflexivity.
Qed.

(** The pipeline on objects computes [pipeline] on the caller's graph,
    into an object of its own, and leaves every object the caller had as
    it was. *)
Lemma create_custom_orientation_spec (o : set_order) (h : store) (G_raw : ref) :
  (G_raw < length h)%nat ->
  kept (length h) h (fst (create_custom_orientation o G_raw h)) /\
  match snd (create_custom_orientation o G_raw h) with
  | Ok p => (length h <= p)%nat /\
            (p < length (fst (create_custom_orientation o G_raw h)))%nat /\
            pipeline o (nth G_raw h empty_graph) =
            Ok (nth p (fst (create_custom_orientation o G_raw h)) empty_graph)
  | Raise e => pipeline o (nth G_raw h empty_graph) = Raise e
  end.
Proof.
  intros Hr. rewrite create_custom_orientation_eq. unfold pipeline, filtered.
  set (g := nth G_raw h empty_graph).
  destruct (flag_flexible g) as [g1 r1]. cbn [fst snd].
  set (h1 := upd (length h) g1 (h ++ [g])).
  assert (K1 : kept (length h) h h1).
  { split.
    - unfold h1. rewrite length_upd, length_app. simpl. lia.
    - intros k Hk. unfold h1. rewrite nth_upd_other by lia. now apply nth_alloc_old. }
  assert (L1 : (length h < length h1)%nat).
  { unfold h1. rewrite length_upd, length_app. simpl. lia. }
  assert (N1 : nth (length h) h1 empty_graph = g1).
  { unfold h1. apply nth_upd_same. rewrite length_app. simpl. lia. }
  destruct r1 as [[]|e]; [|split; [exact K1 | reflexivity]].
  unfold bind.
  destruct (implements_step _ _ (length h) h1 (length h)
              bridge_filter_at_implements (Nat.le_refl _) L1) as [K2 R2].
  rewrite N1 in R2.
  destruct (bridge_filter_at (length h) h1) as [h2 [G2|e]]; cbn [fst snd] in K2, R2 |- *.
  2:{ rewrite R2. split; [eapply kept_trans; eassumption | reflexivity]. }
  destruct R2 as [HG2 [LG2 E2]]. rewrite E2. cbn [rbind].
  destruct (implements_step _ _ (length h) h2 G2
              cut_node_filter_at_implements HG2 LG2) as [K3 R3].
  destruct (cut_node_filter_at G2 h2) as [h3 [G3|e]]; cbn [fst snd] in K3, R3 |- *;
    [|discriminate].
  destruct R3 as [HG3 [LG3 E3]]. injection E3 as E3. rewrite E3.
  destruct (implements_step _ _ (length h) h3 G3
              (orient_and_verify_at_implements o) HG3 LG3) as [K4 R4].
  split.
  { eapply kept_trans; [exact K1|]. eapply kept_trans; [exact K2|].
    eapply kept_trans; [exact K3 | exact K4]. }
  destruct (snd (orient_and_verify_at o G3 h3)) as [p|e]; [|exact R4].
  destruct R4 as [Hp [Hlt E4]]. repeat split; assumption.
Qed.

Lemma run_pipeline (o : set_order) (g_raw : graph) :
  run o g_raw = pipeline o g_raw.
Proof.
  unfold run.
  destruct (create_custom_orientation_spec o [g_raw] 0%nat) as [_ H]; [simpl; lia|].
  simpl nth in H.
  destruct (create_custom_orientation o 0%nat [g_raw]) as [h [p|e]]; simpl in H.
  - destruct H as [_ [_ H]]. now rewrite H.
  - now rewrite H.
Qed.

(** ** The pipeline tail *)

Lemma final_verification_spec (final_graph result : graph) :
  final_verification final_graph = Ok result ->
  g_nodes result <> [] /\ strongly_connected result /\
  ((nx.is_strongly_connected final_graph = Ok true /\ result = final_graph) \/
   (nx.is_strongly_connected final_graph = Ok false /\
    result = get_largest_scc final_graph)).
Proof.
  unfold final_verification.
  destruct (nx.is_strongly_connected final_graph) as [ok|e] eqn:Hsc; [|discriminate].
  destruct (is_strongly_connected_spec _ _ Hsc) as [Hne Hok].
  destruct ok; simpl; intros H; injection H as <-.
  - split; [assumption|]. split; [now apply Hok | left; auto].
  - split; [now apply get_largest_scc_nonempty|].
    split; [apply get_largest_scc_strongly_connected | right; auto].
Qed.

(** ** The feasibility test *)

Lemma In_add_node (ns : list node) (n x : node) :
  In x (add_node ns n) <-> In x ns \/ x = n.
Proof.
  unfold add_node. destruct (memZ n ns) eqn:Hn.
  - apply memZ_In in Hn. split; [tauto | intros [H| ->]; assumption].
  - rewrite in_app_iff. simpl. split; [intros [H|[H|[]]]; auto | intros [H|H]; auto].
Qed.

Lemma In_add_nodes_from (new ns : list node) (x : node) :
  In x (add_nodes_from ns new) <-> In x ns \/ In x new.
Proof.
  unfold add_nodes_from. revert ns. induction new as [|n new IH]; intros ns; simpl.
  - tauto.
  - rewrite IH, In_add_node. split; [intros [[H|H]|H]; auto | intros [H|[H|H]]; auto].
Qed.

Lemma path_incl (E E' : list pair) (a b : node) :
  (forall p, In p E -> In p E') -> path E a b -> path E' a b.
Proof.
  intros Hincl Hp. induction Hp as [a|a x b Hax _ IH].
  - apply path_refl.
  - apply path_trans with x; [|exact IH]. apply path_step. now apply Hincl.
Qed.

Lemma all_reach_ext (V V' : list node) (E E' : list pair) :
  (forall x, In x V <-> In x V') -> (forall p, In p E <-> In p E') ->
  nx.all_reach V E = nx.all_reach V' E'.
Proof.
  intros HV HE. apply eq_true_iff_eq. rewrite !all_reach_spec. split.
  - intros H a b Ha Hb. apply path_incl with E; [intros p; apply HE|].
    apply H; now apply HV.
  - intros H a b Ha Hb. apply path_incl with E'; [intros p; apply HE|].
    apply H; now apply HV.
Qed.

Lemma is_strongly_connected_on_ext (T T' : digraph) :
  same_graph T T' ->
  nx.is_strongly_connected_on (fst T) (snd T) =
  nx.is_strongly_connected_on (fst T') (snd T').
Proof.
  intros [HV HE]. unfold nx.is_strongly_connected_on.
  destruct (fst T) as [|x V] eqn:HT, (fst T') as [|x' V'] eqn:HT'.
  - reflexivity.
  - exfalso. apply (proj2 (HV x')). now left.
  - exfalso. apply (proj1 (HV x)). now left.
  - f_equal. now apply all_reach_ext.
Qed.

Lemma same_graph_refl (T : digraph) : same_graph T T.
Proof. split; reflexivity. Qed.

Lemma same_graph_add_edge (T T' : digraph) (p : pair) :
  same_graph T T' -> same_graph (di_add_edge T p) (di_add_edge T' p).
Proof.
  intros [HV HE]. unfold di_add_edge. split; simpl.
  - intros x. rewrite !In_add_node, HV. tauto.
  - intros q. rewrite !in_app_iff, HE. tauto.
Qed.

Lemma same_graph_add_swapped (T : digraph) (p q : pair) :
  same_graph (di_add_edge (di_add_edge T p) q) (di_add_edge (di_add_edge T q) p).
Proof.
  unfold di_add_edge. split; simpl.
  - intros x. rewrite !In_add_node. tauto.
  - intros r. rewrite !in_app_iff. simpl. tauto.
Qed.

Lemma add_both_ways_same (und : list (list node)) (T T' : digraph) :
  same_graph T T' ->
  match add_both_ways T und, add_both_ways T' und with
  | Ok U, Ok U' => same_graph U U'
  | Raise e, Raise e' => e = e'
  | _, _ => False
  end.
Proof.
  revert T T'. induction und as [|t und IH]; intros T T' Hs; simpl; [assumption|].
  destruct t as [|u [|v [|w t]]]; try reflexivity.
  apply IH. now apply same_graph_add_edge, same_graph_add_edge.
Qed.

Lemma add_both_ways_app (und1 und2 : list (list node)) (T : digraph) :
  add_both_ways T (und1 ++ und2) =
  rbind (add_both_ways T und1) (fun U => add_both_ways U und2).
Proof.
  revert T. induction und1 as [|t und1 IH]; intros T; simpl; [reflexivity|].
  destruct t as [|u [|v [|w t]]]; try reflexivity. apply IH.
Qed.

Ltac pick_end :=
  simpl;
  solve [ tauto
        | eauto 8
        | right; eexists; left; left; reflexivity
        | right; eexists; right; left; reflexivity
        | right; eexists; left; right; left; reflexivity
        | right; eexists; right; right; left; reflexivity ].

Lemma fold_di_add_edge (ps : list pair) (T : digraph) :
  snd (fold_left di_add_edge ps T) = snd T ++ ps /\
  forall x, In x (fst (fold_left di_add_edge ps T)) <->
            In x (fst T) \/ exists y, In (x, y) ps \/ In (y, x) ps.
Proof.
  revert T. induction ps as [|[a b] ps IH]; intros T; simpl.
  - split; [now rewrite app_nil_r|]. intros x. split; [tauto|].
    intros [H|[y [[]|[]]]]. assumption.
  - destruct (IH (di_add_edge T (a, b))) as [IH1 IH2]. split.
    + rewrite IH1. unfold di_add_edge. simpl. now rewrite <- app_assoc.
    + intros x. rewrite IH2. unfold di_add_edge. simpl. rewrite !In_add_node. split.
      * intros [[[H|H]|H]|[y [H|H]]]; subst; pick_end.
      * intros [H|[y [[H|H]|[H|H]]]]; try (inversion H; subst); pick_end.
Qed.

Lemma add_both_ways_couples (und : list (list node)) (T : digraph) :
  Forall is_couple und ->
  exists U, add_both_ways T und = Ok U /\
    snd U = snd T ++ both_ways und /\
    forall x, In x (fst U) <->
              In x (fst T) \/ exists y, In (x, y) (both_ways und) \/ In (y, x) (both_ways und).
Proof.
  intros Hc. revert T. induction Hc as [|t und [u [v ->]] _ IH]; intros T; simpl.
  - exists T. split; [reflexivity|]. split; [now rewrite app_nil_r|].
    intros x. split; [tauto|]. intros [H|[y [[]|[]]]]. assumption.
  - destruct (IH (di_add_edge (di_add_edge T (u, v)) (v, u))) as [U [HU [HE HV]]].
    exists U. split; [exact HU|]. split.
    + rewrite HE. unfold di_add_edge. simpl. now rewrite <- !app_assoc.
    + intros x. rewrite HV. unfold di_add_edge. simpl. rewrite !In_add_node. split.
      * intros [[[[[H|H]|H]|H]|H]|[y [H|H]]]; subst; pick_end.
      * intros [H|[y [[H|[H|H]]|[H|[H|H]]]]]; try (inversion H; subst); pick_end.
Qed.

(** With well-formed tuples and at least one node or arc, the test
    answers, and says yes exactly when the graph it describes is strongly
    connected. *)
Lemma _is_still_strongly_connected_spec
  (nodes : list node) (oriented_arcs : list pair) (undecided : list (list node)) :
  Forall is_couple undecided ->
  (exists x, trial_node nodes (oriented_arcs ++ both_ways undecided) x) ->
  exists ok, _is_still_strongly_connected nodes oriented_arcs undecided = Ok ok /\
    (ok = true <-> feasible nodes (oriented_arcs ++ both_ways undecided)).
Proof.
  intros Hc [x0 Hx0]. unfold _is_still_strongly_connected.
  destruct (fold_di_add_edge oriented_arcs (add_nodes_from [] nodes, [])) as [HE0 HV0].
  destruct (add_both_ways_couples undecided
              (fold_left di_add_edge oriented_arcs (add_nodes_from [] nodes, [])) Hc)
    as [U [HU [HE HV]]].
  rewrite HU. simpl rbind. rewrite HE0 in HE. simpl in HE.
  assert (HVU : forall x, In x (fst U) <->
                          trial_node nodes (oriented_arcs ++ both_ways undecided) x).
  { intros x. rewrite HV, HV0. simpl fst. rewrite In_add_nodes_from.
    unfold trial_node. split.
    - intros [[[[]|H]|[y H]]|[y H]]; [now left| |]; right; exists y;
        rewrite !in_app_iff; tauto.
    - intros [H|[y H]]; [tauto|]. rewrite !in_app_iff in H.
      destruct H as [[H|H]|[H|H]]; eauto 7. }
  unfold nx.is_strongly_connected_on.
  destruct (fst U) as [|n V] eqn:HfU.
  - exfalso. apply (proj2 (HVU x0)) in Hx0. contradiction.
  - exists (nx.all_reach (n :: V) (snd U)). split; [reflexivity|].
    rewrite all_reach_spec, HE. unfold feasible. split.
    + intros H a b Ha Hb. apply H; now apply HVU.
    + intros H a b Ha Hb. apply H; now apply HVU.
Qed.

(** ** The solver loop *)

Lemma add_both_ways_ok_couples (und : list (list node)) (T U : digraph) :
  add_both_ways T und = Ok U -> Forall is_couple und.
Proof.
  revert T. induction und as [|t und IH]; intros T H; [constructor|].
  simpl in H. destruct t as [|u [|v [|w t]]]; try discriminate.
  constructor; [exists u, v; reflexivity | eapply IH; eassumption].
Qed.

Lemma _is_still_strongly_connected_ok_couples
  (nodes : list node) (oriented_arcs : list pair) (und : list (list node)) (ok : bool) :
  _is_still_strongly_connected nodes oriented_arcs und = Ok ok -> Forall is_couple und.
Proof.
  unfold _is_still_strongly_connected.
  destruct (add_both_ways _ und) as [U|e] eqn:H; [|discriminate].
  intros _. eapply add_both_ways_ok_couples; eassumption.
Qed.

(** What a run of the loop that ends normally has done: one arc appended
    per undecided edge, each the outcome of the test on what was
    committed before it. *)
Lemma orient_spec (nodes : list node) (und : list (list node)) :
  forall oriented committed,
  orient nodes oriented und = Ok committed ->
  exists decisions,
    committed = oriented ++ decisions /\
    length decisions = length und /\
    forall i t, nth_error und i = Some t ->
      exists u v ok,
        index t 0 = Ok u /\ index t 1 = Ok v /\
        _is_still_strongly_connected nodes (oriented ++ firstn i decisions ++ [(u, v)])
                                     (skipn (S i) und) = Ok ok /\
        nth_error decisions i = Some (if ok then (u, v) else (v, u)).
Proof.
  induction und as [|t und IH]; intros oriented committed H; simpl in H.
  - injection H as <-. exists []. split; [now rewrite app_nil_r|].
    split; [reflexivity|]. intros [|i] t H; discriminate.
  - destruct (index t 0) as [u|e] eqn:Hu; [|discriminate].
    destruct (index t 1) as [v|e] eqn:Hv; [|discriminate]. simpl in H.
    destruct (_is_still_strongly_connected nodes (oriented ++ [(u, v)]) und)
      as [ok|e] eqn:Hok; [|discriminate]. simpl in H.
    destruct (IH _ _ H) as [ds [Hc [Hl Hds]]].
    exists ((if ok then (u, v) else (v, u)) :: ds). split.
    { rewrite Hc, <- app_assoc. reflexivity. }
    split; [simpl; now rewrite Hl|].
    intros [|i] t' Ht'; simpl in Ht'.
    + injection Ht' as <-. exists u, v, ok. auto.
    + destruct (Hds i t' Ht') as [u' [v' [ok' [H0 [H1 [Ht Hn]]]]]].
      exists u', v', ok'. repeat split; try assumption.
      simpl firstn. rewrite <- app_assoc in Ht. exact Ht.
Qed.

(** The loop ends normally when every tuple has two elements. *)
Lemma orient_total (nodes : list node) (und : list (list node)) :
  Forall is_couple und ->
  forall oriented, exists committed, orient nodes oriented und = Ok committed.
Proof.
  induction 1 as [|t und [u [v ->]] Hc IH]; intros oriented; simpl.
  - eauto.
  - destruct (_is_still_strongly_connected_spec nodes (oriented ++ [(u, v)]) und Hc)
      as [ok [Hok _]].
    { exists u. right. exists v. left. rewrite !in_app_iff. simpl. tauto. }
    rewrite Hok. simpl. apply IH.
Qed.

(** C10: the feasibility test gives the same answer (or raises the same
    exception) when an undecided pair [(u, v)] is handed over as
    [(v, u)]: the order in which a frozenset yields its two ends does not
    matter to the test. *)
Theorem feasibility_test_ignores_pair_order
  (nodes : list node) (oriented_arcs : list pair)
  (before after : list (list node)) (u v : node) :
  _is_still_strongly_connected nodes oriented_arcs (before ++ [u; v] :: after) =
  _is_still_strongly_connected nodes oriented_arcs (before ++ [v; u] :: after).
Proof.
  unfold _is_still_strongly_connected.
  rewrite !add_both_ways_app.
  destruct (add_both_ways _ before) as [U|e]; [|reflexivity].
  cbn [rbind add_both_ways].
  pose proof (add_both_ways_same after _ _ (same_graph_add_swapped U (u, v) (v, u))) as H.
  destruct (add_both_ways (di_add_edge (di_add_edge U (u, v)) (v, u)) after) as [W|e],
           (add_both_ways (di_add_edge (di_add_edge U (v, u)) (u, v)) after) as [W'|e'];
    try contradiction.
  - cbn [rbind]. now apply is_strongly_connected_on_ext.
  - cbn [rbind]. now subst.
Qed.

(** ** What the solver commits *)

Lemma In_set_iter (o : set_order) (l : list pair) (p : pair) :
  In p (set_iter o l) <-> In p l.
Proof.
  rewrite <- (nodup_In pair_eq_dec l p). split.
  - apply Permutation_in, set_iter_perm.
  - apply Permutation_in, Permutation_sym, set_iter_perm.
Qed.

Lemma NoDup_set_iter (o : set_order) (l : list pair) : NoDup (set_iter o l).
Proof.
  apply Permutation_NoDup with (nodup pair_eq_dec l).
  - apply Permutation_sym, set_iter_perm.
  - apply NoDup_nodup.
Qed.

Lemma frozenset2_ordered (p : pair) : fst (frozenset2 p) <= snd (frozenset2 p).
Proof. unfold frozenset2. simpl. lia. Qed.

Lemma frozenset2_eq (p q : pair) :
  frozenset2 p = frozenset2 q -> p = q \/ p = swap q.
Proof.
  destruct p as [a b], q as [c d]. unfold frozenset2, swap. simpl.
  intros H. injection H as Hmin Hmax.
  assert ((a = c /\ b = d) \/ (a = d /\ b = c)) as [[-> ->]|[-> ->]] by lia; auto.
Qed.

Lemma frozenset2_swap (p : pair) : frozenset2 (swap p) = frozenset2 p.
Proof.
  destruct p as [a b]. unfold frozenset2, swap. simpl.
  now rewrite Z.min_comm, Z.max_comm.
Qed.

Lemma frozenset2_fixed (fs : pair) : fst fs <= snd fs -> frozenset2 fs = fs.
Proof.
  destruct fs as [a b]. unfold frozenset2. simpl. intros H.
  now rewrite Z.min_l, Z.max_r by assumption.
Qed.

(** A normal end of the loop over the tuples of a list of frozensets: one
    arc per frozenset, joining its two members, which are distinct. *)
Lemma orient_frozensets (o : set_order) (nodes : list node) (fss : list pair) :
  Forall (fun fs => fst fs <= snd fs) fss ->
  forall oriented committed,
  orient nodes oriented (map (tuple_of o) fss) = Ok committed ->
  exists decisions,
    committed = oriented ++ decisions /\
    map frozenset2 decisions = fss /\
    Forall (fun d => fst d <> snd d) decisions.
Proof.
  induction 1 as [|fs fss Hfs _ IH]; intros oriented committed H; simpl in H.
  - injection H as <-. exists []. rewrite app_nil_r. auto.
  - assert (Hd : tuple_of o fs = [fst fs] \/
                 exists u v, tuple_of o fs = [u; v] /\ u <> v /\
                             ((u, v) = fs \/ (v, u) = fs)).
    { unfold tuple_of. destruct (fst fs =? snd fs) eqn:Heq; [now left | right].
      apply Z.eqb_neq in Heq. destruct fs as [a b]. simpl in *.
      destruct (tuple_flip o (a, b)); [exists b, a | exists a, b]; auto. }
    destruct Hd as [Ht|[u [v [Ht [Huv Hor]]]]]; rewrite Ht in H; simpl in H;
      [discriminate H|].
    destruct (_is_still_strongly_connected nodes (oriented ++ [(u, v)])
                (map (tuple_of o) fss)) as [ok|e]; [|discriminate]. simpl in H.
    destruct (IH _ _ H) as [ds [Hc [Hm Hne]]].
    exists ((if ok then (u, v) else (v, u)) :: ds). split.
    { rewrite Hc, <- app_assoc. reflexivity. }
    split.
    + simpl. rewrite Hm. f_equal.
      assert (Hfz : frozenset2 (u, v) = fs).
      { destruct Hor as [<-|<-].
        - now apply frozenset2_fixed.
        - change (frozenset2 (swap (v, u)) = (v, u)).
          rewrite frozenset2_swap. now apply frozenset2_fixed. }
      destruct ok; [exact Hfz|].
      change (v, u) with (swap (u, v)). now rewrite frozenset2_swap.
    + constructor; [|exact Hne]. destruct ok; simpl; congruence.
Qed.

Lemma edges_to_decide_ordered (o : set_order) (G : graph) :
  Forall (fun fs => fst fs <= snd fs) (set_iter o (edges_to_decide G)).
Proof.
  apply Forall_forall. intros fs Hfs. apply In_set_iter in Hfs.
  unfold edges_to_decide in Hfs. apply in_map_iff in Hfs.
  destruct Hfs as [a [<- _]]. apply frozenset2_ordered.
Qed.

(** The committed list is the fixed arcs, as listed, followed by one arc
    per flexible connection. *)
Lemma orientation_solver_spec (o : set_order) (G : graph) (committed : list pair) :
  orientation_solver o G = Ok committed ->
  exists decisions,
    committed = fixed_arcs o G ++ decisions /\
    map frozenset2 decisions = set_iter o (edges_to_decide G) /\
    Forall (fun d => fst d <> snd d) decisions.
Proof.
  unfold orientation_solver, undecided_edges. apply orient_frozensets.
  apply edges_to_decide_ordered.
Qed.

(** Every arc that carries no [flexible] flag is committed as it stands,
    and the fixed arcs stay at the head of the list in the order the loop
    found them. *)
Lemma unflagged_arc_committed (o : set_order) (G : graph) (committed : list pair) (a : arc) :
  orientation_solver o G = Ok committed ->
  In a (g_arcs G) -> flexible a = false ->
  In (ends a) committed /\
  firstn (length (fixed_arcs o G)) committed = fixed_arcs o G.
Proof.
  intros Hrun Ha Hf. destruct (orientation_solver_spec _ _ _ Hrun) as [ds [-> _]].
  split.
  - apply in_or_app. left. unfold fixed_arcs. apply In_set_iter.
    apply in_map. apply filter_In. split; [assumption | now rewrite Hf].
  - rewrite firstn_app, Nat.sub_diag, firstn_all. simpl. now rewrite app_nil_r.
Qed.

Lemma map_injective_on {A B} (f : A -> B) (l : list A) (x y : A) :
  NoDup (map f l) -> In x l -> In y l -> f x = f y -> x = y.
Proof.
  induction l as [|z l IH]; intros Hnd Hx Hy Hxy; [contradiction|].
  simpl in Hnd. inversion Hnd as [|? ? Hz Hnd']; subst.
  destruct Hx as [->|Hx], Hy as [->|Hy].
  - reflexivity.
  - exfalso. apply Hz. rewrite Hxy. now apply in_map.
  - exfalso. apply Hz. rewrite <- Hxy. now apply in_map.
  - now apply IH.
Qed.

Lemma flexible_arc_decided (o : set_order) (G : graph) (decisions : list pair) (a : arc) :
  map frozenset2 decisions = set_iter o (edges_to_decide G) ->
  In a (g_arcs G) -> flexible a = true ->
  In (ends a) decisions \/ In (swap (ends a)) decisions.
Proof.
  intros Hm Ha Hf.
  assert (Hin : In (frozenset2 (ends a)) (map frozenset2 decisions)).
  { rewrite Hm. apply In_set_iter. unfold edges_to_decide.
    apply in_map_iff. exists a. split; [reflexivity|].
    apply filter_In. auto. }
  apply in_map_iff in Hin. destruct Hin as [d [Hd Hin]].
  apply frozenset2_eq in Hd. destruct Hd as [->| ->]; auto.
Qed.

(** The solver ends normally when no flexible arc is a self-loop. *)
Lemma orientation_solver_total (o : set_order) (G : graph) :
  (forall a, In a (g_arcs G) -> flexible a = true -> src a <> dst a) ->
  exists committed, orientation_solver o G = Ok committed.
Proof.
  intros Hloop. unfold orientation_solver. apply orient_total.
  unfold undecided_edges. apply Forall_forall. intros t Ht.
  apply in_map_iff in Ht. destruct Ht as [fs [<- Hfs]].
  apply In_set_iter in Hfs. unfold edges_to_decide in Hfs.
  apply in_map_iff in Hfs. destruct Hfs as [a [<- Ha]].
  apply filter_In in Ha. destruct Ha as [Ha Hf].
  specialize (Hloop a Ha Hf). unfold tuple_of, frozenset2, ends. simpl.
  destruct (Z.min (src a) (dst a) =? Z.max (src a) (dst a)) eqn:Heq.
  - apply Z.eqb_eq in Heq. lia.
  - destruct (tuple_flip o _); eexists; eexists; reflexivity.
Qed.

(** C7, as the code has it: when no flexible arc is a self-loop the
    solver ends normally; and when it does, for every flexible arc whose
    two ends are joined by no arc without the [flexible] flag, the
    committed list holds exactly one of the two directions. *)
Theorem flexible_edge_one_direction (o : set_order) (G : graph) :
  ((forall a, In a (g_arcs G) -> flexible a = true -> src a <> dst a) ->
   exists committed, orientation_solver o G = Ok committed) /\
  forall committed a,
    orientation_solver o G = Ok committed ->
    In a (g_arcs G) -> flexible a = true ->
    no_fixed_between G a ->
    one_direction committed a.
Proof.
  split.
  - apply orientation_solver_total.
  - intros committed a Hrun Ha Hf Hnf.
    destruct (orientation_solver_spec _ _ _ Hrun) as [ds [-> [Hm Hne]]].
    assert (Hfix : forall p, p = ends a \/ p = swap (ends a) -> ~ In p (fixed_arcs o G)).
    { intros p Hp Hin. unfold fixed_arcs in Hin. apply In_set_iter in Hin.
      apply in_map_iff in Hin. destruct Hin as [b [Hb Hin]].
      apply filter_In in Hin. destruct Hin as [Hin Hfb].
      apply negb_true_iff in Hfb. destruct (Hnf b Hin Hfb) as [H1 H2].
      destruct Hp; congruence. }
    assert (Hboth : ~ (In (ends a) ds /\ In (swap (ends a)) ds)).
    { intros [H1 H2].
      assert (Heq : ends a = swap (ends a)).
      { apply (map_injective_on frozenset2 ds); try assumption.
        - rewrite Hm. apply NoDup_set_iter.
        - symmetry. apply frozenset2_swap. }
      rewrite Forall_forall in Hne. apply (Hne _ H1).
      unfold swap in Heq. destruct (ends a) as [x y]. simpl in *. congruence. }
    unfold one_direction.
    destruct (flexible_arc_decided o G ds a Hm Ha Hf) as [H|H]; [left | right];
      (split; [apply in_or_app; now right|]);
      intros Hin; apply in_app_or in Hin; destruct Hin as [Hin|Hin];
      try (now apply (Hfix _ (or_introl eq_refl)) in Hin);
      try (now apply (Hfix _ (or_intror eq_refl)) in Hin);
      apply Hboth; auto.
Qed.

Lemma flexible_edge_one_direction_witness :
  (exists committed,
     orientation_solver (insertion_order false) square_flagged = Ok committed) /\
  one_direction [(1, 2); (2, 3); (3, 4); (4, 1)] (Arc 2 1 0 false true).
Proof.
  split.
  - apply (proj1 (flexible_edge_one_direction (insertion_order false) square_flagged)).
    intros a Ha _. vm_compute in Ha.
    repeat (destruct Ha as [<-|Ha]; [vm_compute; discriminate|]). contradiction.
  - apply (proj2 (flexible_edge_one_direction (insertion_order false) square_flagged)).
    + vm_compute. reflexivity.
    + vm_compute. tauto.
    + reflexivity.
    + intros b Hb Hf. vm_compute in Hb.
      repeat (destruct Hb as [<-|Hb]; [discriminate Hf|]). contradiction.
Defined.

(** C7 as stated fails: the flexible edge between 1 and 2 survives the
    filters and the solver commits 1 -> 2 for it, next to the fixed arc
    2 -> 1; both directions are in the committed list. *)
Lemma flexible_edge_both_directions :
  filtered triangle_with_return = Ok triangle_with_return_flagged /\
  orientation_solver (insertion_order false) triangle_with_return_flagged
    = Ok [(2, 1); (1, 3); (3, 2); (1, 2)] /\
  In (mark (plain 1 2)) (g_arcs triangle_with_return_flagged) /\
  flexible (mark (plain 1 2)) = true /\
  ~ one_direction [(2, 1); (1, 3); (3, 2); (1, 2)] (mark (plain 1 2)).
Proof.
  split; [vm_compute; reflexivity|].
  split; [vm_compute; reflexivity|].
  split; [simpl; tauto|].
  split; [reflexivity|].
  unfold one_direction. simpl. intros [[_ H]|[_ H]]; apply H; tauto.
Qed.

(** C6 on [linked_triangles]: the loop of lines 48-50 meets the arc with
    key 1 and puts the flag on the arc with key 0, the one-way street;
    the bridge step removes the arc with key 1 only; the one-way arc
    1 -> 2 reaches the solver flagged flexible, is tested, and is
    committed reversed: 2 -> 1 is in the committed list and 1 -> 2 is
    not. *)
Theorem one_way_arc_reversed_on_parallel_arcs :
  filtered linked_triangles = Ok linked_triangles_filtered /\
  In (Arc 1 2 0 true true) (g_arcs linked_triangles_filtered) /\
  orientation_solver (insertion_order false) linked_triangles_filtered
    = Ok [(1, 3); (3, 4); (4, 1); (2, 5); (5, 6); (6, 2); (2, 1)] /\
  ~ In (1, 2) [(1, 3); (3, 4); (4, 1); (2, 5); (5, 6); (6, 2); (2, 1)].
Proof.
  split; [vm_compute; reflexivity|].
  split; [simpl; tauto|].
  split; [vm_compute; reflexivity|].
  simpl. intros H. repeat (destruct H as [H|H]; [discriminate H|]). contradiction.
Qed.

(** ** The graph with no node *)

Lemma set_iter_nil (o : set_order) : set_iter o [] = [].
Proof. apply Permutation_nil. apply Permutation_sym. apply (set_iter_perm o []). Qed.

(** C3 on the graph with no node: the flagging loop, both filters and the
    solver return empty values, then line 106 asks
    [nx.is_strongly_connected] about a graph with no node and networkx
    raises [NetworkXPointlessConcept]; the pipeline ends with that
    exception, whatever the iteration order of sets. *)
Theorem empty_graph_raises (o : set_order) :
  flag_flexible empty_graph = (empty_graph, Ok tt) /\
  bridge_filter empty_graph = Ok empty_graph /\
  cut_node_filter empty_graph = empty_graph /\
  orientation_solver o empty_graph = Ok [] /\
  build_final empty_graph [] = empty_graph /\
  final_verification empty_graph = Raise NetworkXPointlessConcept /\
  run o empty_graph = Raise NetworkXPointlessConcept.
Proof.
  assert (Hsolve : orientation_solver o empty_graph = Ok []).
  { unfold orientation_solver, fixed_arcs, undecided_edges, edges_to_decide. simpl.
    rewrite set_iter_nil. reflexivity. }
  repeat split; try reflexivity; try exact Hsolve.
  rewrite run_pipeline. unfold pipeline.
  change (filtered empty_graph) with (Ok empty_graph). cbn [rbind].
  rewrite Hsolve. reflexivity.
Qed.

(** ** STEP 1: bridges *)

Lemma add_new_NoDup (acc : list node) (x : node) : NoDup acc -> NoDup (add_new acc x).
Proof.
  intros H. unfold add_new. destruct (memZ x acc) eqn:Hx; [assumption|].
  apply memZ_false in Hx. apply NoDup_app; [assumption | constructor; [intros [] | constructor] |].
  intros y Hy [<-|[]]. contradiction.
Qed.









Lemma remove_bridges_nodes (bs : list (Z * Z)) (G : graph) :
  g_nodes (remove_bridges G bs) = g_nodes G.
Proof.
  unfold remove_bridges. revert G. induction bs as [|p bs IH]; intros G; simpl; [reflexivity|].
  rewrite IH. unfold remove_bridge.
  destruct (has_edge G (fst p) (snd p)); simpl;
    match goal with |- context [if ?b then _ else _] => destruct b end; reflexivity.
Qed.


Lemma nonempty_false {A} (l : list A) : nonempty l = false <-> l = [].
Proof. destruct l; simpl; split; congruence. Qed.




(** ** STEP 2: one-way cut nodes *)

Lemma nonempty_filter {A} (p : A -> bool) (l : list A) :
  nonempty (filter p l) = true <-> exists a, In a l /\ p a = true.
Proof.
  split.
  - destruct (filter p l) as [|a l'] eqn:Hf; [discriminate|]. intros _.
    assert (Ha : In a (filter p l)) by (rewrite Hf; now left).
    apply filter_In in Ha. eauto.
  - intros [a [Ha Hp]].
    assert (Hin : In a (filter p l)) by (apply filter_In; auto).
    destruct (filter p l); [contradiction | reflexivity].
Qed.

Lemma inbound_fixed_spec (G : graph) (n : node) :
  nonempty (filter oneway (in_edges G n)) = true <-> inbound_fixed G n.
Proof.
  rewrite nonempty_filter. unfold inbound_fixed, in_edges. split.
  - intros [a [Ha Ho]]. apply filter_In in Ha. destruct Ha as [Ha Hd].
    apply Z.eqb_eq in Hd. eauto.
  - intros [a [Ha [Hd Ho]]]. exists a. split; [|assumption].
    apply filter_In. split; [assumption | now apply Z.eqb_eq].
Qed.

Lemma outbound_fixed_spec (G : graph) (n : node) :
  nonempty (filter oneway (out_edges G n)) = true <-> outbound_fixed G n.
Proof.
  rewrite nonempty_filter. unfold outbound_fixed, out_edges. split.
  - intros [a [Ha Ho]]. apply filter_In in Ha. destruct Ha as [Ha Hd].
    apply Z.eqb_eq in Hd. eauto.
  - intros [a [Ha [Hd Ho]]]. exists a. split; [|assumption].
    apply filter_In. split; [assumption | now apply Z.eqb_eq].
Qed.

Lemma has_edge_spec (G : graph) (u v : node) :
  has_edge G u v = true <-> exists a, In a (g_arcs G) /\ src a = u /\ dst a = v.
Proof.
  unfold has_edge, joins. rewrite existsb_exists. split.
  - intros [a [Ha H]]. apply andb_true_iff in H. rewrite !Z.eqb_eq in H. eauto.
  - intros [a [Ha [Hs Hd]]]. exists a. split; [assumption|].
    apply andb_true_iff. now rewrite !Z.eqb_eq.
Qed.

Lemma two_way_neighbor_spec (G : graph) (n : node) :
  two_way_neighbor G n = true <-> two_way_escape G n.
Proof.
  unfold two_way_neighbor, two_way_escape. rewrite existsb_exists. split.
  - intros [m [_ H]]. apply andb_true_iff in H. rewrite !has_edge_spec in H.
    exists m. exact H.
  - intros [m [[a [Ha [Hs Hd]]] Hb]]. exists m. split.
    + unfold neighbors, out_edges. apply in_map_iff. exists a. split; [assumption|].
      apply filter_In. split; [assumption | now apply Z.eqb_eq].
    + apply andb_true_iff. rewrite !has_edge_spec. split; [eauto | exact Hb].
Qed.

Lemma classify_spec (G : graph) (n : node) :
  classify G n <> None <->
  ~ two_way_escape G n /\
  ((inbound_fixed G n /\ ~ outbound_fixed G n) \/
   (outbound_fixed G n /\ ~ inbound_fixed G n)).
Proof.
  unfold classify.
  rewrite <- two_way_neighbor_spec, <- inbound_fixed_spec, <- outbound_fixed_spec.
  destruct (nonempty (filter oneway (in_edges G n))),
           (nonempty (filter oneway (out_edges G n))),
           (two_way_neighbor G n); simpl; intuition congruence.
Qed.

Lemma detection_oneway_cut_spec (G : graph) (n : node) :
  In n (map fst (detection_oneway_cut G)) <-> one_way_cut_node G n.
Proof.
  unfold one_way_cut_node. rewrite <- classify_spec.
  unfold detection_oneway_cut. rewrite in_map_iff. split.
  - intros [[m d] [Hm Hin]]. simpl in Hm. subst m.
    apply in_flat_map in Hin. destruct Hin as [k [Hk Hin]].
    destruct (classify G k) as [d'|] eqn:Hc; [|contradiction].
    destruct Hin as [Heq|[]]. inversion Heq; subst. split; [assumption | congruence].
  - intros [Hn Hc]. destruct (classify G n) as [d|] eqn:Hcl; [|congruence].
    exists (n, d). split; [reflexivity|].
    apply in_flat_map. exists n. split; [assumption|]. rewrite Hcl. now left.
Qed.




(** ** Objects: what the pipeline changes in place *)

(** C9, as the code has it: the pipeline works on a copy of its own, so
    every graph object the caller had, the input among them, is the same
    after the call, whether the call returns or raises, and the graph
    returned is a new object; the bridge step and the cut-node step
    change no object but the one they are handed. *)
Theorem caller_graph_unchanged (o : set_order) (h : store) (G_raw : ref) :
  (G_raw < length h)%nat ->
  (forall k, (k < length h)%nat ->
     nth k (fst (create_custom_orientation o G_raw h)) empty_graph = nth k h empty_graph) /\
  match snd (create_custom_orientation o G_raw h) with
  | Ok p => (length h <= p < length (fst (create_custom_orientation o G_raw h)))%nat
  | Raise _ => True
  end /\
  frame G_raw h (fst (bridge_filter_at G_raw h)) /\
  frame G_raw h (fst (cut_node_filter_at G_raw h)).
Proof.
  intros Hr. destruct (create_custom_orientation_spec o h G_raw Hr) as [[_ K] R].
  split; [exact K|]. split.
  - destruct (snd (create_custom_orientation o G_raw h)); [|exact I].
    destruct R as [H1 [H2 _]]. split; assumption.
  - split.
    + apply (bridge_filter_at_implements h G_raw Hr).
    + apply (cut_node_filter_at_implements h G_raw Hr).
Qed.

Lemma caller_graph_unchanged_witness :
  nth 0 (fst (create_custom_orientation (insertion_order false) 0%nat [triangle_with_source]))
      empty_graph = triangle_with_source.
Proof.
  apply (proj1 (caller_graph_unchanged (insertion_order false)
                  [triangle_with_source] 0%nat (Nat.lt_0_succ 0)) 0%nat).
  simpl. lia.
Defined.

(** C9 as stated fails: on [triangle_with_source] the bridge step hands
    over the object it was given (object 1, no new graph value), and the
    cut-node step then takes node 4 and its arcs out of that very
    object. *)
Lemma cut_node_step_changes_object_in_place :
  flag_and_bridge_at 0%nat [triangle_with_source]
    = ([triangle_with_source; triangle_with_source_flagged], Ok 1%nat) /\
  snd (cut_node_filter_at 1%nat [triangle_with_source; triangle_with_source_flagged])
    = Ok 2%nat /\
  nth 1 (fst (cut_node_filter_at 1%nat [triangle_with_source; triangle_with_source_flagged]))
      empty_graph
    = Graph [1; 2; 3] (map mark (two_way 1 2 ++ two_way 2 3 ++ two_way 3 1)) /\
  nth 1 (fst (cut_node_filter_at 1%nat [triangle_with_source; triangle_with_source_flagged]))
      empty_graph
    <> nth 1 [triangle_with_source; triangle_with_source_flagged] empty_graph.
Proof.
  split; [vm_compute; reflexivity|].
  split; [vm_compute; reflexivity|].
  split; [vm_compute; reflexivity|].
  vm_compute. discriminate.
Qed.

(** ** The pipeline as a whole *)

Lemma add_edges_from_nodes (ps : list (Z * Z)) (G : graph) (x : node) :
  In x (g_nodes G) -> In x (g_nodes (add_edges_from G ps)).
Proof.
  unfold add_edges_from. revert G. induction ps as [|p ps IH]; intros G Hx; simpl.
  - assumption.
  - apply IH. unfold add_edge. simpl. rewrite !In_add_node. auto.
Qed.

Lemma build_final_nodes (G : graph) (arcs : list (Z * Z)) (x : node) :
  In x (g_nodes G) -> In x (g_nodes (build_final G arcs)).
Proof.
  intros Hx. unfold build_final. apply add_edges_from_nodes. simpl.
  apply In_add_nodes_from. now right.
Qed.

Lemma final_verification_total (final_graph : graph) :
  g_nodes final_graph <> [] -> exists result, final_verification final_graph = Ok result.
Proof.
  intros Hn. unfold final_verification, nx.is_strongly_connected,
    nx.is_strongly_connected_on.
  destruct (g_nodes final_graph) as [|n ns]; [congruence|]. simpl.
  destruct (nx.all_reach (n :: ns) (nx.arcs_of final_graph)); eauto.
Qed.



(** On [facing_streets] the cut-node stage leaves the graph with no node
    and the pipeline ends with the exception of line 106. *)
Lemma all_nodes_cut_raises (o : set_order) :
  filtered facing_streets = Ok empty_graph /\
  run o facing_streets = Raise NetworkXPointlessConcept.
Proof.
  assert (Hf : filtered facing_streets = Ok empty_graph) by (vm_compute; reflexivity).
  split; [exact Hf|].
  rewrite run_pipeline. unfold pipeline. rewrite Hf. cbn [rbind].
  unfold orientation_solver, fixed_arcs, undecided_edges, edges_to_decide. simpl.
  rewrite set_iter_nil. reflexivity.
Qed.

(** ** The graph the feasibility test sees inside the solver *)

Lemma firstn_incl {A} (n : nat) (l : list A) (x : A) : In x (firstn n l) -> In x l.
Proof. intros H. rewrite <- (firstn_skipn n l). apply in_or_app. now left. Qed.

Lemma skipn_incl {A} (n : nat) (l : list A) (x : A) : In x (skipn n l) -> In x l.
Proof. intros H. rewrite <- (firstn_skipn n l). apply in_or_app. now right. Qed.

Lemma In_both_ways (l : list (list node)) (p : Z * Z) :
  In p (both_ways l) <-> exists u v, In [u; v] l /\ (p = (u, v) \/ p = (v, u)).
Proof.
  unfold both_ways. rewrite in_flat_map. split.
  - intros [t [Ht Hp]]. destruct t as [|u [|v [|w t]]]; try contradiction.
    exists u, v. split; [exact Ht|]. destruct Hp as [<-|[<-|[]]]; auto.
  - intros [u [v [Ht Hp]]]. exists [u; v]. split; [exact Ht|].
    simpl. destruct Hp as [->| ->]; auto.
Qed.

Lemma flexible_pair_in_nodes (o : set_order) (G : graph) (fs : Z * Z) :
  well_formed G -> In fs (set_iter o (edges_to_decide G)) ->
  In (fst fs) (g_nodes G) /\ In (snd fs) (g_nodes G).
Proof.
  intros Hwf Hfs. apply In_set_iter in Hfs. unfold edges_to_decide in Hfs.
  apply in_map_iff in Hfs. destruct Hfs as [a [<- Ha]].
  apply filter_In in Ha. destruct Ha as [Ha _]. destruct (Hwf a Ha) as [Hs Hd].
  unfold frozenset2, ends. simpl.
  destruct (Z.min_spec (src a) (dst a)) as [[_ ->]|[_ ->]],
           (Z.max_spec (src a) (dst a)) as [[_ ->]|[_ ->]]; auto.
Qed.

Lemma undecided_tuple_in_nodes (o : set_order) (G : graph) (u v : node) :
  well_formed G -> In [u; v] (undecided_edges o G) ->
  In u (g_nodes G) /\ In v (g_nodes G).
Proof.
  intros Hwf Ht. unfold undecided_edges in Ht. apply in_map_iff in Ht.
  destruct Ht as [fs [Ht Hfs]]. destruct (flexible_pair_in_nodes o G fs Hwf Hfs) as [H1 H2].
  unfold tuple_of in Ht. destruct (fst fs =? snd fs); [discriminate|].
  destruct (tuple_flip o fs); injection Ht as <- <-; auto.
Qed.

Lemma committed_in_nodes (o : set_order) (G : graph) (committed : list (Z * Z)) (x y : node) :
  well_formed G -> orientation_solver o G = Ok committed ->
  In (x, y) committed -> In x (g_nodes G) /\ In y (g_nodes G).
Proof.
  intros Hwf Hrun Hin. destruct (orientation_solver_spec _ _ _ Hrun) as [ds [-> [Hm _]]].
  apply in_app_or in Hin. destruct Hin as [Hin|Hin].
  - unfold fixed_arcs in Hin. apply In_set_iter in Hin. apply in_map_iff in Hin.
    destruct Hin as [a [Ha Hin]]. apply filter_In in Hin. destruct Hin as [Hin _].
    unfold ends in Ha. injection Ha as <- <-. now apply Hwf.
  - assert (Hfs : In (frozenset2 (x, y)) (set_iter o (edges_to_decide G))).
    { rewrite <- Hm. now apply in_map. }
    destruct (flexible_pair_in_nodes o G _ Hwf Hfs) as [H1 H2].
    unfold frozenset2 in H1, H2. simpl in H1, H2.
    destruct (Z.min_spec x y) as [[L1 E1]|[L1 E1]], (Z.max_spec x y) as [[L2 E2]|[L2 E2]];
      rewrite E1 in H1; rewrite E2 in H2; auto; lia.
Qed.

(** C2: for the i-th flexible edge [(u, v)] of the processing sequence the
    solver runs the feasibility test on the arcs committed so far, the
    candidate [u -> v] and both directions of every later edge; the test
    answers yes exactly when the graph with those arcs is strongly
    connected on its nodes, which are the retained nodes (every arc of a
    networkx graph joining two of its nodes); on yes the solver commits
    [u -> v], on no it commits [v -> u], with no test of that arc.  The
    loop ends normally whenever every edge of the sequence has its two
    ends. *)
Theorem solver_commits_by_feasibility (o : set_order) (G : graph) :
  (Forall is_couple (undecided_edges o G) ->
   exists committed, orientation_solver o G = Ok committed) /\
  forall committed i u v,
    orientation_solver o G = Ok committed ->
    nth_error (undecided_edges o G) i = Some [u; v] ->
    let so_far := firstn (length (fixed_arcs o G) + i) committed in
    let later := skipn (S i) (undecided_edges o G) in
    let trial := so_far ++ [(u, v)] ++ both_ways later in
    exists ok,
      _is_still_strongly_connected (g_nodes G) (so_far ++ [(u, v)]) later = Ok ok /\
      (ok = true <-> feasible (g_nodes G) trial) /\
      (well_formed G ->
       (feasible (g_nodes G) trial <->
        forall a b, In a (g_nodes G) -> In b (g_nodes G) -> path trial a b)) /\
      nth_error committed (length (fixed_arcs o G) + i)
        = Some (if ok then (u, v) else (v, u)) /\
      length committed = (length (fixed_arcs o G) + length (undecided_edges o G))%nat.
Proof.
  split; [intros Hc; unfold orientation_solver; now apply orient_total|].
  intros committed i u v Hrun Hi so_far later trial.
  pose proof Hrun as Hrun'. unfold orientation_solver in Hrun.
  destruct (orient_spec _ _ _ _ Hrun) as [ds [Hc [Hl Hds]]].
  destruct (Hds i _ Hi) as [u' [v' [ok [H0 [H1 [Ht Hn]]]]]].
  simpl in H0, H1. injection H0 as <-. injection H1 as <-.
  assert (Hsf : so_far = fixed_arcs o G ++ firstn i ds).
  { unfold so_far. rewrite Hc. rewrite firstn_app.
    replace (length (fixed_arcs o G) + i - length (fixed_arcs o G))%nat with i by lia.
    rewrite firstn_all2 by lia. reflexivity. }
  exists ok. split; [rewrite Hsf, <- app_assoc; exact Ht|]. split; [|split; [|split]].
  - destruct (_is_still_strongly_connected_spec (g_nodes G)
                (fixed_arcs o G ++ firstn i ds ++ [(u, v)]) later) as [ok' [Hok' Hiff]].
    + eapply _is_still_strongly_connected_ok_couples. exact Ht.
    + exists u. right. exists v. left. rewrite !in_app_iff. simpl. tauto.
    + fold later in Ht. rewrite Ht in Hok'. injection Hok' as <-.
      unfold trial. rewrite Hsf. rewrite <- !app_assoc in Hiff.
      rewrite <- !app_assoc. exact Hiff.
  - intros Hwf.
    assert (Hends : forall x y, In (x, y) trial -> In x (g_nodes G) /\ In y (g_nodes G)).
    { intros x y Hxy. unfold trial in Hxy. rewrite !in_app_iff in Hxy.
      destruct Hxy as [Hxy|[Hxy|Hxy]].
      - apply (committed_in_nodes o G committed x y Hwf Hrun').
        unfold so_far in Hxy. eapply firstn_incl. exact Hxy.
      - destruct Hxy as [Hxy|[]]. injection Hxy as <- <-.
        apply (undecided_tuple_in_nodes o G u v Hwf). eapply nth_error_In. exact Hi.
      - apply In_both_ways in Hxy. destruct Hxy as [a [b [Hab Hxy]]].
        assert (Hin : In [a; b] (undecided_edges o G)).
        { unfold later in Hab. eapply skipn_incl. exact Hab. }
        destruct (undecided_tuple_in_nodes o G a b Hwf Hin) as [Ha Hb].
        destruct Hxy as [Hxy|Hxy]; injection Hxy as -> ->; auto. }
    assert (Hnode : forall x, trial_node (g_nodes G) trial x <-> In x (g_nodes G)).
    { intros x. unfold trial_node. split; [|now left].
      intros [Hx|[y [Hy|Hy]]]; [assumption | |]; now apply Hends in Hy. }
    unfold feasible. split.
    + intros H a b Ha Hb. apply H; now apply Hnode.
    + intros H a b Ha Hb. apply H; now apply Hnode.
  - rewrite Hc, nth_error_app2 by lia.
    replace (length (fixed_arcs o G) + i - length (fixed_arcs o G))%nat with i by lia.
    exact Hn.
  - rewrite Hc, length_app, Hl. reflexivity.
Qed.

Lemma solver_commits_by_feasibility_witness :
  (exists committed,
     orientation_solver (insertion_order false) square_flagged = Ok committed) /\
  exists ok,
    _is_still_strongly_connected [1; 2; 3; 4] ([] ++ [(1, 2)]) [[2; 3]; [3; 4]; [1; 4]]
      = Ok ok /\
    (ok = true <->
     feasible [1; 2; 3; 4] ([] ++ [(1, 2)] ++ both_ways [[2; 3]; [3; 4]; [1; 4]])) /\
    (well_formed square_flagged ->
     (feasible [1; 2; 3; 4] ([] ++ [(1, 2)] ++ both_ways [[2; 3]; [3; 4]; [1; 4]]) <->
      forall a b, In a [1; 2; 3; 4] -> In b [1; 2; 3; 4] ->
                  path ([] ++ [(1, 2)] ++ both_ways [[2; 3]; [3; 4]; [1; 4]]) a b)) /\
    nth_error [(1, 2); (2, 3); (3, 4); (4, 1)] 0 = Some (if ok then (1, 2) else (2, 1)) /\
    length [(1, 2); (2, 3); (3, 4); (4, 1)] = (0 + 4)%nat.
Proof.
  split.
  - apply (proj1 (solver_commits_by_feasibility (insertion_order false) square_flagged)).
    vm_compute. repeat constructor; eexists; eexists; reflexivity.
  - apply (proj2 (solver_commits_by_feasibility (insertion_order false) square_flagged)
             [(1, 2); (2, 3); (3, 4); (4, 1)] 0%nat 1 2).
    + vm_compute. reflexivity.
    + vm_compute. reflexivity.
Defined.

(** * Further properties of the script *)

(** ** [get_largest_scc] *)

Lemma filter_all {A} (p : A -> bool) (l : list A) :
  (forall x, In x l -> p x = true) -> filter p l = l.
Proof.
  induction l as [|a l IH]; intros H; simpl; [reflexivity|].
  rewrite (H a (or_introl eq_refl)). f_equal. apply IH. intros x Hx. apply H. now right.
Qed.

Lemma components_from_covered (f : node -> list node) (vs seen : list node) :
  (forall v, In v vs -> In v seen) -> nx.components_from f vs seen = [].
Proof.
  induction vs as [|v vs IH]; intros H; simpl; [reflexivity|].
  assert (Hv : memZ v seen = true) by (apply memZ_In, H; now left).
  rewrite Hv. apply IH. intros w Hw. apply H. now right.
Qed.

Lemma subgraph_well_formed (G : graph) (c : list node) :
  well_formed G -> well_formed (subgraph G c).
Proof.
  intros Hwf a Ha. unfold subgraph in *. simpl in *.
  apply filter_In in Ha. destruct Ha as [Ha Hc].
  apply andb_true_iff in Hc. destruct Hc as [Hs Hd].
  destruct (Hwf a Ha) as [H1 H2]. split; apply filter_In; auto.
Qed.

Lemma get_largest_scc_well_formed (G : graph) :
  well_formed G -> well_formed (get_largest_scc G).
Proof.
  intros Hwf. unfold get_largest_scc.
  destruct (is_null G); [intros a []|].
  destruct (max_len (nx.strongly_connected_components G)); [|intros a []].
  now apply subgraph_well_formed.
Qed.

Lemma strongly_connected_fixed (G : graph) :
  well_formed G -> strongly_connected G -> get_largest_scc G = G.
Proof.
  intros Hwf Hsc. destruct G as [[|n ns] es].
  - unfold get_largest_scc, is_null. simpl. unfold empty_graph. f_equal.
    destruct es as [|a es]; [reflexivity|].
    destruct (Hwf a (or_introl eq_refl)) as [[] _].
  - set (G := Graph (n :: ns) es) in *.
    assert (Hall : forall w, In w (g_nodes G) -> In w (nx.scc_of (nx.arcs_of G) n)).
    { intros w Hw. apply In_scc_of. split; apply Hsc; simpl; auto. }
    assert (Hcs : nx.strongly_connected_components G = [nx.scc_of (nx.arcs_of G) n]).
    { unfold nx.strongly_connected_components. simpl. f_equal.
      apply components_from_covered. intros v Hv. apply in_or_app. left.
      apply Hall. now right. }
    unfold get_largest_scc, is_null. cbn [g_nodes G]. rewrite Hcs. cbn [max_len longest].
    unfold subgraph. cbn [g_nodes g_arcs G].
    transitivity (Graph (n :: ns) es); [|reflexivity]. f_equal.
    + apply filter_all. intros x Hx. apply memZ_In. now apply Hall.
    + apply filter_all. intros a Ha. destruct (Hwf a Ha) as [H1 H2].
      apply andb_true_iff. split; apply memZ_In; now apply Hall.
Qed.

(** X1: [get_largest_scc] never raises and returns an induced subgraph of
    its argument that is strongly connected: its nodes are nodes of the
    argument, its arcs are arcs of the argument with their attributes,
    every arc of the argument between two kept nodes is kept, and it has
    no node exactly when the argument has none (the [except] branch is
    never taken on a graph with a node). *)
Theorem get_largest_scc_induced (G : graph) :
  strongly_connected (get_largest_scc G) /\
  incl (g_nodes (get_largest_scc G)) (g_nodes G) /\
  incl (g_arcs (get_largest_scc G)) (g_arcs G) /\
  (forall a, In a (g_arcs G) ->
     In (src a) (g_nodes (get_largest_scc G)) ->
     In (dst a) (g_nodes (get_largest_scc G)) ->
     In a (g_arcs (get_largest_scc G))) /\
  (g_nodes (get_largest_scc G) = [] <-> g_nodes G = []).
Proof.
  split; [apply get_largest_scc_strongly_connected|].
  destruct (g_nodes G) as [|n ns] eqn:Hn.
  - assert (He : get_largest_scc G = empty_graph).
    { unfold get_largest_scc, is_null. now rewrite Hn. }
    rewrite He. simpl. repeat split; try (intros x []); auto.
  - assert (Hne : g_nodes G <> []) by congruence.
    destruct (get_largest_scc_spec G Hne) as [v [Hv [Heq _]]].
    pose proof (get_largest_scc_nonempty G Hne) as Hres.
    rewrite Heq in *. rewrite <- Hn. split; [|split; [|split]].
    + intros x Hx. apply In_nodes_subgraph in Hx. tauto.
    + intros a Ha. unfold subgraph in Ha. simpl in Ha. apply filter_In in Ha. tauto.
    + intros a Ha Hs Hd. apply In_nodes_subgraph in Hs, Hd.
      unfold subgraph. simpl. apply filter_In. split; [assumption|].
      apply andb_true_iff. split; apply memZ_In; tauto.
    + split; [intros H; contradiction | intros H; congruence].
Qed.

(** X2: on a graph that is strongly connected, [get_largest_scc] returns
    the graph itself; so applying it twice is applying it once. *)
Theorem get_largest_scc_idempotent (G : graph) :
  well_formed G ->
  (strongly_connected G -> get_largest_scc G = G) /\
  get_largest_scc (get_largest_scc G) = get_largest_scc G.
Proof.
  intros Hwf. split.
  - now apply strongly_connected_fixed.
  - apply strongly_connected_fixed.
    + now apply get_largest_scc_well_formed.
    + apply get_largest_scc_strongly_connected.
Qed.

Ltac concrete_well_formed :=
  let a := fresh "a" in
  let Ha := fresh "Ha" in
  intros a Ha; vm_compute in Ha;
  repeat (destruct Ha as [<-|Ha]; [vm_compute; tauto|]); contradiction.

Lemma get_largest_scc_idempotent_witness :
  get_largest_scc square_clockwise = square_clockwise /\
  get_largest_scc (get_largest_scc two_islands) = get_largest_scc two_islands.
Proof.
  split.
  - apply (proj1 (get_largest_scc_idempotent square_clockwise ltac:(concrete_well_formed))).
    exact (proj1 (all_reach_spec (g_nodes square_clockwise)
                                 (nx.arcs_of square_clockwise)) eq_refl).
  - apply (proj2 (get_largest_scc_idempotent two_islands ltac:(concrete_well_formed))).
Defined.

(** ** [detection_oneway_cut] and STEP 2 *)

Lemma classify_all_in (G : graph) (n : node) :
  classify G n = Some all_in <->
  inbound_fixed G n /\ ~ outbound_fixed G n /\ ~ two_way_escape G n.
Proof.
  unfold classify.
  rewrite <- two_way_neighbor_spec, <- inbound_fixed_spec, <- outbound_fixed_spec.
  destruct (nonempty (filter oneway (in_edges G n))),
           (nonempty (filter oneway (out_edges G n))),
           (two_way_neighbor G n); simpl; intuition congruence.
Qed.

Lemma classify_all_out (G : graph) (n : node) :
  classify G n = Some all_out <->
  outbound_fixed G n /\ ~ inbound_fixed G n /\ ~ two_way_escape G n.
Proof.
  unfold classify.
  rewrite <- two_way_neighbor_spec, <- inbound_fixed_spec, <- outbound_fixed_spec.
  destruct (nonempty (filter oneway (in_edges G n))),
           (nonempty (filter oneway (out_edges G n))),
           (two_way_neighbor G n); simpl; intuition congruence.
Qed.

Lemma In_detection (G : graph) (n : node) (d : direction) :
  In (n, d) (detection_oneway_cut G) <-> In n (g_nodes G) /\ classify G n = Some d.
Proof.
  unfold detection_oneway_cut. rewrite in_flat_map. split.
  - intros [k [Hk Hin]]. destruct (classify G k) as [d'|] eqn:Hc; [|contradiction].
    destruct Hin as [Heq|[]]. inversion Heq; subst. auto.
  - intros [Hn Hc]. exists n. split; [assumption|]. rewrite Hc. now left.
Qed.

Lemma detection_nodes (G : graph) :
  map fst (detection_oneway_cut G) =
  filter (fun n => match classify G n with Some _ => true | None => false end) (g_nodes G).
Proof.
  unfold detection_oneway_cut. induction (g_nodes G) as [|n ns IH]; simpl; [reflexivity|].
  rewrite map_app, IH. destruct (classify G n); reflexivity.
Qed.

(** X3: the report of [detection_oneway_cut].  A node is reported "all
    in" exactly when it has a one-way arc coming in, none going out and
    no neighbor joined both ways; "all out" exactly in the mirrored case.
    No node is reported under both labels, the reported nodes come in the
    order of the graph's nodes, each once when the graph lists each node
    once, and a graph with no one-way arc gets an empty report. *)
Theorem detection_oneway_cut_report (G : graph) :
  (forall n, In (n, all_in) (detection_oneway_cut G) <->
     In n (g_nodes G) /\
     inbound_fixed G n /\ ~ outbound_fixed G n /\ ~ two_way_escape G n) /\
  (forall n, In (n, all_out) (detection_oneway_cut G) <->
     In n (g_nodes G) /\
     outbound_fixed G n /\ ~ inbound_fixed G n /\ ~ two_way_escape G n) /\
  (forall n d d', In (n, d) (detection_oneway_cut G) ->
                  In (n, d') (detection_oneway_cut G) -> d = d') /\
  (exists keep, map fst (detection_oneway_cut G) = filter keep (g_nodes G)) /\
  (NoDup (g_nodes G) -> NoDup (map fst (detection_oneway_cut G))) /\
  ((forall a, In a (g_arcs G) -> oneway a = false) -> detection_oneway_cut G = []).
Proof.
  split; [intros n; rewrite In_detection, classify_all_in; tauto|].
  split; [intros n; rewrite In_detection, classify_all_out; tauto|].
  split.
  { intros n d d' H1 H2. apply In_detection in H1, H2.
    destruct H1 as [_ H1], H2 as [_ H2]. congruence. }
  split; [eexists; apply detection_nodes|].
  split; [intros Hnd; rewrite detection_nodes; now apply NoDup_filter|].
  intros Hno. destruct (detection_oneway_cut G) as [|[n d] l] eqn:Hdet; [reflexivity|].
  exfalso.
  assert (Hin : In (n, d) (detection_oneway_cut G)) by (rewrite Hdet; now left).
  apply In_detection in Hin. destruct Hin as [_ Hc].
  destruct d.
  - apply classify_all_in in Hc. destruct Hc as [[a [Ha [_ Ho]]] _].
    rewrite (Hno a Ha) in Ho. discriminate.
  - apply classify_all_out in Hc. destruct Hc as [[a [Ha [_ Ho]]] _].
    rewrite (Hno a Ha) in Ho. discriminate.
Qed.

Lemma remove_nodes_from_well_formed (G : graph) (ns : list node) :
  well_formed G -> well_formed (remove_nodes_from G ns).
Proof.
  intros Hwf a Ha. unfold remove_nodes_from in *. simpl in *.
  apply filter_In in Ha. destruct Ha as [Ha Hc].
  apply andb_true_iff in Hc. destruct Hc as [Hs Hd].
  destruct (Hwf a Ha) as [H1 H2]. split; apply filter_In; auto.
Qed.

Lemma cut_node_filter_well_formed (G : graph) :
  well_formed G -> well_formed (cut_node_filter G).
Proof.
  intros Hwf. unfold cut_node_filter.
  destruct (nonempty (detection_oneway_cut G)); [|assumption].
  now apply get_largest_scc_well_formed, remove_nodes_from_well_formed.
Qed.

Lemma get_largest_scc_incl (G : graph) :
  incl (g_nodes (get_largest_scc G)) (g_nodes G) /\
  incl (g_arcs (get_largest_scc G)) (g_arcs G).
Proof.
  unfold get_largest_scc. destruct (is_null G); [split; intros x []|].
  destruct (max_len (nx.strongly_connected_components G)); [|split; intros x []].
  unfold subgraph. simpl. split; intros x Hx; apply filter_In in Hx; tauto.
Qed.

Lemma cut_node_filter_incl (G : graph) :
  incl (g_nodes (cut_node_filter G)) (g_nodes G) /\
  incl (g_arcs (cut_node_filter G)) (g_arcs G).
Proof.
  unfold cut_node_filter.
  destruct (nonempty (detection_oneway_cut G)); [|split; apply incl_refl].
  destruct (get_largest_scc_incl
              (remove_nodes_from G (map fst (detection_oneway_cut G)))) as [H1 H2].
  split; intros x Hx; [apply H1 in Hx | apply H2 in Hx];
    unfold remove_nodes_from in Hx; simpl in Hx; apply filter_In in Hx; tauto.
Qed.

(** X4: STEP 2 only takes away.  Its output has nodes and arcs of its
    input only, arcs with their attributes; no node that was detected as
    a one-way cut node is in the output; and as soon as one node was
    detected, the output is strongly connected. *)
Theorem cut_node_filter_only_removes (G : graph) :
  incl (g_nodes (cut_node_filter G)) (g_nodes G) /\
  incl (g_arcs (cut_node_filter G)) (g_arcs G) /\
  (forall n, one_way_cut_node G n -> ~ In n (g_nodes (cut_node_filter G))) /\
  (detection_oneway_cut G <> [] -> strongly_connected (cut_node_filter G)).
Proof.
  destruct (cut_node_filter_incl G) as [H1 H2].
  split; [exact H1|]. split; [exact H2|]. split.
  - intros n Hcut Hin. apply detection_oneway_cut_spec in Hcut.
    unfold cut_node_filter in Hin.
    destruct (nonempty (detection_oneway_cut G)) eqn:Hne.
    + apply (proj1 (get_largest_scc_incl _)) in Hin.
      unfold remove_nodes_from in Hin. cbn [g_nodes] in Hin. apply filter_In in Hin.
      destruct Hin as [_ Hin]. apply negb_true_iff, memZ_false in Hin. contradiction.
    + apply nonempty_false in Hne. rewrite Hne in Hcut. contradiction.
  - intros Hne. unfold cut_node_filter.
    destruct (detection_oneway_cut G); [congruence|].
    apply get_largest_scc_strongly_connected.
Qed.

(** ** [_is_still_strongly_connected] *)

Lemma is_couple_dec (t : list node) : is_couple t \/ ~ is_couple t.
Proof.
  destruct t as [|u [|v [|w t]]].
  - right. intros [a [b H]]. discriminate.
  - right. intros [a [b H]]. discriminate.
  - left. exists u, v. reflexivity.
  - right. intros [a [b H]]. discriminate.
Qed.

Lemma add_both_ways_bad_tuple (und : list (list node)) (T : digraph) :
  (exists t, In t und /\ ~ is_couple t) -> add_both_ways T und = Raise ValueError.
Proof.
  revert T. induction und as [|t und IH]; intros T [t' [Hin Hbad]]; [contradiction|].
  destruct (is_couple_dec t) as [[u [v ->]]|Ht].
  - simpl. apply IH. exists t'. split; [|assumption].
    destruct Hin as [<-|Hin]; [|assumption]. exfalso. apply Hbad. exists u, v. reflexivity.
  - simpl. destruct t as [|u [|v [|w t]]]; try reflexivity.
    exfalso. apply Ht. exists u, v. reflexivity.
Qed.

Lemma add_both_ways_raise (und : list (list node)) (T : digraph) (e : exn) :
  add_both_ways T und = Raise e ->
  e = ValueError /\ exists t, In t und /\ ~ is_couple t.
Proof.
  revert T. induction und as [|t und IH]; intros T H; simpl in H; [discriminate|].
  destruct (is_couple_dec t) as [[u [v ->]]|Ht].
  - destruct (IH _ H) as [He [t' [Hin Hbad]]]. split; [assumption|].
    exists t'. split; [now right | assumption].
  - split.
    + destruct t as [|u [|v [|w t]]]; try (injection H as <-; reflexivity).
      exfalso. apply Ht. exists u, v. reflexivity.
    + exists t. split; [now left | assumption].
Qed.

(** X5: how [_is_still_strongly_connected] ends.  With no node, no arc
    and no undecided edge it raises the networkx exception for the null
    graph; with an undecided tuple that has not two elements it raises
    [ValueError]; in every other case it returns a boolean; and it raises
    nothing else. *)
Theorem feasibility_test_outcomes
  (nodes : list node) (oriented_arcs : list (Z * Z)) (undecided : list (list node)) :
  (nodes = [] -> oriented_arcs = [] -> undecided = [] ->
   _is_still_strongly_connected nodes oriented_arcs undecided
     = Raise NetworkXPointlessConcept) /\
  ((exists t, In t undecided /\ ~ is_couple t) ->
   _is_still_strongly_connected nodes oriented_arcs undecided = Raise ValueError) /\
  (Forall is_couple undecided ->
   nodes <> [] \/ oriented_arcs <> [] \/ undecided <> [] ->
   exists ok, _is_still_strongly_connected nodes oriented_arcs undecided = Ok ok) /\
  (forall e, _is_still_strongly_connected nodes oriented_arcs undecided = Raise e ->
             e = ValueError \/ e = NetworkXPointlessConcept).
Proof.
  split; [intros -> -> ->; reflexivity|].
  split.
  { intros Hbad. unfold _is_still_strongly_connected.
    now rewrite (add_both_ways_bad_tuple undecided _ Hbad). }
  split.
  { intros Hc Hne.
    destruct (_is_still_strongly_connected_spec nodes oriented_arcs undecided Hc)
      as [ok [Hok _]]; [|eauto].
    destruct Hne as [Hne|[Hne|Hne]].
    - destruct nodes as [|x nodes]; [congruence|]. exists x. left. now left.
    - destruct oriented_arcs as [|[a b] arcs]; [congruence|].
      exists a. right. exists b. left. now left.
    - destruct undecided as [|t und]; [congruence|].
      inversion Hc as [|? ? [u [v ->]] _]; subst.
      exists u. right. exists v. left. apply in_or_app. right. simpl. now left. }
  intros e. unfold _is_still_strongly_connected.
  destruct (add_both_ways _ undecided) as [U|e'] eqn:HU; cbn [rbind].
  - unfold nx.is_strongly_connected_on. destruct (fst U); [|discriminate].
    intros H. injection H as <-. now right.
  - intros H. injection H as <-. left. now destruct (add_both_ways_raise _ _ _ HU).
Qed.

Lemma feasibility_test_outcomes_witness :
  _is_still_strongly_connected [] [] [] = Raise NetworkXPointlessConcept /\
  _is_still_strongly_connected [1; 2] [] [[1; 2]; [3]] = Raise ValueError /\
  exists ok, _is_still_strongly_connected [1; 2] [(1, 2)] [] = Ok ok.
Proof.
  split; [|split].
  - apply (proj1 (feasibility_test_outcomes [] [] [])); reflexivity.
  - apply (proj1 (proj2 (feasibility_test_outcomes [1; 2] [] [[1; 2]; [3]]))).
    exists [3]. split; [simpl; tauto|]. intros [u [v H]]. discriminate.
  - apply (proj1 (proj2 (proj2 (feasibility_test_outcomes [1; 2] [(1, 2)] [])))).
    + constructor.
    + left. discriminate.
Defined.

Lemma resolves_couples (und : list (list node)) (chosen : list (Z * Z)) :
  resolves und chosen -> Forall is_couple und.
Proof.
  induction 1 as [|t d und chosen [u [v [-> _]]] _ IH]; constructor;
    [exists u, v; reflexivity | assumption].
Qed.

Lemma resolves_chosen (und : list (list node)) (chosen : list (Z * Z)) (p : Z * Z) :
  resolves und chosen -> In p chosen -> In p (both_ways und).
Proof.
  induction 1 as [|t d und chosen [u [v [-> Hd]]] _ IH]; intros Hp; [contradiction|].
  simpl. destruct Hp as [<-|Hp].
  - destruct Hd as [->| ->]; simpl; auto.
  - right. right. now apply IH.
Qed.

Lemma resolves_ends (und : list (list node)) (chosen : list (Z * Z)) (x y : node) :
  resolves und chosen -> In (x, y) (both_ways und) ->
  exists z, In (x, z) chosen \/ In (z, x) chosen.
Proof.
  induction 1 as [|t d und chosen [u [v [-> Hd]]] _ IH]; intros Hp; [contradiction|].
  simpl in Hp. destruct Hp as [Hp|[Hp|Hp]].
  - injection Hp as <- <-. exists v. destruct Hd as [->| ->]; simpl; auto.
  - injection Hp as <- <-. exists u. destruct Hd as [->| ->]; simpl; auto.
  - destruct (IH Hp) as [z [Hz|Hz]]; exists z; simpl; auto.
Qed.

Lemma both_ways_symmetric (und : list (list node)) (x y : node) :
  In (x, y) (both_ways und) -> In (y, x) (both_ways und).
Proof.
  rewrite !In_both_ways. intros [u [v [Ht [H|H]]]]; injection H as -> ->;
    exists u, v; auto.
Qed.

(** X6: the relaxation is optimistic.  If the graph is strongly connected
    once every undecided edge has been given one direction, whichever,
    then the test with those edges still undecided answers yes: the test
    never rejects a candidate that some orientation of the remaining
    edges would make work. *)
Theorem relaxation_accepts_every_working_orientation
  (nodes : list node) (oriented_arcs chosen : list (Z * Z)) (undecided : list (list node)) :
  resolves undecided chosen ->
  _is_still_strongly_connected nodes (oriented_arcs ++ chosen) [] = Ok true ->
  _is_still_strongly_connected nodes oriented_arcs undecided = Ok true.
Proof.
  intros Hres Hall.
  pose proof (resolves_couples _ _ Hres) as Hc.
  assert (Hx : exists x, trial_node nodes ((oriented_arcs ++ chosen) ++ both_ways []) x).
  { unfold _is_still_strongly_connected in Hall. cbn [add_both_ways rbind] in Hall.
    destruct (fold_di_add_edge (oriented_arcs ++ chosen) (add_nodes_from [] nodes, []))
      as [_ HV].
    unfold nx.is_strongly_connected_on in Hall.
    destruct (fst (fold_left di_add_edge (oriented_arcs ++ chosen)
                             (add_nodes_from [] nodes, []))) as [|x V] eqn:HfV;
      [discriminate|].
    exists x. specialize (HV x).
    destruct (proj1 HV (or_introl eq_refl)) as [H|[y H]].
    - left. simpl in H. apply In_add_nodes_from in H. destruct H as [[]|H]. exact H.
    - right. exists y. simpl. rewrite app_nil_r. exact H. }
  destruct (_is_still_strongly_connected_spec nodes (oriented_arcs ++ chosen) []
              (Forall_nil _) Hx) as [ok1 [Hok1 Hiff1]].
  rewrite Hall in Hok1. injection Hok1 as <-.
  pose proof (proj1 Hiff1 eq_refl) as Hfeas. simpl in Hfeas. rewrite app_nil_r in Hfeas.
  assert (Hnodes : forall x, trial_node nodes (oriented_arcs ++ both_ways undecided) x ->
                             trial_node nodes (oriented_arcs ++ chosen) x).
  { intros x [H|[y H]]; [now left|]. right.
    rewrite !in_app_iff in H. destruct H as [[H|H]|[H|H]].
    - exists y. left. apply in_or_app. now left.
    - destruct (resolves_ends _ _ x y Hres H) as [z Hz]. exists z.
      rewrite !in_app_iff. tauto.
    - exists y. right. apply in_or_app. now left.
    - apply both_ways_symmetric in H.
      destruct (resolves_ends _ _ x y Hres H) as [z Hz]. exists z.
      rewrite !in_app_iff. tauto. }
  destruct (_is_still_strongly_connected_spec nodes oriented_arcs undecided Hc)
    as [ok2 [Hok2 Hiff2]].
  { destruct Hx as [x Hx]. simpl in Hx. rewrite app_nil_r in Hx.
    exists x. destruct Hx as [H|[y H]]; [now left|]. right. exists y.
    rewrite !in_app_iff in *.
    destruct H as [[H|H]|[H|H]]; auto;
      pose proof (resolves_chosen _ _ _ Hres H); auto. }
  rewrite Hok2. f_equal. apply Hiff2.
  intros a b Ha Hb. apply path_incl with (oriented_arcs ++ chosen).
  - intros p Hp. apply in_app_or in Hp. apply in_or_app.
    destruct Hp as [Hp|Hp]; [now left | right]. eapply resolves_chosen; eassumption.
  - apply Hfeas; now apply Hnodes.
Qed.

Lemma relaxation_accepts_every_working_orientation_witness :
  _is_still_strongly_connected [1; 2; 3] [(1, 2)] [[2; 3]; [1; 3]] = Ok true.
Proof.
  apply (relaxation_accepts_every_working_orientation
           [1; 2; 3] [(1, 2)] [(2, 3); (3, 1)] [[2; 3]; [1; 3]]).
  - constructor; [exists 2, 3; auto|].
    constructor; [exists 1, 3; auto | constructor].
  - vm_compute. reflexivity.
Defined.

Lemma temp_graph_spec
  (nodes : list node) (arcs : list (Z * Z)) (und : list (list node)) :
  Forall is_couple und ->
  exists U,
    add_both_ways (fold_left di_add_edge arcs (add_nodes_from [] nodes, [])) und = Ok U /\
    snd U = arcs ++ both_ways und /\
    forall x, In x (fst U) <-> trial_node nodes (arcs ++ both_ways und) x.
Proof.
  intros Hc.
  destruct (fold_di_add_edge arcs (add_nodes_from [] nodes, [])) as [HE0 HV0].
  destruct (add_both_ways_couples und
              (fold_left di_add_edge arcs (add_nodes_from [] nodes, [])) Hc)
    as [U [HU [HE HV]]].
  exists U. split; [exact HU|]. rewrite HE0 in HE. simpl in HE. split; [exact HE|].
  intros x. rewrite HV, HV0. simpl fst. rewrite In_add_nodes_from.
  unfold trial_node. split.
  - intros [[[[]|H]|[y H]]|[y H]]; [now left| |]; right; exists y;
      rewrite !in_app_iff; tauto.
  - intros [H|[y H]]; [tauto|]. rewrite !in_app_iff in H.
    destruct H as [[H|H]|[H|H]]; eauto 7.
Qed.

Lemma both_ways_same (und und' : list (list node)) (p : Z * Z) :
  (forall t, In t und <-> In t und') -> In p (both_ways und) <-> In p (both_ways und').
Proof.
  intros H. rewrite !In_both_ways. split; intros [u [v [Ht Hp]]]; exists u, v;
    (split; [now apply H | assumption]).
Qed.

(** X7: the feasibility test sees sets.  Listing the nodes, the committed
    arcs or the undecided tuples in another order, or listing one of them
    twice, changes neither its answer nor the exception it raises. *)
Theorem feasibility_test_sees_sets
  (nodes nodes' : list node) (arcs arcs' : list (Z * Z)) (und und' : list (list node)) :
  (forall x, In x nodes <-> In x nodes') ->
  (forall p, In p arcs <-> In p arcs') ->
  (forall t, In t und <-> In t und') ->
  _is_still_strongly_connected nodes arcs und =
  _is_still_strongly_connected nodes' arcs' und'.
Proof.
  intros Hn Ha Hu. unfold _is_still_strongly_connected.
  destruct (add_both_ways (fold_left di_add_edge arcs (add_nodes_from [] nodes, [])) und)
    as [U|e] eqn:HU.
  - pose proof (add_both_ways_ok_couples _ _ _ HU) as Hc.
    assert (Hc' : Forall is_couple und').
    { rewrite Forall_forall in *. intros t Ht. apply Hc. now apply Hu. }
    destruct (temp_graph_spec nodes arcs und Hc) as [U1 [HU1 [HE1 HV1]]].
    destruct (temp_graph_spec nodes' arcs' und' Hc') as [U2 [HU2 [HE2 HV2]]].
    rewrite HU in HU1. injection HU1 as <-. rewrite HU2. cbn [rbind].
    apply is_strongly_connected_on_ext.
    assert (HE : forall p, In p (arcs ++ both_ways und) <-> In p (arcs' ++ both_ways und')).
    { intros p. rewrite !in_app_iff, Ha, (both_ways_same und und' p Hu). tauto. }
    split.
    + intros x. rewrite HV1, HV2. unfold trial_node. rewrite Hn.
      split; (intros [H|[y H]]; [now left | right; exists y]);
        [rewrite <- !HE | rewrite !HE]; exact H.
    + intros p. rewrite HE1, HE2. apply HE.
  - destruct (add_both_ways_raise _ _ _ HU) as [-> [t [Ht Hbad]]].
    rewrite (add_both_ways_bad_tuple und'); [reflexivity|].
    exists t. split; [now apply Hu | assumption].
Qed.

Lemma feasibility_test_sees_sets_witness :
  _is_still_strongly_connected [1; 2; 3] [(1, 2); (2, 3)] [[3; 1]] =
  _is_still_strongly_connected [3; 1; 2; 1] [(2, 3); (1, 2); (2, 3)] [[3; 1]; [3; 1]].
Proof.
  apply feasibility_test_sees_sets.
  - intros x. simpl. tauto.
  - intros p. simpl. tauto.
  - intros t. simpl. tauto.
Defined.

(** ** The flagging loop, lines 48-50 *)

Lemma existsb_key0_map (u v : node) (f : arc -> arc) (l : list arc) :
  (forall a, src (f a) = src a /\ dst (f a) = dst a /\ key (f a) = key a) ->
  existsb (is_key0 u v) (map f l) = existsb (is_key0 u v) l.
Proof.
  intros Hf. induction l as [|a l IH]; simpl; [reflexivity|].
  rewrite IH. f_equal. unfold is_key0, joins.
  destruct (Hf a) as [-> [-> ->]]. reflexivity.
Qed.

Lemma flag_if_hit_fields (todo : list arc) (a : arc) :
  src (flag_if_hit todo a) = src a /\ dst (flag_if_hit todo a) = dst a /\
  key (flag_if_hit todo a) = key a.
Proof. unfold flag_if_hit. destruct (hit todo a); simpl; auto. Qed.

(** What the loop has done when it ends, and when it ends with an
    exception: the first arc of [todo] not marked one-way whose two
    nodes have no arc with key 0. *)
Lemma flag_loop_spec (todo cur : list arc) :
  (forall b, In b todo -> oneway b = false ->
             existsb (is_key0 (src b) (dst b)) cur = true) ->
  flag_loop todo cur = (map (flag_if_hit todo) cur, Ok tt).
Proof.
  revert cur. induction todo as [|b todo IH]; intros cur H.
  - simpl. f_equal. transitivity (map (fun a : arc => a) cur);
      [symmetry; apply map_id | apply map_ext].
    intros a. unfold flag_if_hit, hit. simpl. now rewrite andb_false_r.
  - cbn [flag_loop]. destruct (oneway b) eqn:Hb.
    + rewrite IH by (intros c Hc; apply H; now right).
      f_equal. apply map_ext. intros a. unfold flag_if_hit, hit. simpl.
      now rewrite Hb.
    + unfold set_flexible. rewrite (H b (or_introl eq_refl) Hb).
      rewrite IH.
      * f_equal. rewrite map_map. apply map_ext. intros a.
        unfold flag_if_hit, hit. cbn [existsb]. rewrite Hb. cbn [negb andb].
        unfold is_key0.
        destruct (joins (src b) (dst b) a) eqn:Hj, (key a =? 0) eqn:Hk;
          cbn [andb orb mark src dst key oneway flexible];
          rewrite ?Hj, ?Hk; cbn [andb orb]; try reflexivity.
        destruct (existsb _ todo); reflexivity.
      * intros c Hc Hoc.
        rewrite (existsb_key0_map (src c) (dst c)
                   (fun a => if is_key0 (src b) (dst b) a then mark a else a)).
        -- apply H; [now right | assumption].
        -- intros a. destruct (is_key0 (src b) (dst b) a); simpl; auto.
Qed.

Lemma flag_loop_raises (todo cur : list arc) (b : arc) :
  In b todo -> oneway b = false ->
  existsb (is_key0 (src b) (dst b)) cur = false ->
  snd (flag_loop todo cur) = Raise KeyError.
Proof.
  revert cur. induction todo as [|c todo IH]; intros cur Hin Hb Hno; [contradiction|].
  cbn [flag_loop]. destruct (oneway c) eqn:Hc.
  - destruct Hin as [->|Hin]; [congruence|]. now apply IH.
  - unfold set_flexible.
    destruct (existsb (is_key0 (src c) (dst c)) cur) eqn:Hex; [|reflexivity].
    destruct Hin as [->|Hin]; [congruence|].
    apply IH; [assumption | assumption|].
    rewrite (existsb_key0_map (src b) (dst b)
               (fun a => if is_key0 (src c) (dst c) a then mark a else a));
      [assumption|].
    intros a. destruct (is_key0 (src c) (dst c) a); simpl; auto.
Qed.

Lemma key0_present_spec (G : graph) (b : arc) :
  existsb (is_key0 (src b) (dst b)) (g_arcs G) = true <->
  exists a, In a (g_arcs G) /\ src a = src b /\ dst a = dst b /\ key a = 0.
Proof.
  rewrite existsb_exists. unfold is_key0, joins. split.
  - intros [a [Ha H]]. rewrite !andb_true_iff, !Z.eqb_eq in H. exists a. tauto.
  - intros [a [Ha [H1 [H2 H3]]]]. exists a. split; [assumption|].
    rewrite !andb_true_iff, !Z.eqb_eq. tauto.
Qed.

(** X8: the flagging loop of lines 48-50.  It ends normally exactly when
    every arc not marked one-way has an arc with key 0 between the same
    two nodes in the same direction, and raises [KeyError] otherwise.
    When it ends normally, the graph has the same nodes and the same
    arcs in the same order, with the [flexible] flag set on the arcs
    with key 0 that an arc not marked one-way runs beside, and on no
    other arc; nodes, ends, keys and one-way marks are as before. *)
Theorem flag_flexible_spec (G : graph) :
  (key0_present G ->
   flag_flexible G = (Graph (g_nodes G) (map (flag_if_hit (g_arcs G)) (g_arcs G)), Ok tt)) /\
  (~ key0_present G -> snd (flag_flexible G) = Raise KeyError) /\
  (forall a, flexible (flag_if_hit (g_arcs G) a) = true <->
     flexible a = true \/
     (key a = 0 /\ exists b, In b (g_arcs G) /\ oneway b = false /\
                             src b = src a /\ dst b = dst a)) /\
  (forall a, src (flag_if_hit (g_arcs G) a) = src a /\
             dst (flag_if_hit (g_arcs G) a) = dst a /\
             key (flag_if_hit (g_arcs G) a) = key a /\
             oneway (flag_if_hit (g_arcs G) a) = oneway a).
Proof.
  split; [|split; [|split]].
  - intros Hk. unfold flag_flexible. rewrite flag_loop_spec; [reflexivity|].
    intros b Hb Ho. apply key0_present_spec. now apply Hk.
  - intros Hk. unfold flag_flexible. cbn [snd].
    assert (Hex : exists b, In b (g_arcs G) /\ oneway b = false /\
                            existsb (is_key0 (src b) (dst b)) (g_arcs G) = false).
    { assert (Hcases : forall l,
                (forall b, In b l -> oneway b = false ->
                           existsb (is_key0 (src b) (dst b)) (g_arcs G) = true) \/
                (exists b, In b l /\ oneway b = false /\
                           existsb (is_key0 (src b) (dst b)) (g_arcs G) = false)).
      { induction l as [|c l [IH|[b [Hb1 [Hb2 Hb3]]]]].
        - left. intros b [].
        - destruct (oneway c) eqn:Hc.
          + left. intros b [<-|Hb] Ho; [congruence | now apply IH].
          + destruct (existsb (is_key0 (src c) (dst c)) (g_arcs G)) eqn:Hx.
            * left. intros b [<-|Hb] Ho; [assumption | now apply IH].
            * right. exists c. split; [now left | auto].
        - right. exists b. split; [now right | auto]. }
      destruct (Hcases (g_arcs G)) as [Hall|Hex]; [|exact Hex].
      exfalso. apply Hk. intros b Hb Ho. apply key0_present_spec. now apply Hall. }
    destruct Hex as [b [Hb [Ho Hno]]]. now apply (flag_loop_raises _ _ b).
  - intros a. unfold flag_if_hit, hit.
    destruct (key a =? 0) eqn:Hk; cbn [andb].
    + apply Z.eqb_eq in Hk.
      destruct (existsb (fun b => negb (oneway b) && joins (src b) (dst b) a) (g_arcs G))
        eqn:Hex.
      * apply existsb_exists in Hex. destruct Hex as [b [Hb H]].
        apply andb_true_iff in H. destruct H as [Ho Hj].
        apply negb_true_iff in Ho. unfold joins in Hj.
        apply andb_true_iff in Hj. rewrite !Z.eqb_eq in Hj.
        simpl. split; [intros _; right | reflexivity].
        split; [assumption|]. exists b. intuition congruence.
      * split; [now left|]. intros [H|[_ [b [Hb [Ho [Hs Hd]]]]]]; [assumption|].
        exfalso. assert (Ht : existsb (fun b => negb (oneway b) && joins (src b) (dst b) a)
                                      (g_arcs G) = true); [|congruence].
        apply existsb_exists. exists b. split; [assumption|].
        rewrite Ho. unfold joins. rewrite Hs, Hd, !Z.eqb_refl. reflexivity.
    + apply Z.eqb_neq in Hk. split; [now left|].
      intros [H|[H _]]; [assumption | contradiction].
  - intros a. unfold flag_if_hit. destruct (hit (g_arcs G) a); simpl; auto.
Qed.

Lemma flag_flexible_spec_witness :
  flag_flexible square
    = (Graph (g_nodes square) (map (flag_if_hit (g_arcs square)) (g_arcs square)), Ok tt) /\
  snd (flag_flexible (Graph [1; 2] [Arc 1 2 1 false false])) = Raise KeyError.
Proof.
  split.
  - apply (proj1 (flag_flexible_spec square)).
    intros b Hb _. exists b. vm_compute in Hb.
    repeat (destruct Hb as [<-|Hb]; [vm_compute; tauto|]). contradiction.
  - apply (proj1 (proj2 (flag_flexible_spec (Graph [1; 2] [Arc 1 2 1 false false])))).
    intros H. destruct (H (Arc 1 2 1 false false)) as [a [Ha [_ [_ Hk]]]];
      [simpl; auto | reflexivity|].
    destruct Ha as [<-|[]]. discriminate.
Defined.

(** X9: on a graph without parallel arcs the flagging loop never raises
    and sets the [flexible] flag on exactly the arcs not marked one-way;
    the one-way arcs are left as they were. *)
Theorem flag_flexible_without_parallel_arcs (G : graph) :
  no_parallel_arcs G ->
  flag_flexible G =
  (Graph (g_nodes G) (map (fun a => if oneway a then a else mark a) (g_arcs G)), Ok tt).
Proof.
  intros [Hkey Hnd]. unfold flag_flexible. rewrite flag_loop_spec.
  - cbn [fst snd]. f_equal. f_equal. apply map_ext_in. intros a Ha.
    unfold flag_if_hit, hit. rewrite (Hkey a Ha). cbn [Z.eqb andb].
    destruct (oneway a) eqn:Ho.
    + destruct (existsb (fun b => negb (oneway b) && joins (src b) (dst b) a) (g_arcs G))
        eqn:Hex; [|reflexivity].
      exfalso. apply existsb_exists in Hex. destruct Hex as [b [Hb H]].
      apply andb_true_iff in H. destruct H as [Hob Hj]. apply negb_true_iff in Hob.
      unfold joins in Hj. apply andb_true_iff in Hj. rewrite !Z.eqb_eq in Hj.
      assert (Heq : a = b).
      { apply (map_injective_on ends (g_arcs G)); try assumption.
        unfold ends. destruct Hj as [-> ->]. reflexivity. }
      congruence.
    + assert (Hex : existsb (fun b => negb (oneway b) && joins (src b) (dst b) a)
                            (g_arcs G) = true); [|now rewrite Hex].
      apply existsb_exists. exists a. split; [assumption|].
      rewrite Ho. unfold joins. now rewrite !Z.eqb_refl.
  - intros b Hb _. apply existsb_exists. exists b. split; [assumption|].
    unfold is_key0, joins. rewrite (Hkey b Hb), !Z.eqb_refl. reflexivity.
Qed.

Lemma flag_flexible_without_parallel_arcs_witness :
  flag_flexible triangle_with_source = (triangle_with_source_flagged, Ok tt).
Proof.
  apply (flag_flexible_without_parallel_arcs triangle_with_source).
  split.
  - intros a Ha. vm_compute in Ha.
    repeat (destruct Ha as [<-|Ha]; [reflexivity|]). contradiction.
  - vm_compute. repeat (constructor; [simpl; intuition congruence|]). constructor.
Defined.

(** ** STEP 1 *)

Lemma remove_last_incl (u v : node) (l : list arc) (a : arc) :
  In a (remove_last u v l) -> In a l.
Proof.
  induction l as [|b l IH]; simpl; [tauto|].
  destruct (joins u v b && negb (existsb (joins u v) l)); simpl; intuition.
Qed.

Lemma remove_bridge_incl (G : graph) (p : Z * Z) (a : arc) :
  In a (g_arcs (remove_bridge G p)) -> In a (g_arcs G).
Proof.
  unfold remove_bridge.
  set (G1 := if has_edge G (fst p) (snd p) then remove_edge G (fst p) (snd p) else G).
  assert (H1 : In a (g_arcs G1) -> In a (g_arcs G)).
  { unfold G1. destruct (has_edge G (fst p) (snd p)); simpl; [apply remove_last_incl | auto]. }
  destruct (has_edge G1 (snd p) (fst p)); simpl; [|exact H1].
  intros H. apply H1. eapply remove_last_incl. exact H.
Qed.

Lemma remove_bridges_incl (bs : list (Z * Z)) (G : graph) (a : arc) :
  In a (g_arcs (remove_bridges G bs)) -> In a (g_arcs G).
Proof.
  unfold remove_bridges. revert G. induction bs as [|p bs IH]; intros G H; simpl in H.
  - assumption.
  - apply (remove_bridge_incl G p). now apply IH.
Qed.

Lemma bridges_need_arcs (G : graph) : g_arcs G = [] -> nx.bridges G = [].
Proof.
  intros H. unfold nx.bridges, nx.edges_undirected, nx.arcs_of. rewrite H. reflexivity.
Qed.

Lemma In_sym (E : list (Z * Z)) (a b : node) :
  In (a, b) (nx.sym E) <-> In (a, b) E \/ In (b, a) E.
Proof.
  unfold nx.sym. rewrite in_app_iff, in_map_iff. split.
  - intros [H|[[x y] [Heq H]]]; [now left|]. unfold swap in Heq. simpl in Heq.
    injection Heq as <- <-. now right.
  - intros [H|H]; [now left|]. right. exists (b, a). auto.
Qed.

Lemma path_sym (E : list (Z * Z)) (a b : node) :
  path (nx.sym E) a b -> path (nx.sym E) b a.
Proof.
  intros H. induction H as [a|a x b Hax _ IH].
  - apply path_refl.
  - apply path_trans with x; [exact IH|]. apply path_step.
    unfold step in Hax. apply In_sym. apply In_sym in Hax. tauto.
Qed.

Lemma path_inside_component (G : graph) (w a b : node) :
  path (nx.undirected G) a b ->
  In a (reach (nx.undirected G) w) ->
  path (nx.undirected (subgraph G (reach (nx.undirected G) w))) a b.
Proof.
  intros Hp. induction Hp as [a|a x b Hax _ IH]; intros Ha.
  - apply path_refl.
  - assert (Hx : In x (reach (nx.undirected G) w)).
    { apply reach_path. apply path_trans with a; [now apply reach_path|].
      now apply path_step. }
    apply path_trans with x; [|now apply IH].
    apply path_step. unfold step in Hax. unfold nx.undirected in *.
    apply In_sym. apply In_sym in Hax.
    destruct Hax as [H|H]; [left | right]; apply In_arcs_subgraph; auto.
Qed.

(** X10: STEP 1 on a graph where every arc joins two nodes.  It never
    raises; its output has nodes and arcs of its input only, arcs with
    their attributes, and every arc of the output joins two nodes of the
    output; and when a bridge was found, the output is connected. *)
Theorem bridge_filter_only_removes (G : graph) :
  well_formed G ->
  exists out,
    bridge_filter G = Ok out /\
    incl (g_nodes out) (g_nodes G) /\
    incl (g_arcs out) (g_arcs G) /\
    well_formed out /\
    (nx.bridges G <> [] -> connected out).
Proof.
  intros Hwf. unfold bridge_filter.
  destruct (nx.bridges G) as [|p bs] eqn:Hb.
  - exists G. simpl. repeat split; try apply incl_refl; try assumption;
      try (now apply Hwf). congruence.
  - cbn [nonempty]. rewrite <- Hb.
    set (G' := remove_bridges G (nx.bridges G)).
    assert (Hn : g_nodes G' = g_nodes G) by apply remove_bridges_nodes.
    assert (Hwf' : well_formed G').
    { intros a Ha. rewrite Hn. apply Hwf. eapply remove_bridges_incl. exact Ha. }
    assert (Hne : g_nodes G <> []).
    { destruct (g_arcs G) as [|a l] eqn:Ha.
      - rewrite (bridges_need_arcs G Ha) in Hb. discriminate.
      - destruct (Hwf a) as [Hs _]; [rewrite Ha; now left|].
        intros Hnil. rewrite Hnil in Hs. contradiction. }
    destruct (max_len (nx.connected_components G')) as [c|e] eqn:Hmax.
    + destruct (max_len_spec _ _ Hmax) as [Hin _].
      unfold nx.connected_components in Hin.
      apply components_from_In in Hin. destruct Hin as [w [Hw ->]].
      exists (subgraph G' (reach (nx.undirected G') w)). cbn [rbind].
      split; [reflexivity|]. split; [|split; [|split]].
      * intros x Hx. apply In_nodes_subgraph in Hx. rewrite <- Hn. tauto.
      * intros a Ha. unfold subgraph in Ha. simpl in Ha. apply filter_In in Ha.
        eapply remove_bridges_incl. apply Ha.
      * now apply subgraph_well_formed.
      * intros _ a b Ha Hb'. apply In_nodes_subgraph in Ha, Hb'.
        destruct Ha as [_ Ha], Hb' as [_ Hb'].
        apply path_inside_component; [|assumption].
        apply reach_path in Ha, Hb'.
        apply path_trans with w; [|assumption].
        unfold nx.undirected in *. now apply path_sym.
    + exfalso. unfold nx.connected_components, max_len in Hmax. rewrite Hn in Hmax.
      destruct (g_nodes G); [congruence | simpl in Hmax; discriminate].
Qed.

Lemma bridge_filter_only_removes_witness :
  exists out,
    bridge_filter triangle_with_tail = Ok out /\
    incl (g_nodes out) (g_nodes triangle_with_tail) /\
    incl (g_arcs out) (g_arcs triangle_with_tail) /\
    well_formed out /\
    (nx.bridges triangle_with_tail <> [] -> connected out).
Proof.
  apply (bridge_filter_only_removes triangle_with_tail). concrete_well_formed.
Defined.

(** ** STEP 3 *)

Lemma tuple_of_shape (o : set_order) (fs : Z * Z) :
  (fst fs = snd fs /\ tuple_of o fs = [fst fs]) \/
  (fst fs <> snd fs /\
   (tuple_of o fs = [fst fs; snd fs] \/ tuple_of o fs = [snd fs; fst fs])).
Proof.
  unfold tuple_of. destruct (fst fs =? snd fs) eqn:H.
  - left. apply Z.eqb_eq in H. auto.
  - right. apply Z.eqb_neq in H. split; [assumption|].
    destruct (tuple_flip o fs); auto.
Qed.

Lemma self_loop_tuple (o : set_order) (G : graph) (a : arc) :
  In a (g_arcs G) -> flexible a = true -> src a = dst a ->
  In [src a] (undecided_edges o G).
Proof.
  intros Ha Hf Hloop. unfold undecided_edges. apply in_map_iff.
  exists (src a, src a). split.
  - unfold tuple_of. simpl. now rewrite Z.eqb_refl.
  - apply In_set_iter. unfold edges_to_decide. apply in_map_iff. exists a. split.
    + unfold frozenset2, ends. simpl. rewrite <- Hloop.
      now rewrite Z.min_id, Z.max_id.
    + apply filter_In. auto.
Qed.

Lemma orient_head_single (nodes : list node) (oriented : list (Z * Z))
  (x : node) (rest : list (list node)) :
  orient nodes oriented ([x] :: rest) = Raise IndexError.
Proof. reflexivity. Qed.

Lemma orient_bad_later (nodes : list node) (oriented : list (Z * Z))
  (u v : node) (rest : list (list node)) :
  (exists t, In t rest /\ ~ is_couple t) ->
  orient nodes oriented ([u; v] :: rest) = Raise ValueError.
Proof.
  intros Hbad. cbn [orient index nth_error rbind].
  unfold _is_still_strongly_connected.
  now rewrite (add_both_ways_bad_tuple rest _ Hbad).
Qed.

(** X11: how the solver ends.  It returns a committed list exactly when
    no flexible arc is a self-loop.  With a flexible self-loop it raises
    before committing anything: [IndexError] when the self-loop is the
    first edge of the processing sequence, [ValueError] from the first
    feasibility test when it comes later. *)
Theorem solver_outcomes (o : set_order) (G : graph) :
  ((forall a, In a (g_arcs G) -> flexible a = true -> src a <> dst a) <->
   exists committed, orientation_solver o G = Ok committed) /\
  ((exists a, In a (g_arcs G) /\ flexible a = true /\ src a = dst a) ->
   (exists x rest, undecided_edges o G = [x] :: rest /\
                   orientation_solver o G = Raise IndexError) \/
   (exists u v rest, undecided_edges o G = [u; v] :: rest /\
                     orientation_solver o G = Raise ValueError)).
Proof.
  assert (Hloop : (exists a, In a (g_arcs G) /\ flexible a = true /\ src a = dst a) ->
    (exists x rest, undecided_edges o G = [x] :: rest /\
                    orientation_solver o G = Raise IndexError) \/
    (exists u v rest, undecided_edges o G = [u; v] :: rest /\
                      orientation_solver o G = Raise ValueError)).
  { intros [a [Ha [Hf Hl]]].
    pose proof (self_loop_tuple o G a Ha Hf Hl) as Hin.
    unfold orientation_solver.
    destruct (undecided_edges o G) as [|t rest] eqn:Hund; [contradiction|].
    assert (Ht : In t (undecided_edges o G)) by (rewrite Hund; now left).
    unfold undecided_edges in Ht. apply in_map_iff in Ht. destruct Ht as [fs [Hfs _]].
    destruct (tuple_of_shape o fs) as [[_ H1]|[Hne [H2|H2]]];
      rewrite <- Hfs; rewrite ?H1, ?H2.
    - left. eexists; eexists. split; [reflexivity | apply orient_head_single].
    - right. eexists; eexists; eexists. split; [reflexivity|].
      apply orient_bad_later. exists [src a]. split.
      + destruct Hin as [Hin|Hin]; [|assumption]. congruence.
      + intros [u [v H]]. discriminate.
    - right. eexists; eexists; eexists. split; [reflexivity|].
      apply orient_bad_later. exists [src a]. split.
      + destruct Hin as [Hin|Hin]; [|assumption]. congruence.
      + intros [u [v H]]. discriminate. }
  split; [|exact Hloop]. split.
  - apply orientation_solver_total.
  - intros [committed Hrun] a Ha Hf Hl.
    destruct Hloop as [[x [rest [_ H]]]|[u [v [rest [_ H]]]]]; try congruence.
    exists a. auto.
Qed.

Lemma solver_outcomes_witness :
  (exists committed,
     orientation_solver (insertion_order false) square_flagged = Ok committed) /\
  ((exists x rest, undecided_edges (insertion_order false) loop_after_street = [x] :: rest /\
      orientation_solver (insertion_order false) loop_after_street = Raise IndexError) \/
   (exists u v rest,
      undecided_edges (insertion_order false) loop_after_street = [u; v] :: rest /\
      orientation_solver (insertion_order false) loop_after_street = Raise ValueError)).
Proof.
  split.
  - apply (proj1 (proj1 (solver_outcomes (insertion_order false) square_flagged))).
    intros a Ha _. vm_compute in Ha.
    repeat (destruct Ha as [<-|Ha]; [vm_compute; discriminate|]). contradiction.
  - apply (proj2 (solver_outcomes (insertion_order false) loop_after_street)).
    exists (mark (plain 3 3)). split; [simpl; tauto|]. split; reflexivity.
Defined.

(** ** STEP 4 *)

Lemma add_edges_from_arcs (ps : list (Z * Z)) (G : graph) :
  nx.arcs_of (add_edges_from G ps) = nx.arcs_of G ++ ps.
Proof.
  unfold add_edges_from. revert G. induction ps as [|p ps IH]; intros G; simpl.
  - now rewrite app_nil_r.
  - rewrite IH. unfold add_edge, nx.arcs_of. simpl. rewrite map_app. simpl.
    unfold ends. simpl. destruct p. simpl. now rewrite <- app_assoc.
Qed.

Lemma add_edges_from_In_nodes (ps : list (Z * Z)) (G : graph) (x : node) :
  In x (g_nodes (add_edges_from G ps)) <->
  In x (g_nodes G) \/ exists y, In (x, y) ps \/ In (y, x) ps.
Proof.
  unfold add_edges_from. revert G. induction ps as [|[a b] ps IH]; intros G; simpl.
  - split; [tauto|]. intros [H|[y [[]|[]]]]. assumption.
  - rewrite IH. unfold add_edge. simpl. rewrite !In_add_node. split.
    + intros [[[H|H]|H]|[y [H|H]]]; subst; pick_end.
    + intros [H|[y [[H|H]|[H|H]]]]; try (inversion H; subst); pick_end.
Qed.

Lemma add_edges_from_plain (ps : list (Z * Z)) (G : graph) (a : arc) :
  In a (g_arcs (add_edges_from G ps)) ->
  In a (g_arcs G) \/ (oneway a = false /\ flexible a = false).
Proof.
  unfold add_edges_from. revert G. induction ps as [|p ps IH]; intros G H; simpl in H.
  - now left.
  - destruct (IH _ H) as [Hin|Hp]; [|now right].
    unfold add_edge in Hin. simpl in Hin. apply in_app_or in Hin.
    destruct Hin as [Hin|[<-|[]]]; [now left | right; auto].
Qed.

Lemma build_final_same_graph (G : graph) (arcs : list (Z * Z)) :
  same_graph (g_nodes (build_final G arcs), nx.arcs_of (build_final G arcs))
             (fold_left di_add_edge arcs (add_nodes_from [] (g_nodes G), [])).
Proof.
  destruct (fold_di_add_edge arcs (add_nodes_from [] (g_nodes G), [])) as [HE HV].
  unfold build_final. split; cbn [fst snd].
  - intros x. rewrite add_edges_from_In_nodes, HV. reflexivity.
  - intros p. rewrite add_edges_from_arcs, HE. reflexivity.
Qed.

(** X12: the final verification is the solver's own test with nothing
    left undecided: [nx.is_strongly_connected] on the graph built from
    the nodes of the filtered graph and a list of arcs gives what
    [_is_still_strongly_connected] gives on those nodes and arcs with an
    empty list of undecided edges, the exception for the null graph
    included. *)
Theorem final_check_is_feasibility_test (G : graph) (arcs : list (Z * Z)) :
  nx.is_strongly_connected (build_final G arcs) =
  _is_still_strongly_connected (g_nodes G) arcs [].
Proof.
  unfold nx.is_strongly_connected, _is_still_strongly_connected.
  cbn [add_both_ways rbind].
  apply (is_strongly_connected_on_ext
           (g_nodes (build_final G arcs), nx.arcs_of (build_final G arcs))).
  apply build_final_same_graph.
Qed.

Lemma split_at_last {A} (l : list A) (i : nat) (d : A) :
  length l = S i -> nth_error l i = Some d -> l = firstn i l ++ [d].
Proof.
  revert i. induction l as [|a l IH]; intros i Hl Hn; [discriminate|].
  destruct i as [|i]; simpl in *.
  - injection Hn as <-. destruct l; [reflexivity | discriminate].
  - f_equal. apply IH; [lia | assumption].
Qed.

Lemma undecided_couple_distinct (o : set_order) (G : graph) (u v : node) :
  In [u; v] (undecided_edges o G) -> u <> v.
Proof.
  intros H. unfold undecided_edges in H. apply in_map_iff in H.
  destruct H as [fs [Hfs _]].
  destruct (tuple_of_shape o fs) as [[_ H1]|[Hne [H2|H2]]]; rewrite Hfs in *.
  - discriminate.
  - injection H2 as -> ->. assumption.
  - injection H2 as -> ->. congruence.
Qed.

(** X13: when the last edge of the processing sequence is committed in
    the direction it was tried, the final verification passes: the
    pipeline tail returns the graph built from the committed arcs, which
    has every node of the filtered graph, and the fallback is not used.
    The last arc of the committed list is always that edge, one way or
    the other. *)
Theorem last_forward_commit_passes
  (o : set_order) (G : graph) (committed : list (Z * Z))
  (before : list (list node)) (u v : node) :
  orientation_solver o G = Ok committed ->
  undecided_edges o G = before ++ [[u; v]] ->
  (exists so_far, committed = so_far ++ [(u, v)] \/ committed = so_far ++ [(v, u)]) /\
  (forall so_far, committed = so_far ++ [(u, v)] ->
     final_verification (build_final G committed) = Ok (build_final G committed) /\
     incl (g_nodes G) (g_nodes (build_final G committed))).
Proof.
  intros Hrun Hund. unfold orientation_solver in Hrun.
  destruct (orient_spec _ _ _ _ Hrun) as [ds [Hc [Hl Hds]]].
  assert (Hi : nth_error (undecided_edges o G) (length before) = Some [u; v]).
  { rewrite Hund, nth_error_app2, Nat.sub_diag by lia. reflexivity. }
  destruct (Hds _ _ Hi) as [u' [v' [ok [H0 [H1 [Ht Hn]]]]]].
  simpl in H0, H1. injection H0 as <-. injection H1 as <-.
  assert (Hlen : length ds = S (length before)).
  { rewrite Hl, Hund, length_app. simpl. lia. }
  assert (Hskip : skipn (S (length before)) (undecided_edges o G) = []).
  { apply skipn_all2. rewrite Hund, length_app. simpl. lia. }
  rewrite Hskip in Ht.
  pose proof (split_at_last ds (length before) _ Hlen Hn) as Hds'.
  assert (Hcom : committed =
                 (fixed_arcs o G ++ firstn (length before) ds)
                   ++ [if ok then (u, v) else (v, u)]).
  { rewrite Hc. rewrite Hds' at 1. now rewrite app_assoc. }
  split.
  - exists (fixed_arcs o G ++ firstn (length before) ds).
    destruct ok; [left | right]; exact Hcom.
  - intros so_far Hso. rewrite Hso in Hcom.
    apply app_inj_tail in Hcom. destruct Hcom as [Hsf Hd].
    assert (Hok : ok = true).
    { destruct ok; [reflexivity|]. exfalso.
      apply (undecided_couple_distinct o G u v).
      - rewrite Hund. apply in_or_app. right. now left.
      - congruence. }
    subst ok. split.
    + unfold final_verification.
      assert (Hsc : nx.is_strongly_connected (build_final G committed) = Ok true).
      { rewrite Hso, Hsf, <- app_assoc, <- Ht.
        unfold nx.is_strongly_connected, _is_still_strongly_connected.
        cbn [add_both_ways rbind].
        apply (is_strongly_connected_on_ext (g_nodes (build_final G _),
                                             nx.arcs_of (build_final G _))).
        apply build_final_same_graph. }
      rewrite Hsc. reflexivity.
    + intros x Hx. now apply build_final_nodes.
Qed.

Lemma last_forward_commit_passes_witness :
  final_verification (build_final triangle_flagged [(1, 2); (2, 3); (3, 1)])
    = Ok (build_final triangle_flagged [(1, 2); (2, 3); (3, 1)]).
Proof.
  apply (proj2 (last_forward_commit_passes round_trip_order triangle_flagged
                  [(1, 2); (2, 3); (3, 1)]
                  [[1; 2]; [2; 3]] 3 1 ltac:(vm_compute; reflexivity)
                  ltac:(vm_compute; reflexivity))
           [(1, 2); (2, 3)] eq_refl).
Defined.

Lemma count_arcs_app (u v : node) (l : list arc) (x : arc) :
  count_arcs u v (l ++ [x]) =
  (count_arcs u v l + (if joins u v x then 1 else 0))%nat.
Proof.
  unfold count_arcs. rewrite filter_app, length_app. simpl.
  destruct (joins u v x); reflexivity.
Qed.

Lemma add_edge_keys (G : graph) (p : Z * Z) :
  keys_in_order (g_arcs G) -> keys_in_order (g_arcs (add_edge G p)).
Proof.
  intros [Hnd Hlt]. unfold add_edge. cbn [g_arcs].
  fold (count_arcs (fst p) (snd p) (g_arcs G)).
  set (x := Arc (fst p) (snd p) (Z.of_nat (count_arcs (fst p) (snd p) (g_arcs G)))
                false false).
  split.
  - rewrite map_app. simpl. apply NoDup_app; [assumption | constructor; [intros [] | constructor] |].
    intros id Hid [<-|[]]. apply in_map_iff in Hid. destruct Hid as [b [Hb Hin]].
    unfold arc_id, ends in Hb. simpl in Hb. injection Hb as Hs Hd Hk.
    specialize (Hlt b Hin). rewrite Hs, Hd in Hlt. lia.
  - intros a Ha. rewrite count_arcs_app. apply in_app_or in Ha.
    destruct Ha as [Ha|[<-|[]]].
    + specialize (Hlt a Ha). destruct (joins (src a) (dst a) x); lia.
    + simpl. unfold joins. simpl. rewrite !Z.eqb_refl. simpl. lia.
Qed.

Lemma add_edges_from_keys (ps : list (Z * Z)) (G : graph) :
  keys_in_order (g_arcs G) -> keys_in_order (g_arcs (add_edges_from G ps)).
Proof.
  unfold add_edges_from. revert G. induction ps as [|p ps IH]; intros G H; simpl.
  - assumption.
  - apply IH. now apply add_edge_keys.
Qed.

Lemma add_node_NoDup (ns : list node) (n : node) : NoDup ns -> NoDup (add_node ns n).
Proof. exact (add_new_NoDup ns n). Qed.

Lemma add_nodes_from_NoDup (new ns : list node) :
  NoDup ns -> NoDup (add_nodes_from ns new).
Proof.
  unfold add_nodes_from. revert ns. induction new as [|n new IH]; intros ns H; simpl.
  - assumption.
  - apply IH. now apply add_node_NoDup.
Qed.

Lemma add_edges_from_NoDup (ps : list (Z * Z)) (G : graph) :
  NoDup (g_nodes G) -> NoDup (g_nodes (add_edges_from G ps)).
Proof.
  unfold add_edges_from. revert G. induction ps as [|p ps IH]; intros G H; simpl.
  - assumption.
  - apply IH. unfold add_edge. simpl. now apply add_node_NoDup, add_node_NoDup.
Qed.

(** X14: the graph built on lines 102-104 from the committed arcs.  Its
    arcs are the committed arcs, in that order, one arc per entry of the
    list, repeated entries told apart by their keys; no arc carries a
    [oneway] or [flexible] attribute; its nodes are the nodes of the
    filtered graph and the ends of the arcs, each once; and every arc
    joins two of its nodes. *)
Theorem build_final_structure (G : graph) (arcs : list (Z * Z)) :
  nx.arcs_of (build_final G arcs) = arcs /\
  (forall a, In a (g_arcs (build_final G arcs)) ->
             oneway a = false /\ flexible a = false) /\
  keys_in_order (g_arcs (build_final G arcs)) /\
  (forall x, In x (g_nodes (build_final G arcs)) <->
             In x (g_nodes G) \/ exists y, In (x, y) arcs \/ In (y, x) arcs) /\
  NoDup (g_nodes (build_final G arcs)) /\
  well_formed (build_final G arcs).
Proof.
  unfold build_final. split; [apply add_edges_from_arcs|]. split.
  { intros a Ha. apply add_edges_from_plain in Ha. destruct Ha as [[]|Ha]. exact Ha. }
  split.
  { apply add_edges_from_keys. split; [constructor | intros a []]. }
  assert (Hn : forall x,
             In x (g_nodes (add_edges_from (Graph (add_nodes_from [] (g_nodes G)) []) arcs)) <->
             In x (g_nodes G) \/ exists y, In (x, y) arcs \/ In (y, x) arcs).
  { intros x. rewrite add_edges_from_In_nodes. simpl. rewrite In_add_nodes_from.
    simpl. tauto. }
  split; [exact Hn|]. split.
  { apply add_edges_from_NoDup. simpl. apply add_nodes_from_NoDup. constructor. }
  intros a Ha.
  assert (Hp : In (src a, dst a)
                  (nx.arcs_of (add_edges_from (Graph (add_nodes_from [] (g_nodes G)) []) arcs))).
  { apply In_arcs_of. exists a. auto. }
  rewrite add_edges_from_arcs in Hp. simpl in Hp.
  split; apply Hn; right; [exists (dst a) | exists (src a)]; auto.
Qed.

(** ** What the pipeline keeps of its input *)

Lemma committed_backed (o : set_order) (G : graph) (committed : list (Z * Z)) (p : Z * Z) :
  orientation_solver o G = Ok committed -> In p committed ->
  (exists a, In a (g_arcs G) /\ flexible a = false /\ ends a = p) \/
  (exists a, In a (g_arcs G) /\ flexible a = true /\ (ends a = p \/ ends a = swap p)).
Proof.
  intros Hrun Hin. destruct (orientation_solver_spec _ _ _ Hrun) as [ds [-> [Hm _]]].
  apply in_app_or in Hin. destruct Hin as [Hin|Hin].
  - left. unfold fixed_arcs in Hin. apply In_set_iter in Hin. apply in_map_iff in Hin.
    destruct Hin as [a [Ha Hin]]. apply filter_In in Hin. destruct Hin as [Hin Hf].
    apply negb_true_iff in Hf. eauto.
  - right.
    assert (Hfs : In (frozenset2 p) (set_iter o (edges_to_decide G))).
    { rewrite <- Hm. now apply in_map. }
    apply In_set_iter in Hfs. unfold edges_to_decide in Hfs. apply in_map_iff in Hfs.
    destruct Hfs as [a [Ha Hia]]. apply filter_In in Hia. destruct Hia as [Hia Hf].
    exists a. split; [assumption|]. split; [assumption|]. now apply frozenset2_eq.
Qed.

(** X15: the solver invents no connection.  Every committed arc is an arc
    of the filtered graph without the [flexible] flag, in its own
    direction, or a flexible arc of that graph in one of its two
    directions; and the list holds one arc for every distinct pair of
    ends of the unflagged arcs and one for every distinct flexible
    connection. *)
Theorem solver_commits_graph_arcs (o : set_order) (G : graph) (committed : list (Z * Z)) :
  orientation_solver o G = Ok committed ->
  (forall p, In p committed ->
     (exists a, In a (g_arcs G) /\ flexible a = false /\ ends a = p) \/
     (exists a, In a (g_arcs G) /\ flexible a = true /\ (ends a = p \/ ends a = swap p))) /\
  length committed =
  (length (nodup pair_eq_dec (map ends (filter (fun a => negb (flexible a)) (g_arcs G)))) +
   length (nodup pair_eq_dec (edges_to_decide G)))%nat.
Proof.
  intros Hrun. split; [intros p Hp; exact (committed_backed o G committed p Hrun Hp)|].
  destruct (orientation_solver_spec _ _ _ Hrun) as [ds [-> [Hm _]]].
  rewrite length_app. f_equal.
  - unfold fixed_arcs. apply Permutation_length, set_iter_perm.
  - rewrite <- (length_map frozenset2 ds), Hm. apply Permutation_length, set_iter_perm.
Qed.

Lemma solver_commits_graph_arcs_witness :
  length [(2, 1); (1, 3); (3, 2); (1, 2)] =
  (length (nodup pair_eq_dec
             (map ends (filter (fun a => negb (flexible a))
                               (g_arcs triangle_with_return_flagged)))) +
   length (nodup pair_eq_dec (edges_to_decide triangle_with_return_flagged)))%nat.
Proof.
  apply (proj2 (solver_commits_graph_arcs (insertion_order false)
                  triangle_with_return_flagged [(2, 1); (1, 3); (3, 2); (1, 2)]
                  ltac:(vm_compute; reflexivity))).
Defined.

Lemma flag_loop_ends (todo cur : list arc) :
  map ends (fst (flag_loop todo cur)) = map ends cur.
Proof.
  revert cur. induction todo as [|b todo IH]; intros cur; simpl; [reflexivity|].
  destruct (oneway b); [apply IH|]. unfold set_flexible.
  destruct (existsb (is_key0 (src b) (dst b)) cur); [|reflexivity].
  rewrite IH, map_map. apply map_ext. intros a.
  destruct (is_key0 (src b) (dst b) a); reflexivity.
Qed.

Lemma flag_flexible_keeps (G : graph) :
  g_nodes (fst (flag_flexible G)) = g_nodes G /\
  nx.arcs_of (fst (flag_flexible G)) = nx.arcs_of G.
Proof.
  unfold flag_flexible, nx.arcs_of. simpl. split; [reflexivity | apply flag_loop_ends].
Qed.

Lemma well_formed_arcs_of (G G' : graph) :
  g_nodes G' = g_nodes G -> nx.arcs_of G' = nx.arcs_of G ->
  well_formed G -> well_formed G'.
Proof.
  intros Hn Ha Hwf a Hin.
  assert (Hp : In (src a, dst a) (nx.arcs_of G')) by (apply In_arcs_of; eauto).
  rewrite Ha in Hp. apply In_arcs_of in Hp. destruct Hp as [b [Hb [Hs Hd]]].
  rewrite Hn, <- Hs, <- Hd. now apply Hwf.
Qed.

Lemma bridge_filter_incl (G out : graph) :
  well_formed G -> bridge_filter G = Ok out ->
  incl (g_nodes out) (g_nodes G) /\ incl (g_arcs out) (g_arcs G) /\ well_formed out.
Proof.
  intros Hwf. unfold bridge_filter.
  destruct (nonempty (nx.bridges G)).
  - set (G' := remove_bridges G (nx.bridges G)).
    destruct (max_len (nx.connected_components G')) as [c|e]; [|discriminate].
    cbn [rbind]. intros H. injection H as <-.
    assert (Hn : g_nodes G' = g_nodes G) by apply remove_bridges_nodes.
    split; [|split].
    + intros x Hx. apply In_nodes_subgraph in Hx. rewrite <- Hn. tauto.
    + intros a Ha. unfold subgraph in Ha. simpl in Ha. apply filter_In in Ha.
      eapply remove_bridges_incl. apply Ha.
    + apply subgraph_well_formed. intros a Ha. rewrite Hn. apply Hwf.
      eapply remove_bridges_incl. exact Ha.
  - intros H. injection H as <-. split; [apply incl_refl|]. split; [apply incl_refl|].
    assumption.
Qed.

(** What the filters leave of a well-formed graph. *)
Lemma filtered_incl (g_raw g : graph) :
  well_formed g_raw -> filtered g_raw = Ok g ->
  incl (g_nodes g) (g_nodes g_raw) /\
  (forall p, In p (nx.arcs_of g) -> In p (nx.arcs_of g_raw)) /\
  well_formed g.
Proof.
  intros Hwf. unfold filtered.
  destruct (flag_flexible_keeps g_raw) as [Hn Ha].
  destruct (flag_flexible g_raw) as [g1 [[]|e]]; [|discriminate]. cbn [fst] in Hn, Ha.
  assert (Hwf1 : well_formed g1) by (now apply (well_formed_arcs_of g_raw)).
  destruct (bridge_filter g1) as [g2|e] eqn:Hb; [|discriminate]. cbn [rbind].
  intros H. injection H as <-.
  destruct (bridge_filter_incl g1 g2 Hwf1 Hb) as [N2 [A2 Hwf2]].
  destruct (cut_node_filter_incl g2) as [N3 A3].
  split; [|split].
  - intros x Hx. rewrite <- Hn. apply N2, N3, Hx.
  - intros p Hp. rewrite <- Ha. unfold nx.arcs_of in *. apply in_map_iff in Hp.
    destruct Hp as [a [<- Hin]]. apply in_map. apply A2, A3, Hin.
  - now apply cut_node_filter_well_formed.
Qed.

(** X16: the pipeline only takes away and turns around.  On a graph whose
    arcs join nodes of the graph, whatever it returns has nodes of the
    input only (nodes of the filtered graph, in fact), every arc of the
    result joins two nodes that an arc of the input joins, in that
    direction or the other, and no arc of the result carries a [oneway]
    or [flexible] attribute. *)
Theorem pipeline_result_within_input (o : set_order) (g_raw result : graph) :
  well_formed g_raw -> run o g_raw = Ok result ->
  (exists g, filtered g_raw = Ok g /\ incl (g_nodes result) (g_nodes g)) /\
  incl (g_nodes result) (g_nodes g_raw) /\
  (forall p, In p (nx.arcs_of result) -> connection_of g_raw p) /\
  (forall a, In a (g_arcs result) -> oneway a = false /\ flexible a = false).
Proof.
  intros Hwf. rewrite run_pipeline. unfold pipeline.
  destruct (filtered g_raw) as [g|e] eqn:Hf; [|discriminate]. cbn [rbind].
  destruct (filtered_incl g_raw g Hwf Hf) as [Ng [Ag Hwfg]].
  destruct (orientation_solver o g) as [committed|e] eqn:Hs; [|discriminate]. cbn [rbind].
  intros Hv.
  assert (Hres : incl (g_nodes result) (g_nodes (build_final g committed)) /\
                 incl (g_arcs result) (g_arcs (build_final g committed))).
  { destruct (final_verification_spec _ _ Hv) as [_ [_ [[_ ->]|[_ ->]]]].
    - split; apply incl_refl.
    - apply get_largest_scc_incl. }
  destruct Hres as [Nr Ar].
  assert (Nf : incl (g_nodes (build_final g committed)) (g_nodes g)).
  { intros x Hx. unfold build_final in Hx. apply add_edges_from_In_nodes in Hx.
    simpl in Hx. rewrite In_add_nodes_from in Hx.
    destruct Hx as [[[]|Hx]|[y [Hy|Hy]]]; [assumption | |];
      now apply (committed_in_nodes o g committed _ _ Hwfg Hs) in Hy. }
  split; [exists g; split; [reflexivity | intros x Hx; apply Nf, Nr, Hx]|].
  split; [intros x Hx; apply Ng, Nf, Nr, Hx|]. split.
  - intros p Hp. unfold nx.arcs_of in Hp. apply in_map_iff in Hp.
    destruct Hp as [a [<- Ha]]. apply Ar in Ha.
    assert (Hc : In (ends a) (nx.arcs_of (build_final g committed)))
      by (unfold nx.arcs_of; now apply in_map).
    unfold build_final in Hc. rewrite add_edges_from_arcs in Hc. simpl in Hc.
    assert (Hback : exists b, In b (g_arcs g) /\ (ends b = ends a \/ ends b = swap (ends a))).
    { destruct (committed_backed o g committed _ Hs Hc) as [[b [Hb [_ He]]]|[b [Hb [_ He]]]];
        exists b; auto. }
    destruct Hback as [b [Hb He]].
    assert (Hraw : In (ends b) (nx.arcs_of g_raw)).
    { apply Ag. unfold nx.arcs_of. now apply in_map. }
    unfold nx.arcs_of in Hraw. apply in_map_iff in Hraw. destruct Hraw as [c [Hc1 Hc2]].
    exists c. split; [assumption|]. rewrite Hc1. exact He.
  - intros a Ha. apply Ar in Ha. unfold build_final in Ha.
    apply add_edges_from_plain in Ha. destruct Ha as [[]|Ha]. exact Ha.
Qed.

Lemma pipeline_result_within_input_witness :
  incl (g_nodes square_clockwise) (g_nodes square).
Proof.
  apply (proj1 (proj2 (pipeline_result_within_input (insertion_order false) square
                         square_clockwise ltac:(concrete_well_formed)
                         ltac:(vm_compute; reflexivity)))).
Defined.

(** ** When no orientation can work *)

Lemma decision_in_both_ways (o : set_order) (G : graph) (ds : list (Z * Z)) (d : Z * Z) :
  map frozenset2 ds = set_iter o (edges_to_decide G) ->
  Forall (fun d => fst d <> snd d) ds ->
  In d ds -> In d (both_ways (undecided_edges o G)).
Proof.
  intros Hm Hne Hd.
  assert (Hfs : In (frozenset2 d) (set_iter o (edges_to_decide G))).
  { rewrite <- Hm. now apply in_map. }
  assert (Ht : In (tuple_of o (frozenset2 d)) (undecided_edges o G)).
  { unfold undecided_edges. now apply in_map. }
  rewrite Forall_forall in Hne. specialize (Hne d Hd).
  destruct d as [x y]. simpl in Hne.
  apply In_both_ways.
  destruct (tuple_of_shape o (frozenset2 (x, y))) as [[Heq _]|[_ Hor]].
  - unfold frozenset2 in Heq. simpl in Heq. lia.
  - destruct Hor as [H|H]; rewrite H in Ht; unfold frozenset2 in Ht; simpl in Ht;
      destruct (Z.min_spec x y) as [[L1 E1]|[L1 E1]],
               (Z.max_spec x y) as [[L2 E2]|[L2 E2]];
      rewrite E1, E2 in Ht; try lia;
      eexists; eexists; (split; [exact Ht | auto]).
Qed.

Lemma relaxed_arcs_in_nodes (o : set_order) (G : graph) (x y : node) :
  well_formed G ->
  In (x, y) (fixed_arcs o G ++ both_ways (undecided_edges o G)) ->
  In x (g_nodes G) /\ In y (g_nodes G).
Proof.
  intros Hwf H. apply in_app_or in H. destruct H as [H|H].
  - unfold fixed_arcs in H. apply In_set_iter in H. apply in_map_iff in H.
    destruct H as [a [Ha Hin]]. apply filter_In in Hin. destruct Hin as [Hin _].
    unfold ends in Ha. injection Ha as <- <-. now apply Hwf.
  - apply In_both_ways in H. destruct H as [u [v [Ht Hp]]].
    destruct (undecided_tuple_in_nodes o G u v Hwf Ht) as [Hu Hv].
    destruct Hp as [Hp|Hp]; injection Hp as -> ->; auto.
Qed.

(** Fewer arcs on the same nodes cannot be strongly connected where more
    arcs are not. *)
Lemma feasible_mono (o : set_order) (G : graph) (E : list (Z * Z)) :
  well_formed G ->
  (forall p, In p E -> In p (fixed_arcs o G ++ both_ways (undecided_edges o G))) ->
  feasible (g_nodes G) E ->
  feasible (g_nodes G) (fixed_arcs o G ++ both_ways (undecided_edges o G)).
Proof.
  intros Hwf Hincl Hf a b Ha Hb.
  assert (Hnode : forall x,
             trial_node (g_nodes G) (fixed_arcs o G ++ both_ways (undecided_edges o G)) x ->
             In x (g_nodes G)).
  { intros x [H|[y [H|H]]]; [assumption | |];
      now apply (relaxed_arcs_in_nodes o G _ _ Hwf) in H. }
  apply path_incl with E; [exact Hincl|].
  apply Hf; left; now apply Hnode.
Qed.

(** X17: when the filtered graph is not strongly connected even with
    every flexible edge usable both ways, every feasibility test answers
    no: each flexible edge is committed against the direction it was
    tried in, the final verification fails, and the pipeline tail falls
    back to the largest strongly connected component. *)
Theorem hopeless_graph_reverses_every_edge
  (o : set_order) (G : graph) (committed : list (Z * Z)) :
  well_formed G -> g_nodes G <> [] ->
  orientation_solver o G = Ok committed ->
  _is_still_strongly_connected (g_nodes G) (fixed_arcs o G) (undecided_edges o G)
    = Ok false ->
  (forall i u v, nth_error (undecided_edges o G) i = Some [u; v] ->
     nth_error committed (length (fixed_arcs o G) + i) = Some (v, u)) /\
  final_verification (build_final G committed)
    = Ok (get_largest_scc (build_final G committed)).
Proof.
  intros Hwf Hne Hrun Hrelax.
  assert (Hx : forall E, exists x, trial_node (g_nodes G) E x).
  { intros E. destruct (g_nodes G) as [|n ns]; [congruence|]. exists n. left. now left. }
  assert (Hno : ~ feasible (g_nodes G)
                  (fixed_arcs o G ++ both_ways (undecided_edges o G))).
  { destruct (_is_still_strongly_connected_spec (g_nodes G) (fixed_arcs o G)
                (undecided_edges o G)) as [ok [Hok Hiff]].
    - eapply _is_still_strongly_connected_ok_couples. exact Hrelax.
    - apply Hx.
    - rewrite Hrelax in Hok. injection Hok as <-. intros Hf. apply Hiff in Hf. discriminate. }
  destruct (orientation_solver_spec _ _ _ Hrun) as [ds [Hc [Hm Hdist]]].
  pose proof Hrun as Hrun'. unfold orientation_solver in Hrun'.
  destruct (orient_spec _ _ _ _ Hrun') as [ds' [Hc' [Hl Hds]]].
  assert (ds' = ds) by (rewrite Hc in Hc'; now apply app_inv_head in Hc'). subst ds'.
  split.
  - intros i u v Hi.
    destruct (Hds i _ Hi) as [u' [v' [ok [H0 [H1 [Ht Hn]]]]]].
    simpl in H0, H1. injection H0 as <-. injection H1 as <-.
    rewrite Hc, nth_error_app2 by lia.
    replace (length (fixed_arcs o G) + i - length (fixed_arcs o G))%nat with i by lia.
    destruct ok; [exfalso | exact Hn].
    destruct (_is_still_strongly_connected_spec (g_nodes G)
                (fixed_arcs o G ++ firstn i ds ++ [(u, v)])
                (skipn (S i) (undecided_edges o G))) as [ok' [Hok' Hiff]].
    + eapply _is_still_strongly_connected_ok_couples. exact Ht.
    + apply Hx.
    + rewrite Ht in Hok'. injection Hok' as <-.
      apply Hno.
      apply (feasible_mono o G ((fixed_arcs o G ++ firstn i ds ++ [(u, v)]) ++
                                both_ways (skipn (S i) (undecided_edges o G))) Hwf);
        [|now apply Hiff].
      intros p Hp. rewrite !in_app_iff in Hp. apply in_or_app.
      destruct Hp as [[Hp|[Hp|Hp]]|Hp].
      * now left.
      * right. apply (decision_in_both_ways o G ds); try assumption.
        eapply firstn_incl. exact Hp.
      * right. destruct Hp as [<-|[]]. apply In_both_ways. exists u, v.
        split; [eapply nth_error_In; exact Hi | auto].
      * right. apply In_both_ways in Hp. destruct Hp as [a [b [Hab Hp]]].
        apply In_both_ways. exists a, b. split; [eapply skipn_incl; exact Hab | exact Hp].
  - unfold final_verification.
    assert (Hsc : nx.is_strongly_connected (build_final G committed)
                  = _is_still_strongly_connected (g_nodes G) committed []).
    { unfold nx.is_strongly_connected, _is_still_strongly_connected.
      cbn [add_both_ways rbind].
      apply (is_strongly_connected_on_ext (g_nodes (build_final G committed),
                                           nx.arcs_of (build_final G committed))).
      apply build_final_same_graph. }
    rewrite Hsc.
    destruct (_is_still_strongly_connected_spec (g_nodes G) committed [] (Forall_nil _)
                (Hx _)) as [ok [Hok Hiff]].
    rewrite Hok. cbn [rbind]. destruct ok; [exfalso | reflexivity].
    apply Hno. apply (feasible_mono o G (committed ++ both_ways []) Hwf);
      [|now apply Hiff].
    intros p Hp. simpl in Hp. rewrite app_nil_r in Hp. rewrite Hc in Hp.
    apply in_app_or in Hp. apply in_or_app. destruct Hp as [Hp|Hp]; [now left | right].
    now apply (decision_in_both_ways o G ds).
Qed.

Lemma hopeless_graph_reverses_every_edge_witness :
  filtered two_islands = Ok two_islands_flagged /\
  final_verification
    (build_final two_islands_flagged
                 [(2, 1); (3, 2); (3, 1); (5, 4); (6, 5); (7, 6); (7, 4)])
  = Ok (get_largest_scc
          (build_final two_islands_flagged
                       [(2, 1); (3, 2); (3, 1); (5, 4); (6, 5); (7, 6); (7, 4)])).
Proof.
  split; [vm_compute; reflexivity|].
  apply (proj2 (hopeless_graph_reverses_every_edge (insertion_order false)
                  two_islands_flagged
                  [(2, 1); (3, 2); (3, 1); (5, 4); (6, 5); (7, 6); (7, 4)]
                  ltac:(concrete_well_formed) ltac:(discriminate)
                  ltac:(vm_compute; reflexivity) ltac:(vm_compute; reflexivity))).
Defined.

(** ** How a run of the pipeline ends *)

Lemma bridge_filter_total (G : graph) :
  well_formed G -> exists out, bridge_filter G = Ok out.
Proof.
  intros Hwf. unfold bridge_filter.
  destruct (nx.bridges G) as [|p bs] eqn:Hb; [cbn [nonempty]; eauto|].
  cbn [nonempty]. rewrite <- Hb.
  destruct (max_len (nx.connected_components (remove_bridges G (nx.bridges G))))
    as [c|e] eqn:Hmax; [cbn [rbind]; eauto|].
  exfalso. unfold nx.connected_components, max_len in Hmax.
  rewrite remove_bridges_nodes in Hmax.
  destruct (g_nodes G) as [|n ns] eqn:Hn; [|simpl in Hmax; discriminate].
  destruct (g_arcs G) as [|a l] eqn:Ha.
  - rewrite (bridges_need_arcs G Ha) in Hb. discriminate.
  - destruct (Hwf a) as [Hs _]; [rewrite Ha; now left|]. rewrite Hn in Hs. contradiction.
Qed.

Lemma no_node_no_arc (G : graph) : well_formed G -> g_nodes G = [] -> G = empty_graph.
Proof.
  intros Hwf Hn. destruct G as [ns es]. simpl in Hn. subst ns.
  destruct es as [|a es]; [reflexivity|].
  destruct (Hwf a (or_introl eq_refl)) as [[] _].
Qed.

(** X18: how a run ends, on a graph whose arcs join nodes of the graph.
    [KeyError] exactly when an arc not marked one-way has no arc with
    key 0 beside it.  Otherwise the filters return a graph, and then: the
    networkx exception for the null graph when that graph has no node;
    [IndexError] or [ValueError] when it has a flexible self-loop; and a
    graph in every other case. *)
Theorem pipeline_outcomes (o : set_order) (g_raw : graph) :
  well_formed g_raw ->
  (~ key0_present g_raw -> run o g_raw = Raise KeyError) /\
  (key0_present g_raw ->
   exists g, filtered g_raw = Ok g /\
     (g_nodes g = [] -> run o g_raw = Raise NetworkXPointlessConcept) /\
     ((exists a, In a (g_arcs g) /\ flexible a = true /\ src a = dst a) ->
      run o g_raw = Raise IndexError \/ run o g_raw = Raise ValueError) /\
     (g_nodes g <> [] ->
      (forall a, In a (g_arcs g) -> flexible a = true -> src a <> dst a) ->
      exists result, run o g_raw = Ok result)).
Proof.
  intros Hwf. rewrite run_pipeline. unfold pipeline, filtered. split.
  - intros Hk.
    assert (Hr : snd (flag_flexible g_raw) = Raise KeyError).
    { unfold flag_flexible. cbn [snd].
      assert (Hcases : forall l,
                (forall b, In b l -> oneway b = false ->
                           existsb (is_key0 (src b) (dst b)) (g_arcs g_raw) = true) \/
                (exists b, In b l /\ oneway b = false /\
                           existsb (is_key0 (src b) (dst b)) (g_arcs g_raw) = false)).
      { induction l as [|c l [IH|[b [Hb1 [Hb2 Hb3]]]]].
        - left. intros b [].
        - destruct (oneway c) eqn:Hc.
          + left. intros b [<-|Hb] Ho; [congruence | now apply IH].
          + destruct (existsb (is_key0 (src c) (dst c)) (g_arcs g_raw)) eqn:Hx.
            * left. intros b [<-|Hb] Ho; [assumption | now apply IH].
            * right. exists c. split; [now left | auto].
        - right. exists b. split; [now right | auto]. }
      destruct (Hcases (g_arcs g_raw)) as [Hall|[b [Hb [Ho Hno]]]].
      - exfalso. apply Hk. intros b Hb Ho. apply key0_present_spec. now apply Hall.
      - now apply (flag_loop_raises _ _ b). }
    destruct (flag_flexible g_raw) as [g1 r]. cbn [snd] in Hr. now rewrite Hr.
  - intros Hk.
    destruct (flag_flexible_keeps g_raw) as [Hn Ha].
    assert (Hok : snd (flag_flexible g_raw) = Ok tt).
    { unfold flag_flexible. rewrite flag_loop_spec; [reflexivity|].
      intros b Hb Ho. apply key0_present_spec. now apply Hk. }
    destruct (flag_flexible g_raw) as [g1 r]. cbn [fst snd] in Hn, Ha, Hok. subst r.
    assert (Hwf1 : well_formed g1) by (now apply (well_formed_arcs_of g_raw)).
    destruct (bridge_filter_total g1 Hwf1) as [g2 Hb]. rewrite Hb. cbn [rbind].
    destruct (bridge_filter_incl g1 g2 Hwf1 Hb) as [_ [_ Hwf2]].
    pose proof (cut_node_filter_well_formed g2 Hwf2) as Hwf3.
    exists (cut_node_filter g2). split; [reflexivity|].
    set (g := cut_node_filter g2) in *. split; [|split].
    + intros Hnil. rewrite (no_node_no_arc g Hwf3 Hnil).
      unfold orientation_solver, fixed_arcs, undecided_edges, edges_to_decide. simpl.
      rewrite set_iter_nil. reflexivity.
    + intros [a [Hin [Hf Hl]]].
      pose proof (self_loop_tuple o g a Hin Hf Hl) as Ht.
      unfold orientation_solver.
      destruct (undecided_edges o g) as [|t rest] eqn:Hund; [contradiction|].
      assert (Hin0 : In t (undecided_edges o g)) by (rewrite Hund; now left).
      unfold undecided_edges in Hin0. apply in_map_iff in Hin0.
      destruct Hin0 as [fs [Hfs _]].
      destruct (tuple_of_shape o fs) as [[_ H1]|[Hne [H2|H2]]];
        rewrite <- Hfs; rewrite ?H1, ?H2.
      * left. reflexivity.
      * right. rewrite orient_bad_later; [reflexivity|]. exists [src a]. split.
        -- destruct Ht as [Ht|Ht]; [congruence | assumption].
        -- intros [u [v H]]. discriminate.
      * right. rewrite orient_bad_later; [reflexivity|]. exists [src a]. split.
        -- destruct Ht as [Ht|Ht]; [congruence | assumption].
        -- intros [u [v H]]. discriminate.
    + intros Hne Hloop.
      destruct (orientation_solver_total o g Hloop) as [committed Hc].
      rewrite Hc. cbn [rbind]. apply final_verification_total.
      destruct (g_nodes g) as [|n ns] eqn:Hns; [congruence|].
      intros Hnil.
      assert (Hin : In n (g_nodes (build_final g committed))).
      { apply build_final_nodes. rewrite Hns. now left. }
      rewrite Hnil in Hin. contradiction.
Qed.

Lemma pipeline_outcomes_witness :
  run (insertion_order false) (Graph [1; 2] [Arc 1 2 1 false false]) = Raise KeyError /\
  exists g, filtered facing_streets = Ok g /\
    (g_nodes g = [] ->
     run (insertion_order false) facing_streets = Raise NetworkXPointlessConcept).
Proof.
  split.
  - apply (proj1 (pipeline_outcomes (insertion_order false)
                    (Graph [1; 2] [Arc 1 2 1 false false]) ltac:(concrete_well_formed))).
    intros H. destruct (H (Arc 1 2 1 false false)) as [a [Ha [_ [_ Hk]]]];
      [simpl; auto | reflexivity|].
    destruct Ha as [<-|[]]. discriminate.
  - destruct (proj2 (pipeline_outcomes (insertion_order false) facing_streets
                       ltac:(concrete_well_formed))) as [g [Hg [H _]]].
    + intros b Hb Ho. vm_compute in Hb.
      repeat (destruct Hb as [<-|Hb]; [discriminate Ho|]). contradiction.
    + exists g. auto.
Defined.

(** ** No bridge is left after STEP 1 *)

Lemma In_without (p q : Z * Z) (E : list (Z * Z)) :
  In q (nx.without p E) <-> In q E /\ q <> p /\ q <> swap p.
Proof.
  unfold nx.without. rewrite filter_In, andb_true_iff, !negb_true_iff. split.
  - intros [H [H1 H2]]. split; [assumption|]. split; intros ->.
    + rewrite (proj2 (pair_eqb_eq p p) eq_refl) in H1. discriminate.
    + rewrite (proj2 (pair_eqb_eq (swap p) (swap p)) eq_refl) in H2. discriminate.
  - intros [H [H1 H2]]. split; [assumption|]. split.
    + destruct (pair_eqb q p) eqn:He; [|reflexivity]. apply pair_eqb_eq in He. contradiction.
    + destruct (pair_eqb q (swap p)) eqn:He; [|reflexivity].
      apply pair_eqb_eq in He. contradiction.
Qed.

Lemma swap_swap (p : Z * Z) : swap (swap p) = p.
Proof. destruct p. reflexivity. Qed.

Lemma without_symmetric (p : Z * Z) (E : list (Z * Z)) :
  symmetric E -> symmetric (nx.without p E).
Proof.
  intros Hs x y H. apply In_without in H. destruct H as [H [H1 H2]].
  apply In_without. split; [now apply Hs|]. split; intros Heq.
  - apply H2. rewrite <- Heq. reflexivity.
  - apply H1. rewrite <- (swap_swap p), <- Heq. reflexivity.
Qed.

Lemma sym_symmetric (A : list (Z * Z)) : symmetric (nx.sym A).
Proof. intros x y H. apply In_sym. apply In_sym in H. tauto. Qed.

Lemma path_symmetric (E : list (Z * Z)) (a b : node) :
  symmetric E -> path E a b -> path E b a.
Proof.
  intros Hs H. induction H as [a|a x b Hax _ IH].
  - apply path_refl.
  - apply path_trans with x; [exact IH|]. apply path_step. now apply Hs.
Qed.

(** Taking a bridge [f] out of a graph leaves every other edge that was
    on a cycle on a cycle. *)
Lemma cycle_survives_bridge (E : list (Z * Z)) (f e : Z * Z) :
  symmetric E ->
  ~ path (nx.without f E) (fst f) (snd f) ->
  In e E -> e <> f -> e <> swap f ->
  path (nx.without e E) (fst e) (snd e) ->
  path (nx.without e (nx.without f E)) (fst e) (snd e).
Proof.
  intros Hs Hbridge He Hef Hef' Hp.
  destruct f as [a b], e as [u v]. simpl in *.
  set (Ef := nx.without (a, b) E) in *.
  set (S := fun x => memZ x (reach Ef a)).
  assert (Sa : S a = true) by (apply memZ_In, reach_path, path_refl).
  assert (Sb : S b = false).
  { apply memZ_false. intros H. apply reach_path in H. contradiction. }
  assert (Hsf : symmetric Ef) by (now apply without_symmetric).
  assert (Hclosed : forall x y, In (x, y) Ef -> S x = S y).
  { intros x y Hxy. unfold S. apply eq_true_iff_eq. rewrite !memZ_In, !reach_path. split.
    - intros H. apply path_trans with x; [assumption | now apply path_step].
    - intros H. apply path_trans with y; [assumption|]. apply path_step. now apply Hsf. }
  set (tgt := if S v then a else b).
  assert (Hmain : forall x z, path (nx.without (u, v) E) x z -> z = v ->
            (S x = S v -> path (nx.without (u, v) Ef) x v) /\
            (S x <> S v -> path (nx.without (u, v) Ef) tgt v)).
  { intros x z Hx. induction Hx as [x|x y z Hxy Hyz IH]; intros Hz.
    - subst x. split; [intros _; apply path_refl | congruence].
    - unfold step in Hxy. apply In_without in Hxy. destruct Hxy as [HE [Hn1 Hn2]].
      destruct (IH Hz) as [IH1 IH2]. clear IH Hyz Hz z.
      destruct (pair_eq_dec (x, y) (a, b)) as [Hab|Hab];
        [|destruct (pair_eq_dec (x, y) (b, a)) as [Hba|Hba]].
      + injection Hab as -> ->. split.
        * intros Hv. assert (Ht : tgt = a) by (unfold tgt; now rewrite <- Hv, Sa).
          rewrite <- Ht. apply IH2. congruence.
        * intros Hv. assert (Hvb : S v = false) by (destruct (S v); congruence).
          assert (Ht : tgt = b) by (unfold tgt; now rewrite Hvb).
          rewrite Ht. apply IH1. congruence.
      + injection Hba as -> ->. split.
        * intros Hv. assert (Hvb : S v = false) by congruence.
          assert (Ht : tgt = b) by (unfold tgt; now rewrite Hvb).
          rewrite <- Ht. apply IH2. congruence.
        * intros Hv. assert (Hva : S v = true) by (destruct (S v); congruence).
          assert (Ht : tgt = a) by (unfold tgt; now rewrite Hva).
          rewrite Ht. apply IH1. congruence.
      + assert (Hin : In (x, y) Ef).
        { unfold Ef. apply In_without. unfold swap. simpl. auto. }
        pose proof (Hclosed x y Hin) as Hxy.
        assert (Hstep : In (x, y) (nx.without (u, v) Ef)).
        { apply In_without. auto. }
        split.
        * intros Hv. apply path_trans with y; [now apply path_step|].
          apply IH1. congruence.
        * intros Hv. apply IH2. congruence. }
  apply (Hmain u v Hp eq_refl). apply Hclosed. unfold Ef. apply In_without.
  unfold swap. simpl. auto.
Qed.

(** The same with a list of bridges taken out one after the other. *)
Lemma cycle_survives_bridges (bs : list (Z * Z)) (E : list (Z * Z)) (e : Z * Z) :
  symmetric E ->
  (forall f, In f bs -> ~ path (nx.without f E) (fst f) (snd f)) ->
  In e E -> (forall f, In f bs -> e <> f /\ e <> swap f) ->
  path (nx.without e E) (fst e) (snd e) ->
  path (nx.without e (fold_left (fun E f => nx.without f E) bs E)) (fst e) (snd e).
Proof.
  revert E. induction bs as [|f bs IH]; intros E Hs Hbr He Hne Hp; simpl; [assumption|].
  apply IH.
  - now apply without_symmetric.
  - intros g Hg Hpath. apply (Hbr g (or_intror Hg)).
    eapply path_incl; [|exact Hpath].
    intros q Hq. apply In_without in Hq. destruct Hq as [Hq [H1 H2]].
    apply In_without in Hq. destruct Hq as [Hq _]. apply In_without. auto.
  - apply In_without. destruct (Hne f (or_introl eq_refl)). auto.
  - intros g Hg. apply Hne. now right.
  - destruct (Hne f (or_introl eq_refl)) as [H1 H2].
    apply cycle_survives_bridge; auto. apply Hbr. now left.
Qed.

Lemma In_fold_without (bs : list (Z * Z)) (E : list (Z * Z)) (q : Z * Z) :
  In q (fold_left (fun E f => nx.without f E) bs E) <->
  In q E /\ forall f, In f bs -> q <> f /\ q <> swap f.
Proof.
  revert E. induction bs as [|f bs IH]; intros E; simpl.
  - split; [intros H; split; [assumption | intros f []] | tauto].
  - rewrite IH, In_without. split.
    + intros [[H [H1 H2]] H3]. split; [assumption|].
      intros g [<-|Hg]; [auto | now apply H3].
    + intros [H H3]. split.
      * destruct (H3 f (or_introl eq_refl)). auto.
      * intros g Hg. apply H3. now right.
Qed.

Lemma joins_ends (u v : node) (a : arc) : joins u v a = true <-> ends a = (u, v).
Proof.
  unfold joins, ends. rewrite andb_true_iff, !Z.eqb_eq. split.
  - intros [-> ->]. reflexivity.
  - intros H. injection H as -> ->. auto.
Qed.

Lemma remove_last_unique (u v : node) (l : list arc) :
  NoDup (map ends l) ->
  NoDup (map ends (remove_last u v l)) /\
  forall a, In a (remove_last u v l) <-> In a l /\ ends a <> (u, v).
Proof.
  induction l as [|b l IH]; intros Hnd; simpl.
  - split; [constructor | intros a; tauto].
  - simpl in Hnd. inversion Hnd as [|? ? Hb Hnd']; subst.
    destruct (IH Hnd') as [IHn IHi].
    destruct (joins u v b) eqn:Hj; simpl.
    + apply joins_ends in Hj.
      assert (Hno : existsb (joins u v) l = false).
      { destruct (existsb (joins u v) l) eqn:Hex; [|reflexivity].
        exfalso. apply existsb_exists in Hex. destruct Hex as [c [Hc Hjc]].
        apply joins_ends in Hjc. apply Hb. rewrite Hj, <- Hjc. now apply in_map. }
      rewrite Hno. simpl. split; [assumption|].
      intros a. split.
      * intros Ha. split; [now right|]. intros He. apply Hb.
        rewrite Hj, <- He. now apply in_map.
      * intros [[<-|Ha] Hne]; [contradiction | assumption].
    + split.
      * simpl. constructor; [|assumption]. intros Hin. apply Hb.
        apply in_map_iff in Hin. destruct Hin as [c [Hc Hin]].
        apply IHi in Hin. rewrite <- Hc. apply in_map. tauto.
      * intros a. simpl. rewrite IHi. split.
        -- intros [<-|[Ha Hne]]; [|tauto]. split; [now left|].
           intros He. apply joins_ends in He. congruence.
        -- intros [[<-|Ha] Hne]; [now left | right; tauto].
Qed.

Lemma remove_bridge_unique (G : graph) (p : Z * Z) :
  NoDup (map ends (g_arcs G)) ->
  NoDup (map ends (g_arcs (remove_bridge G p))) /\
  forall a, In a (g_arcs (remove_bridge G p)) <->
            In a (g_arcs G) /\ ends a <> p /\ ends a <> swap p.
Proof.
  intros Hnd. unfold remove_bridge. destruct p as [u v]. cbn [fst snd].
  set (G1 := if has_edge G u v then remove_edge G u v else G).
  assert (H1 : NoDup (map ends (g_arcs G1)) /\
               forall a, In a (g_arcs G1) <-> In a (g_arcs G) /\ ends a <> (u, v)).
  { unfold G1. destruct (has_edge G u v) eqn:He.
    - simpl. now apply remove_last_unique.
    - split; [assumption|]. intros a. split; [|tauto]. intros Ha. split; [assumption|].
      intros Hea. apply joins_ends in Hea.
      assert (Ht : has_edge G u v = true); [|congruence].
      unfold has_edge. apply existsb_exists. eauto. }
  destruct H1 as [Hnd1 Hin1].
  assert (H2 : NoDup (map ends (g_arcs (if has_edge G1 v u then remove_edge G1 v u else G1))) /\
               forall a, In a (g_arcs (if has_edge G1 v u then remove_edge G1 v u else G1)) <->
                         In a (g_arcs G1) /\ ends a <> (v, u)).
  { destruct (has_edge G1 v u) eqn:He.
    - simpl. now apply remove_last_unique.
    - split; [assumption|]. intros a. split; [|tauto]. intros Ha. split; [assumption|].
      intros Hea. apply joins_ends in Hea.
      assert (Ht : has_edge G1 v u = true); [|congruence].
      unfold has_edge. apply existsb_exists. eauto. }
  destruct H2 as [Hnd2 Hin2]. split; [assumption|].
  intros a. rewrite Hin2, Hin1. unfold swap. simpl. tauto.
Qed.

Lemma remove_bridges_unique (bs : list (Z * Z)) (G : graph) :
  NoDup (map ends (g_arcs G)) ->
  forall a, In a (g_arcs (remove_bridges G bs)) <->
            In a (g_arcs G) /\ forall f, In f bs -> ends a <> f /\ ends a <> swap f.
Proof.
  unfold remove_bridges. revert G. induction bs as [|p bs IH]; intros G Hnd a; simpl.
  - split; [intros H; split; [assumption | intros f []] | tauto].
  - destruct (remove_bridge_unique G p Hnd) as [Hnd1 Hin1].
    rewrite (IH _ Hnd1), Hin1. split.
    + intros [[H [H1 H2]] H3]. split; [assumption|].
      intros f [<-|Hf]; [auto | now apply H3].
    + intros [H H3]. split.
      * destruct (H3 p (or_introl eq_refl)). auto.
      * intros f Hf. apply H3. now right.
Qed.

Lemma undirected_remove_bridges (bs : list (Z * Z)) (G : graph) (q : Z * Z) :
  NoDup (map ends (g_arcs G)) ->
  In q (nx.undirected (remove_bridges G bs)) <->
  In q (fold_left (fun E f => nx.without f E) bs (nx.undirected G)).
Proof.
  intros Hnd. rewrite In_fold_without. destruct q as [x y].
  unfold nx.undirected. rewrite !In_sym, !In_arcs_of.
  assert (Hside : forall s t,
            (exists e, In e (g_arcs (remove_bridges G bs)) /\ src e = s /\ dst e = t) <->
            (exists e, In e (g_arcs G) /\ src e = s /\ dst e = t) /\
            forall f, In f bs -> (s, t) <> f /\ (s, t) <> swap f).
  { intros s t. split.
    - intros [e [He [Hs Ht]]]. apply (remove_bridges_unique bs G Hnd) in He.
      destruct He as [He Hf]. split; [eauto|]. intros f Hin.
      specialize (Hf f Hin). unfold ends in Hf. rewrite Hs, Ht in Hf. exact Hf.
    - intros [[e [He [Hs Ht]]] Hf]. exists e. split; [|auto].
      apply (remove_bridges_unique bs G Hnd). split; [assumption|].
      intros f Hin. unfold ends. rewrite Hs, Ht. now apply Hf. }
  rewrite !Hside. split.
  - intros [[H Hf]|[H Hf]].
    + split; [now left | exact Hf].
    + split; [now right|]. intros f Hin. destruct (Hf f Hin) as [H1 H2]. split.
      * intros Heq. apply H2. rewrite <- Heq. reflexivity.
      * intros Heq. apply H1. rewrite <- (swap_swap f), <- Heq. reflexivity.
  - intros [[H|H] Hf]; [left; auto | right]. split; [assumption|].
    intros f Hin. destruct (Hf f Hin) as [H1 H2]. split.
    + intros Heq. apply H2. rewrite <- Heq. reflexivity.
    + intros Heq. apply H1. rewrite <- (swap_swap f), <- Heq. reflexivity.
Qed.

Lemma fold_add_undirected_sub (l acc : list (Z * Z)) (p : Z * Z) :
  In p (fold_left nx.add_undirected l acc) -> In p acc \/ In p l.
Proof.
  revert acc. induction l as [|q l IH]; intros acc H; simpl in *; [now left|].
  destruct (IH _ H) as [Ha|Hl]; [|tauto].
  unfold nx.add_undirected in Ha.
  destruct (mem_pair q acc || mem_pair (swap q) acc); [now left|].
  apply in_app_or in Ha. destruct Ha as [Ha|[<-|[]]]; tauto.
Qed.

Lemma fold_add_undirected_keeps (l acc : list (Z * Z)) (p : Z * Z) :
  In p acc -> In p (fold_left nx.add_undirected l acc).
Proof.
  revert acc. induction l as [|q l IH]; intros acc H; simpl; [assumption|].
  apply IH. unfold nx.add_undirected.
  destruct (mem_pair q acc || mem_pair (swap q) acc); [assumption|].
  apply in_or_app. now left.
Qed.

Lemma fold_add_undirected_covers (l acc : list (Z * Z)) (p : Z * Z) :
  In p l ->
  In p (fold_left nx.add_undirected l acc) \/
  In (swap p) (fold_left nx.add_undirected l acc).
Proof.
  revert acc. induction l as [|q l IH]; intros acc H; [contradiction|].
  simpl. destruct H as [->|H]; [|now apply IH].
  unfold nx.add_undirected at 2 4.
  destruct (mem_pair p acc || mem_pair (swap p) acc) eqn:Hm.
  - apply orb_true_iff in Hm. rewrite !mem_pair_In in Hm.
    destruct Hm as [Hm|Hm]; [left | right]; now apply fold_add_undirected_keeps.
  - left. apply fold_add_undirected_keeps. apply in_or_app. right. now left.
Qed.

Lemma is_bridge_spec (G : graph) (p : Z * Z) :
  nx.is_bridge G p = false <-> path (nx.without p (nx.undirected G)) (fst p) (snd p).
Proof.
  unfold nx.is_bridge. rewrite negb_false_iff, memZ_In. apply reach_path.
Qed.

Lemma path_inside_component_without (G : graph) (w : node) (p : Z * Z) (a b : node) :
  path (nx.without p (nx.undirected G)) a b ->
  In a (reach (nx.undirected G) w) ->
  path (nx.without p (nx.undirected (subgraph G (reach (nx.undirected G) w)))) a b.
Proof.
  intros Hp. induction Hp as [a|a x b Hax _ IH]; intros Ha.
  - apply path_refl.
  - unfold step in Hax. apply In_without in Hax. destruct Hax as [Hax [H1 H2]].
    assert (Hx : In x (reach (nx.undirected G) w)).
    { apply reach_path. apply path_trans with a; [now apply reach_path|].
      now apply path_step. }
    apply path_trans with x; [|now apply IH].
    apply path_step. apply In_without. split; [|auto].
    unfold nx.undirected in *. apply In_sym. apply In_sym in Hax.
    destruct Hax as [H|H]; [left | right]; apply In_arcs_subgraph; auto.
Qed.

Lemma without_swap (p q : Z * Z) (E : list (Z * Z)) :
  In q (nx.without (swap p) E) <-> In q (nx.without p E).
Proof. rewrite !In_without, swap_swap. tauto. Qed.

Lemma filter_none {A} (f : A -> bool) (l : list A) :
  (forall x, In x l -> f x = false) -> filter f l = [].
Proof.
  induction l as [|a l IH]; intros H; simpl; [reflexivity|].
  rewrite (H a (or_introl eq_refl)). apply IH. intros x Hx. apply H. now right.
Qed.

(** X19: on a graph without parallel arcs, what STEP 1 returns has no
    bridge left: taking the bridges out breaks no cycle, so every edge
    that remains is still on a cycle, inside the component that is kept.
    With X10, the output of STEP 1 is connected and bridgeless as soon as
    a bridge was found. *)
Theorem bridge_filter_leaves_no_bridge (G out : graph) :
  no_parallel_arcs G -> bridge_filter G = Ok out -> nx.bridges out = [].
Proof.
  intros [_ Hnd]. unfold bridge_filter.
  destruct (nonempty (nx.bridges G)) eqn:Hne.
  2:{ intros H. injection H as <-. now apply nonempty_false. }
  set (bs := nx.bridges G) in *. set (G' := remove_bridges G bs).
  destruct (max_len (nx.connected_components G')) as [c|e] eqn:Hmax; [|discriminate].
  cbn [rbind]. intros H. injection H as <-.
  destruct (max_len_spec _ _ Hmax) as [Hin _].
  unfold nx.connected_components in Hin. apply components_from_In in Hin.
  destruct Hin as [w [_ ->]].
  unfold nx.bridges. apply filter_none. intros [x y] Hp.
  apply is_bridge_spec. cbn [fst snd].
  unfold nx.edges_undirected in Hp. apply fold_add_undirected_sub in Hp.
  destruct Hp as [[]|Hp]. apply In_arcs_subgraph in Hp. destruct Hp as [Hp [Hx Hy]].
  apply path_inside_component_without; [|assumption].
  assert (Hund : In (x, y) (nx.undirected G')).
  { unfold nx.undirected. apply In_sym. now left. }
  pose proof (proj1 (undirected_remove_bridges bs G (x, y) Hnd) Hund) as Hfold.
  apply In_fold_without in Hfold. destruct Hfold as [HE Hnb].
  assert (HpG : In (x, y) (nx.arcs_of G)).
  { apply In_arcs_of in Hp. destruct Hp as [a [Ha [Hs Hd]]].
    apply In_arcs_of. exists a. split; [|auto]. eapply remove_bridges_incl. exact Ha. }
  assert (Hcycle : path (nx.without (x, y) (nx.undirected G)) x y).
  { destruct (fold_add_undirected_covers (nx.arcs_of G) [] (x, y) HpG) as [Hr|Hr].
    - destruct (nx.is_bridge G (x, y)) eqn:Hb.
      + exfalso. apply (proj1 (Hnb (x, y) ltac:(apply filter_In; auto))). reflexivity.
      + now apply is_bridge_spec in Hb.
    - destruct (nx.is_bridge G (swap (x, y))) eqn:Hb.
      + exfalso. apply (proj2 (Hnb (swap (x, y)) ltac:(apply filter_In; auto))).
        now rewrite swap_swap.
      + apply is_bridge_spec in Hb. cbn [swap fst snd] in Hb.
        apply path_symmetric.
        * apply without_symmetric, sym_symmetric.
        * eapply path_incl; [|exact Hb]. intros q Hq.
          now apply (without_swap (x, y)). }
  assert (Hsurv : path (nx.without (x, y)
                          (fold_left (fun E f => nx.without f E) bs (nx.undirected G))) x y).
  { apply (cycle_survives_bridges bs (nx.undirected G) (x, y)).
    - apply sym_symmetric.
    - intros f Hf Hpath. unfold bs, nx.bridges in Hf. apply filter_In in Hf.
      destruct Hf as [_ Hf].
      assert (Hb : nx.is_bridge G f = false) by now apply is_bridge_spec.
      congruence.
    - exact HE.
    - exact Hnb.
    - exact Hcycle. }
  eapply path_incl; [|exact Hsurv].
  intros q Hq. apply In_without in Hq. destruct Hq as [Hq Hn]. apply In_without.
  split; [|exact Hn]. now apply (undirected_remove_bridges bs G q Hnd).
Qed.

Lemma bridge_filter_leaves_no_bridge_witness :
  nx.bridges (Graph [1; 2; 3] (two_way 1 2 ++ two_way 2 3 ++ two_way 3 1)) = [].
Proof.
  apply (bridge_filter_leaves_no_bridge triangle_with_tail).
  - split.
    + intros a Ha. vm_compute in Ha.
      repeat (destruct Ha as [<-|Ha]; [reflexivity|]). contradiction.
    + vm_compute. repeat (constructor; [simpl; intuition congruence|]). constructor.
  - vm_compute. reflexivity.
Defined.

(** * The processing sequence and the order of sets *)

(** ** What the feasibility test and the loop depend on *)

Lemma fold_di_add_edge_same (ps ps' : list (Z * Z)) (T T' : digraph) :
  same_graph T T' ->
  (forall p, In p ps <-> In p ps') ->
  same_graph (fold_left di_add_edge ps T) (fold_left di_add_edge ps' T').
Proof.
  intros [HV HE] H.
  destruct (fold_di_add_edge ps T) as [E1 V1], (fold_di_add_edge ps' T') as [E2 V2].
  split.
  - intros x. rewrite V1, V2, HV. split;
      (intros [Hx|[y Hy]]; [now left | right; exists y]);
      [rewrite <- !H | rewrite !H]; exact Hy.
  - intros p. rewrite E1, E2, !in_app_iff, H, HE. tauto.
Qed.

Lemma _is_still_strongly_connected_ext
  (nodes nodes' : list node) (arcs arcs' : list (Z * Z)) (und : list (list node)) :
  (forall x, In x nodes <-> In x nodes') ->
  (forall p, In p arcs <-> In p arcs') ->
  _is_still_strongly_connected nodes arcs und =
  _is_still_strongly_connected nodes' arcs' und.
Proof.
  intros Hn H. unfold _is_still_strongly_connected.
  assert (H0 : same_graph (add_nodes_from [] nodes, @nil (Z * Z))
                          (add_nodes_from [] nodes', [])).
  { split; [|reflexivity]. intros x. cbn [fst]. rewrite !In_add_nodes_from, Hn. tauto. }
  pose proof (add_both_ways_same und _ _ (fold_di_add_edge_same arcs arcs' _ _ H0 H)) as Hs.
  destruct (add_both_ways (fold_left di_add_edge arcs _) und) as [U|e],
           (add_both_ways (fold_left di_add_edge arcs' _) und) as [U'|e'];
    try contradiction; cbn [rbind].
  - now apply is_strongly_connected_on_ext.
  - now subst.
Qed.

(** The decisions of the loop depend on which nodes there are and which
    arcs are committed, not on the order they are listed in. *)
Lemma orient_ext (nodes nodes' : list node) (und : list (list node)) :
  (forall x, In x nodes <-> In x nodes') ->
  forall arcs arcs', (forall p, In p arcs <-> In p arcs') ->
  match orient nodes arcs und, orient nodes' arcs' und with
  | Ok c, Ok c' => exists decisions,
      c = arcs ++ decisions /\ c' = arcs' ++ decisions /\ length decisions = length und
  | Raise e, Raise e' => e = e'
  | _, _ => False
  end.
Proof.
  intros Hn. induction und as [|t und IH]; intros arcs arcs' H; simpl.
  - exists []. now rewrite !app_nil_r.
  - destruct (index t 0) as [u|e]; [|reflexivity].
    destruct (index t 1) as [v|e]; [|reflexivity]. cbn [rbind].
    assert (H1 : forall p, In p (arcs ++ [(u, v)]) <-> In p (arcs' ++ [(u, v)])).
    { intros p. rewrite !in_app_iff, H. tauto. }
    rewrite (_is_still_strongly_connected_ext nodes nodes' _ _ und Hn H1).
    destruct (_is_still_strongly_connected nodes' (arcs' ++ [(u, v)]) und) as [ok|e];
      [|reflexivity].
    cbn [rbind].
    set (d := if ok then (u, v) else (v, u)).
    assert (H2 : forall p, In p (arcs ++ [d]) <-> In p (arcs' ++ [d])).
    { intros p. rewrite !in_app_iff, H. tauto. }
    specialize (IH _ _ H2).
    destruct (orient nodes (arcs ++ [d]) und) as [c|e],
             (orient nodes' (arcs' ++ [d]) und) as [c'|e']; try contradiction.
    + destruct IH as [ds [-> [-> Hl]]]. exists (d :: ds).
      rewrite <- !app_assoc. simpl. auto.
    + exact IH.
Qed.

Lemma fixed_arcs_same (o1 o2 : set_order) (G1 G2 : graph) (p : Z * Z) :
  same_content G1 G2 -> In p (fixed_arcs o1 G1) <-> In p (fixed_arcs o2 G2).
Proof.
  intros [_ Ha]. unfold fixed_arcs. rewrite !In_set_iter, !in_map_iff.
  split; intros [a [He Hin]]; exists a; (split; [exact He|]);
    apply filter_In in Hin; apply filter_In; destruct Hin as [Hin Hf];
    (split; [now apply Ha | exact Hf]).
Qed.

Lemma fixed_arcs_Permutation (o1 o2 : set_order) (G1 G2 : graph) :
  same_content G1 G2 -> Permutation (fixed_arcs o1 G1) (fixed_arcs o2 G2).
Proof.
  intros H. apply NoDup_Permutation.
  - apply NoDup_set_iter.
  - apply NoDup_set_iter.
  - intros p. now apply fixed_arcs_same.
Qed.

(** ** The arcs of the final graph *)

Lemma count_joins (u v : node) (l : list arc) :
  length (filter (joins u v) l) = count_occ pair_eq_dec (map ends l) (u, v).
Proof.
  induction l as [|a l IH]; [reflexivity|]. cbn [map filter].
  destruct (pair_eq_dec (ends a) (u, v)) as [E|E].
  - rewrite (count_occ_cons_eq _ _ E). unfold joins at 1.
    unfold ends in E. injection E as E1 E2. rewrite E1, E2, !Z.eqb_refl.
    cbn. now rewrite IH.
  - rewrite (count_occ_cons_neq _ _ E). unfold joins at 1.
    destruct ((src a =? u) && (dst a =? v)) eqn:J; [|exact IH].
    apply andb_true_iff in J. destruct J as [J1 J2]. apply Z.eqb_eq in J1, J2.
    exfalso. apply E. unfold ends. congruence.
Qed.

(** The arcs [add_edges_from] makes of a list of pairs: for every pair
    as many arcs as the list has entries for it, with keys 0, 1, ... *)
Lemma In_add_edges_from (ns : list node) (ps : list (Z * Z)) (a : arc) :
  In a (g_arcs (add_edges_from (Graph ns []) ps)) <->
  oneway a = false /\ flexible a = false /\
  0 <= key a < Z.of_nat (count_occ pair_eq_dec ps (ends a)).
Proof.
  induction ps as [|p ps IH] using rev_ind.
  - simpl. split; [contradiction | lia].
  - unfold add_edges_from in *. rewrite fold_left_app. cbn [fold_left].
    set (G := fold_left add_edge ps (Graph ns [])) in *.
    assert (Hc : length (filter (joins (fst p) (snd p)) (g_arcs G))
                 = count_occ pair_eq_dec ps p).
    { rewrite count_joins. fold (nx.arcs_of G). unfold G.
      fold (add_edges_from (Graph ns []) ps).
      rewrite (add_edges_from_arcs ps (Graph ns [])). simpl.
      now destruct p. }
    unfold add_edge at 1. cbn [g_arcs]. rewrite in_app_iff, IH, count_occ_app, Hc.
    cbn [count_occ In]. destruct (pair_eq_dec p (ends a)) as [E|E].
    + split.
      * intros [[H1 [H2 H3]]|[Ha|[]]]; [repeat split; try assumption; lia|].
        subst a. cbn [oneway flexible key]. repeat split; try reflexivity; [lia|].
        rewrite <- E. lia.
      * intros [H1 [H2 H3]].
        destruct (Z.eq_dec (key a) (Z.of_nat (count_occ pair_eq_dec ps (ends a))))
          as [Hk|Hk].
        -- right. left. rewrite E, <- Hk. destruct a as [s d k ow fl].
           cbn in H1, H2 |- *. now subst.
        -- left. repeat split; try assumption; lia.
    + split.
      * intros [[H1 [H2 H3]]|[Ha|[]]]; [repeat split; try assumption; lia|].
        exfalso. apply E. subst a. now destruct p.
      * intros [H1 [H2 H3]]. left. repeat split; try assumption; lia.
Qed.

Lemma build_final_same_content (G1 G2 : graph) (c1 c2 : list (Z * Z)) :
  same_content G1 G2 -> Permutation c1 c2 ->
  same_content (build_final G1 c1) (build_final G2 c2).
Proof.
  intros [Hn _] Hp. unfold build_final. split.
  - intros n. rewrite !add_edges_from_In_nodes. cbn [g_nodes].
    rewrite !In_add_nodes_from, Hn.
    assert (Hin : forall q, In q c1 <-> In q c2).
    { intros q. split; apply Permutation_in; [assumption | now apply Permutation_sym]. }
    split; (intros [H|[y H]]; [now left | right; exists y]);
      [rewrite <- !Hin | rewrite !Hin]; exact H.
  - intros a. rewrite !In_add_edges_from.
    now rewrite (proj1 (Permutation_count_occ pair_eq_dec c1 c2) Hp (ends a)).
Qed.

(** ** Two runs of the solver *)

(** C8, as the code has it: the processing sequence is the order in
    which Python lists the set of flexible connections, and the two ends
    of each.  Take two runs in which the solver gets the same nodes and
    the same arcs, each listed in an order of its own, and lists the
    flexible connections alike.  Both end normally or both raise the
    same exception.  When they end normally they take the same decision
    for every flexible edge: each committed list is the fixed arcs, in
    that run's listing, followed by the same arcs.  The graphs built
    from the two lists have the same nodes and the same arcs, the final
    verification gives the same verdict on both, and when it passes the
    two runs return these graphs. *)
Theorem same_sequence_same_decisions (o1 o2 : set_order) (G1 G2 : graph) :
  same_content G1 G2 ->
  undecided_edges o1 G1 = undecided_edges o2 G2 ->
  match orientation_solver o1 G1, orientation_solver o2 G2 with
  | Ok c1, Ok c2 =>
      (exists decisions,
         c1 = fixed_arcs o1 G1 ++ decisions /\
         c2 = fixed_arcs o2 G2 ++ decisions /\
         length decisions = length (undecided_edges o1 G1)) /\
      Permutation c1 c2 /\
      same_content (build_final G1 c1) (build_final G2 c2) /\
      nx.is_strongly_connected (build_final G1 c1) =
      nx.is_strongly_connected (build_final G2 c2) /\
      (nx.is_strongly_connected (build_final G1 c1) = Ok true ->
       final_verification (build_final G1 c1) = Ok (build_final G1 c1) /\
       final_verification (build_final G2 c2) = Ok (build_final G2 c2))
  | Raise e1, Raise e2 => e1 = e2
  | _, _ => False
  end.
Proof.
  intros Hs Hu. unfold orientation_solver. rewrite <- Hu.
  pose proof (orient_ext (g_nodes G1) (g_nodes G2) (undecided_edges o1 G1) (proj1 Hs)
                (fixed_arcs o1 G1) (fixed_arcs o2 G2)
                (fun p => fixed_arcs_same o1 o2 G1 G2 p Hs)) as H.
  destruct (orient (g_nodes G1) (fixed_arcs o1 G1) (undecided_edges o1 G1)) as [c1|e1],
           (orient (g_nodes G2) (fixed_arcs o2 G2) (undecided_edges o1 G1)) as [c2|e2];
    try contradiction; [|exact H].
  destruct H as [ds [-> [-> Hl]]].
  assert (Hp : Permutation (fixed_arcs o1 G1 ++ ds) (fixed_arcs o2 G2 ++ ds)).
  { apply Permutation_app_tail. now apply fixed_arcs_Permutation. }
  pose proof (build_final_same_content G1 G2 _ _ Hs Hp) as Hb.
  assert (Hv : nx.is_strongly_connected (build_final G1 (fixed_arcs o1 G1 ++ ds)) =
               nx.is_strongly_connected (build_final G2 (fixed_arcs o2 G2 ++ ds))).
  { unfold nx.is_strongly_connected.
    apply (is_strongly_connected_on_ext
             (g_nodes (build_final G1 (fixed_arcs o1 G1 ++ ds)),
              nx.arcs_of (build_final G1 (fixed_arcs o1 G1 ++ ds)))
             (g_nodes (build_final G2 (fixed_arcs o2 G2 ++ ds)),
              nx.arcs_of (build_final G2 (fixed_arcs o2 G2 ++ ds)))).
    split; [exact (proj1 Hb)|]. intros p. cbn [snd]. unfold build_final.
    rewrite !add_edges_from_arcs. cbn [nx.arcs_of g_arcs map app].
    split; apply Permutation_in; [assumption | now apply Permutation_sym]. }
  split; [exists ds; auto|]. split; [exact Hp|]. split; [exact Hb|].
  split; [exact Hv|].
  intros Hok. unfold final_verification. rewrite <- Hv, Hok. cbn [rbind]. auto.
Qed.

Lemma same_sequence_same_decisions_witness :
  fixed_arcs (insertion_order false) half_fixed_square = [(1, 2); (2, 3)] /\
  fixed_arcs reverse_order half_fixed_square_relisted = [(2, 3); (1, 2)] /\
  orientation_solver (insertion_order false) half_fixed_square
    = Ok [(1, 2); (2, 3); (3, 4); (4, 1)] /\
  orientation_solver reverse_order half_fixed_square_relisted
    = Ok [(2, 3); (1, 2); (3, 4); (4, 1)] /\
  same_content (build_final half_fixed_square [(1, 2); (2, 3); (3, 4); (4, 1)])
               (build_final half_fixed_square_relisted [(2, 3); (1, 2); (3, 4); (4, 1)]).
Proof.
  assert (E1 : orientation_solver (insertion_order false) half_fixed_square
               = Ok [(1, 2); (2, 3); (3, 4); (4, 1)]) by (vm_compute; reflexivity).
  assert (E2 : orientation_solver reverse_order half_fixed_square_relisted
               = Ok [(2, 3); (1, 2); (3, 4); (4, 1)]) by (vm_compute; reflexivity).
  split; [vm_compute; reflexivity|]. split; [vm_compute; reflexivity|].
  split; [exact E1|]. split; [exact E2|].
  assert (Hs : same_content half_fixed_square half_fixed_square_relisted).
  { split; intros x; simpl; intuition. }
  assert (Hu : undecided_edges (insertion_order false) half_fixed_square
               = undecided_edges reverse_order half_fixed_square_relisted)
    by (vm_compute; reflexivity).
  pose proof (same_sequence_same_decisions (insertion_order false) reverse_order
                half_fixed_square half_fixed_square_relisted Hs Hu) as H.
  rewrite E1, E2 in H. exact (proj1 (proj2 (proj2 H))).
Defined.

(** ** The square under every order *)

Lemma square_filtered : filtered square = Ok square_flagged.
Proof. vm_compute. reflexivity. Qed.

Lemma square_sequence (o : set_order) :
  Permutation (set_iter o (edges_to_decide square_flagged))
              [(1, 2); (2, 3); (3, 4); (1, 4)].
Proof.
  pose proof (set_iter_perm o (edges_to_decide square_flagged)) as P.
  assert (E : nodup pair_eq_dec (edges_to_decide square_flagged)
              = [(1, 2); (2, 3); (3, 4); (1, 4)]) by (vm_compute; reflexivity).
  now rewrite E in P.
Qed.

Ltac run_loop :=
  match goal with
  | |- exists c, ?t = Ok c /\ _ =>
      let r := eval vm_compute in t in
      match r with
      | Ok ?c => exists c; split; [vm_compute; reflexivity|]
      end
  end.

(** Whatever the order of the four streets and of the two ends of each,
    the loop ends with a circuit of the square, and the circuit goes the
    way the first tuple of the sequence points. *)
Lemma square_orient (fl : Z * Z -> bool) (L : list (Z * Z)) :
  Permutation L [(1, 2); (2, 3); (3, 4); (1, 4)] ->
  exists committed,
    orient [1; 2; 3; 4] []
           (map (fun f => if fl f then [snd f; fst f] else [fst f; snd f]) L)
      = Ok committed /\
    nx.is_strongly_connected (build_final square_flagged committed) = Ok true /\
    forall p, In p committed <->
      In p (if clockwise_first
                 (map (fun f => if fl f then [snd f; fst f] else [fst f; snd f]) L)
            then nx.arcs_of square_clockwise
            else nx.arcs_of square_anticlockwise).
Proof.
  intros P.
  pose proof (Permutation_length P) as Hlen.
  assert (Hnd : NoDup L).
  { apply (Permutation_NoDup (Permutation_sym P)).
    repeat (constructor; [simpl; intuition congruence|]). constructor. }
  assert (Hin : forall x, In x L -> In x [(1, 2); (2, 3); (3, 4); (1, 4)]).
  { intros x. apply Permutation_in. exact P. }
  destruct L as [|a [|b [|c [|d [|]]]]]; try discriminate Hlen.
  pose proof (Hin a ltac:(simpl; auto)) as Ha.
  pose proof (Hin b ltac:(simpl; auto)) as Hb.
  pose proof (Hin c ltac:(simpl; auto)) as Hc.
  pose proof (Hin d ltac:(simpl; auto)) as Hd.
  apply NoDup_cons_iff in Hnd. destruct Hnd as [N1 Hnd].
  apply NoDup_cons_iff in Hnd. destruct Hnd as [N2 Hnd].
  apply NoDup_cons_iff in Hnd. destruct Hnd as [N3 _].
  clear P Hlen Hin.
  destruct Ha as [<-|[<-|[<-|[<-|[]]]]];
    destruct Hb as [<-|[<-|[<-|[<-|[]]]]];
    try (exfalso; apply N1; simpl; auto; fail);
    destruct Hc as [<-|[<-|[<-|[<-|[]]]]];
    try (exfalso; apply N1; simpl; auto; fail);
    try (exfalso; apply N2; simpl; auto; fail);
    destruct Hd as [<-|[<-|[<-|[<-|[]]]]];
    try (exfalso; apply N1; simpl; auto; fail);
    try (exfalso; apply N2; simpl; auto; fail);
    try (exfalso; apply N3; simpl; auto; fail);
    clear N1 N2 N3; cbn [map fst snd];
    destruct (fl (1, 2)), (fl (2, 3)), (fl (3, 4)), (fl (1, 4));
    run_loop; (split; [vm_compute; reflexivity|]);
    intros p; vm_compute; tauto.
Qed.

Lemma tuple_of_couple (o : set_order) (f : Z * Z) :
  fst f <> snd f ->
  tuple_of o f = if tuple_flip o f then [snd f; fst f] else [fst f; snd f].
Proof.
  intros H. unfold tuple_of. destruct (fst f =? snd f) eqn:E; [|reflexivity].
  apply Z.eqb_eq in E. contradiction.
Qed.

(** C8 as stated fails.  On the square the solver commits a circuit, and
    which of the two circuits is decided by the set order alone: under
    every order the circuit goes the way the first tuple of the
    processing sequence points.  An order that gives every connection
    as (smaller end, larger end) starts with (1, 2) and the run returns
    the square oriented 1 -> 2 -> 3 -> 4 -> 1; an order that gives the
    ends the other way round starts with (2, 1) and the run returns the
    opposite circuit: two graphs that share no arc.  The square has no
    bridge and no one-way cut node and the final verification passes, so
    these runs take no subgraph and no component. *)
Lemma output_depends_on_set_order :
  (forall o : set_order, exists committed,
     orientation_solver o square_flagged = Ok committed /\
     run o square = Ok (build_final square_flagged committed) /\
     forall p, In p committed <->
       In p (if clockwise_first (undecided_edges o square_flagged)
             then nx.arcs_of square_clockwise
             else nx.arcs_of square_anticlockwise)) /\
  undecided_edges (insertion_order false) square_flagged
    = [[1; 2]; [2; 3]; [3; 4]; [1; 4]] /\
  undecided_edges (insertion_order true) square_flagged
    = [[2; 1]; [3; 2]; [4; 3]; [4; 1]] /\
  run (insertion_order false) square = Ok square_clockwise /\
  run (insertion_order true) square = Ok square_anticlockwise /\
  ~ same_content square_clockwise square_anticlockwise.
Proof.
  split.
  { intros o.
    destruct (square_orient (tuple_flip o) _ (square_sequence o)) as [c [Hc [Hv Hin]]].
    assert (Hu : undecided_edges o square_flagged =
                 map (fun f => if tuple_flip o f then [snd f; fst f] else [fst f; snd f])
                     (set_iter o (edges_to_decide square_flagged))).
    { unfold undecided_edges. apply map_ext_in. intros f Hf. apply tuple_of_couple.
      apply (Permutation_in _ (square_sequence o)) in Hf. simpl in Hf.
      destruct Hf as [<-|[<-|[<-|[<-|[]]]]]; discriminate. }
    assert (Hsolve : orientation_solver o square_flagged = Ok c).
    { unfold orientation_solver. rewrite Hu. unfold fixed_arcs.
      replace (map ends (filter (fun a => negb (flexible a)) (g_arcs square_flagged)))
        with (@nil (Z * Z)) by reflexivity.
      rewrite set_iter_nil. exact Hc. }
    exists c. split; [exact Hsolve|]. split; [|now rewrite Hu].
    rewrite run_pipeline. unfold pipeline. rewrite square_filtered. cbn [rbind].
    rewrite Hsolve. cbn [rbind]. unfold final_verification. now rewrite Hv. }
  split; [vm_compute; reflexivity|].
  split; [vm_compute; reflexivity|].
  split; [vm_compute; reflexivity|].
  split; [vm_compute; reflexivity|].
  intros [_ H]. destruct (proj1 (H (plain 1 2))) as [E|[E|[E|[E|[]]]]];
    [simpl; auto | discriminate E ..].
Qed.
